(** * nigbms: gradient-estimation layer and task conversion

    A shallow embedding of
      - [nigbms/modules/wrapper.py]  ([jvp], [register_custom_grad_fn]),
      - [nigbms/train/minimize_testfunctions.py]  ([sphere]),
      - [nigbms/modules/tasks.py]  (task equality, [petsc2torch],
        [torch2petsc]).

    Numbers.  Tensor entries and Python floats are modelled by exact
    rationals ([Qc], canonical fractions with Leibniz equality); the
    rounding of floating-point arithmetic is not modelled.  The one
    place where the code changes the precision of a value, the
    conversion [torch.tensor(<python float>)] to the default tensor
    dtype, is modelled explicitly in the task part.

    Tensors.  A tensor is its shape and its entries in row-major order,
    the layout [reshape] works on.  Operations that torch rejects on
    some shapes return an [outcome]. *)

From Stdlib Require Import String ZArith QArith Qabs Qcanon Qpower Bool Arith.
From Stdlib Require Import Lia List Lqa.
Import ListNotations.

Close Scope Qc_scope.
Close Scope Q_scope.
Open Scope nat_scope.

(* ================================================================== *)
(** ** Exceptions *)

Inductive exn : Type :=
| NotImplementedError
| RuntimeError
| IndexError
| ValueError
| TypeError
| AttributeError.

Inductive outcome (A : Type) : Type :=
| Ret (a : A)
| Raise (e : exn).
Arguments Ret {A} a.
Arguments Raise {A} e.

Definition bind {A B : Type} (m : outcome A) (k : A -> outcome B) : outcome B :=
  match m with
  | Ret a => k a
  | Raise e => Raise e
  end.

Declare Scope outcome_scope.
Delimit Scope outcome_scope with outcome.
Notation "x <- m ;; k" := (bind m (fun x => k))
  (at level 61, m at next level, right associativity) : outcome_scope.
Open Scope outcome_scope.

(* ================================================================== *)
(** ** Scalars

    Python code is written once and runs on plain tensors and on the
    dual tensors of [torch.autograd.forward_ad] alike: the arithmetic is
    overloaded.  [Scalar] is that interface.

    The entries are rational numbers, where the code has floating-point
    numbers: a result stated below is the value that the operations of
    the code, in the order of the code, give before any rounding. *)

Class Scalar (T : Type) : Type := {
  s_zero : T;
  s_add : T -> T -> T;
  s_sub : T -> T -> T;
  s_mul : T -> T -> T;
  s_pow : T -> nat -> T
}.

Definition Qz (z : Z) : Qc := Q2Qc (inject_Z z).
Definition Qn (n : nat) : Qc := Qz (Z.of_nat n).

#[export] Instance Scalar_Qc : Scalar Qc := {
  s_zero := Qz 0;
  s_add := Qcplus;
  s_sub := Qcminus;
  s_mul := Qcmult;
  s_pow := Qcpower
}.

(** A dual number: primal value and tangent. *)
Definition dual : Type := (Qc * Qc)%type.

Definition dual_pow (a : dual) (n : nat) : dual :=
  (Qcpower (fst a) n,
   match n with
   | O => Qz 0
   | S m => Qcmult (Qcmult (Qn n) (Qcpower (fst a) m)) (snd a)
   end).

#[export] Instance Scalar_dual : Scalar dual := {
  s_zero := (Qz 0, Qz 0);
  s_add a b := (Qcplus (fst a) (fst b), Qcplus (snd a) (snd b));
  s_sub a b := (Qcminus (fst a) (fst b), Qcminus (snd a) (snd b));
  s_mul a b := (Qcmult (fst a) (fst b),
                Qcplus (Qcmult (fst a) (snd b)) (Qcmult (snd a) (fst b)));
  s_pow := dual_pow
}.

(* ================================================================== *)
(** ** Tensors *)

Record tensor (T : Type) : Type := mkTensor {
  shape : list nat;
  data : list T
}.
Arguments mkTensor {T} shape data.
Arguments shape {T} t.
Arguments data {T} t.

Definition numel (s : list nat) : nat := fold_right Nat.mul 1 s.

(** The tensor holds one entry per index. *)
Definition wf {T : Type} (t : tensor T) : Prop :=
  length (data t) = numel (shape t).

(** The [i]-th block of [sz] consecutive entries. *)
Definition chunk {T : Type} (sz i : nat) (l : list T) : list T :=
  firstn sz (skipn (i * sz) l).

Definition ssum {T : Type} `{Scalar T} (l : list T) : T :=
  fold_right s_add s_zero l.

Definition Qcsum (l : list Qc) : Qc := fold_right Qcplus (Qz 0) l.

Definition tmap {A B : Type} (f : A -> B) (t : tensor A) : tensor B :=
  mkTensor (shape t) (map f (data t)).

(** *** Broadcasting *)

Definition bdim (da db : nat) : option nat :=
  if da =? db then Some da
  else if da =? 1 then Some db
  else if db =? 1 then Some da
  else None.

Fixpoint broadcast_aligned (sa sb : list nat) : option (list nat) :=
  match sa, sb with
  | [], [] => Some []
  | da :: sa', db :: sb' =>
      match bdim da db, broadcast_aligned sa' sb' with
      | Some d, Some s => Some (d :: s)
      | _, _ => None
      end
  | _, _ => None
  end.

Definition pad_shape (r : nat) (s : list nat) : list nat :=
  repeat 1 (r - length s) ++ s.

Definition broadcast_shapes (sa sb : list nat) : option (list nat) :=
  let r := Nat.max (length sa) (length sb) in
  broadcast_aligned (pad_shape r sa) (pad_shape r sb).

(** Entries of the broadcast of two operands whose shapes have the same
    rank; a dimension of size 1 is repeated along the other operand. *)
Fixpoint bmap2 {T : Type} (f : T -> T -> T) (sa sb : list nat) (a b : list T)
  : list T :=
  match sa, sb with
  | da :: sa', db :: sb' =>
      flat_map
        (fun i =>
           bmap2 f sa' sb'
             (chunk (numel sa') (if da =? 1 then 0 else i) a)
             (chunk (numel sb') (if db =? 1 then 0 else i) b))
        (seq 0 (if da =? 1 then db else da))
  | _, _ =>
      match a, b with
      | u :: _, w :: _ => [f u w]
      | _, _ => []
      end
  end.

(** An elementwise binary operator of torch ([+], [-], [*]). *)
Definition tbin {T : Type} (f : T -> T -> T) (a b : tensor T)
  : outcome (tensor T) :=
  let r := Nat.max (length (shape a)) (length (shape b)) in
  match broadcast_shapes (shape a) (shape b) with
  | Some s =>
      Ret (mkTensor s
             (bmap2 f (pad_shape r (shape a)) (pad_shape r (shape b))
                (data a) (data b)))
  | None => Raise RuntimeError
  end.

Definition tadd := tbin Qcplus.
Definition tsub := tbin Qcminus.
Definition tmul := tbin Qcmult.

(** [t * c] and [t / c] for a Python number [c]. *)
Definition tscale (t : tensor Qc) (c : Qc) : tensor Qc :=
  tmap (fun u => Qcmult u c) t.
Definition tdivs (t : tensor Qc) (c : Qc) : tensor Qc :=
  tmap (fun u => Qcdiv u c) t.
(** [c * t]. *)
Definition smul (c : Qc) (t : tensor Qc) : tensor Qc :=
  tmap (fun u => Qcmult c u) t.

Definition zeros_like (t : tensor Qc) : tensor Qc :=
  mkTensor (shape t) (repeat (Qz 0) (numel (shape t))).

(** *** Reductions and reshape *)

(** Sum of [d] consecutive blocks of [R] entries, entry by entry. *)
Definition sum_axis0 (d R : nat) (block : list Qc) : list Qc :=
  map (fun m => Qcsum (map (fun k => nth (k * R + m) block (Qz 0)) (seq 0 d)))
      (seq 0 R).

(** [torch.sum(t, dim=1, keepdim=True)]. *)
Definition sum_dim1_keepdim (t : tensor Qc) : outcome (tensor Qc) :=
  match shape t with
  | d0 :: d1 :: rest =>
      let R := numel rest in
      Ret (mkTensor (d0 :: 1 :: rest)
             (flat_map (fun i => sum_axis0 d1 R (chunk (d1 * R) i (data t)))
                (seq 0 d0)))
  | _ => Raise IndexError
  end.

(** [t.reshape(s)]: the entries stay, the shape changes. *)
Definition reshape (t : tensor Qc) (s : list nat) : outcome (tensor Qc) :=
  if numel s =? numel (shape t) then Ret (mkTensor s (data t))
  else Raise RuntimeError.

(** [t.mean(dim=0)]. *)
Definition mean_dim0 (t : tensor Qc) : outcome (tensor Qc) :=
  match shape t with
  | d0 :: rest =>
      Ret (mkTensor rest
             (map (fun u => Qcdiv u (Qn d0)) (sum_axis0 d0 (numel rest) (data t))))
  | [] => Raise IndexError
  end.

(** [torch.sum(t, dim=-1, keepdim=True)], over any scalar type. *)
Definition sum_last_keepdim {T : Type} `{Scalar T} (t : tensor T) : tensor T :=
  match rev (shape t) with
  | [] => t
  | d :: outer =>
      mkTensor (rev outer ++ [1])
        (map (fun i => ssum (chunk d i (data t))) (seq 0 (numel outer)))
  end.

(** [t ** n]. *)
Definition tpow {T : Type} `{Scalar T} (t : tensor T) (n : nat) : tensor T :=
  tmap (fun u => s_pow u n) t.

(* ================================================================== *)
(** ** [wrapper.py]: the directional-derivative primitive *)

(** A function on tensors, as Python has it: one body, run on plain
    tensors or on dual tensors. *)
Definition torch_fn : Type := forall (T : Type), Scalar T -> tensor T -> tensor T.

(** The evaluations of [f] that a call of [jvp] performs, in order. *)
Inductive call : Type :=
| CallPlain (x : tensor Qc)
| CallDual (x : tensor dual).

(** Computations that evaluate [f] and may raise: the evaluations made
    so far and the outcome. *)
Definition traced (A : Type) : Type := (list call * outcome A)%type.

Definition tret {A : Type} (a : A) : traced A := ([], Ret a).

Definition tbind {A B : Type} (m : traced A) (k : A -> traced B) : traced B :=
  match m with
  | (l, Ret a) => let (l', r) := k a in (l ++ l', r)
  | (l, Raise e) => (l, Raise e)
  end.

Definition lift {A : Type} (o : outcome A) : traced A := ([], o).

Definition eval (f : torch_fn) (x : tensor Qc) : traced (tensor Qc) :=
  ([CallPlain x], Ret (f Qc Scalar_Qc x)).

Definition eval_dual (f : torch_fn) (x : tensor dual) : traced (tensor dual) :=
  ([CallDual x], Ret (f dual Scalar_dual x)).

Declare Scope traced_scope.
Delimit Scope traced_scope with traced.
Notation "x <~ m ;; k" := (tbind m (fun x => k))
  (at level 61, m at next level, right associativity) : traced_scope.

(** [fwAD.make_dual(x, v)]: the tangent must have the shape of the
    primal. *)
Definition make_dual (x v : tensor Qc) : outcome (tensor dual) :=
  if list_eq_dec Nat.eq_dec (shape x) (shape v)
  then Ret (mkTensor (shape x) (combine (data x) (data v)))
  else Raise RuntimeError.

(** [fwAD.unpack_dual(t)]: primal and tangent. *)
Definition unpack_dual (t : tensor dual) : tensor Qc * tensor Qc :=
  (tmap fst t, tmap snd t).

Definition jvp (f : torch_fn) (x v : tensor Qc) (jvp_type : string) (eps : Qc)
  : traced (tensor Qc * tensor Qc) :=
  (if (jvp_type =? "forwardAD")%string then
     dual_input <~ lift (make_dual x v) ;;
     dual_output <~ eval_dual f dual_input ;;
     tret (unpack_dual dual_output)
   else if (jvp_type =? "forwardFD")%string then
     y <~ eval f x ;;
     x_plus <~ lift (tadd x (smul eps v)) ;;
     y_plus <~ eval f x_plus ;;
     diff <~ lift (tsub y_plus y) ;;
     tret (y, tdivs diff eps)
   else if (jvp_type =? "centralFD")%string then
     y <~ eval f x ;;
     x_plus <~ lift (tadd x (smul eps v)) ;;
     y_plus <~ eval f x_plus ;;
     x_minus <~ lift (tsub x (smul eps v)) ;;
     y_minus <~ eval f x_minus ;;
     diff <~ lift (tsub y_plus y_minus) ;;
     tret (y, tdivs diff (Qcmult (Qz 2) eps))
   else
     ([], Raise NotImplementedError))%traced.

(** [minimize_testfunctions.py]:
    [torch.sum(tensor**2, dim=-1, keepdim=True)]. *)
Definition sphere : torch_fn :=
  fun T _ t => sum_last_keepdim (tpow t 2).

(* ================================================================== *)
(** ** [wrapper.py]: the custom-gradient node *)

(** A tensor as autograd sees it: its value and, when it is attached to
    a graph that reaches the input [x], the function that maps an
    upstream gradient to the gradient with respect to [x].  A tensor
    with no such graph (the output of an external solver, a detached
    tensor) has none. *)
Record gtensor : Type := mkG {
  value : tensor Qc;
  grad_fn : option (tensor Qc -> outcome (tensor Qc))
}.

(** [t.detach()]. *)
Definition detach (t : gtensor) : gtensor := mkG (value t) None.

(** [torch.autograd.grad(t, x, grad_outputs=g, retain_graph=True)[0]]. *)
Definition grad (t : gtensor) (g : tensor Qc) : outcome (tensor Qc) :=
  match grad_fn t with
  | Some vjp => vjp g
  | None => Raise RuntimeError
  end.

(** The dictionary [d] handed to [forward]. *)
Record estimator_context : Type := mkD {
  d_y : gtensor;
  d_dvf : tensor Qc;
  d_y_hat : gtensor;
  d_dvf_hat : tensor Qc;
  d_v : tensor Qc;
  d_v_scale : Qc;
  d_Nv : nat;
  d_grad_type : string
}.

(** The autograd context [ctx] after [forward]. *)
Record ctx_t : Type := mkCtx {
  ctx_d : estimator_context;
  saved_tensors : tensor Qc * tensor Qc
}.

Module register_custom_grad_fn.

Definition forward (x : tensor Qc) (d : estimator_context) : ctx_t * gtensor :=
  (mkCtx d (x, d_v d), detach (d_y d)).

(** Lines 73-74 and 80-81: the forward gradient built from a
    directional derivative [dv]. *)
Definition fwd_grad (grad_y dv v : tensor Qc) (Nv bs in_dim : nat)
  : outcome (tensor Qc) :=
  gd <- tmul grad_y dv ;;
  s <- sum_dim1_keepdim gd ;;
  p <- tmul s v ;;
  r <- reshape p [Nv; bs; in_dim] ;;
  mean_dim0 r.

Definition backward (ctx : ctx_t) (grad_y : tensor Qc)
  : outcome (tensor Qc * option (tensor Qc)) :=
  let '(x, v) := saved_tensors ctx in
  let d := ctx_d ctx in
  let v := tscale v (d_v_scale d) in
  match shape x with
  | [bs; in_dim] =>
      if (d_grad_type d =? "f_true")%string then
        let f_true :=
          match grad (d_y d) grad_y with
          | Ret g => g
          | Raise _ => zeros_like x
          end in
        Ret (f_true, None)
      else
        f_fwd <- fwd_grad grad_y (d_dvf d) v (d_Nv d) bs in_dim ;;
        if (d_grad_type d =? "f_fwd")%string then Ret (f_fwd, None)
        else
          f_hat_fwd <- fwd_grad grad_y (d_dvf_hat d) v (d_Nv d) bs in_dim ;;
          g_hat <- grad (d_y_hat d) grad_y ;;
          let f_hat_true := tdivs g_hat (Qn (d_Nv d)) in
          if (d_grad_type d =? "f_hat_true")%string then Ret (f_hat_true, None)
          else if (d_grad_type d =? "cv_fwd")%string then
            inner <- tsub f_hat_fwd f_hat_true ;;
            cv_fwd <- tsub f_fwd inner ;;
            Ret (cv_fwd, None)
          else Raise NotImplementedError
  | _ => Raise ValueError
  end.

End register_custom_grad_fn.

(* ================================================================== *)
(** ** [tasks.py]: sparse and dense linear-system tasks *)

(** A Python object that this module only passes around (an instance of
    [TaskParams] or of a subclass, the [problem] placeholder). *)
Inductive py_object : Type := PyObject (id : nat).

Definition TaskParams : Type := py_object.

(** The floating-point types a tensor built from a Python float can
    have; [torch.tensor(<float>)] takes the process-wide default. *)
Inductive dtype : Type := float32 | float64.

(** Nearest integer, ties to even, of a positive fraction [n / d]. *)
Definition round_half_even (n d : Z) : Z :=
  let q := (n / d)%Z in
  let r := (n mod d)%Z in
  match (2 * r ?= d)%Z with
  | Lt => q
  | Gt => (q + 1)%Z
  | Eq => if Z.even q then q else (q + 1)%Z
  end.

(** [2 ^ e] for any integer [e]. *)
Definition Qc_pow2 (e : Z) : Qc :=
  match e with
  | Z0 => Qz 1
  | Zpos p => Qz (2 ^ Zpos p)
  | Zneg p => Qcinv (Qz (2 ^ Zpos p))
  end.

(** The exponent [e] with [2 ^ e <= n / d < 2 ^ (e + 1)], for positive
    [n] and [d]. *)
Definition floor_log2 (n d : Z) : Z :=
  let e := (Z.log2 n - Z.log2 d)%Z in
  let below :=
    if (0 <=? e)%Z then (n <? d * 2 ^ e)%Z else (n * 2 ^ (- e) <? d)%Z in
  if below then (e - 1)%Z else e.

(** Round a positive fraction to [prec] significant bits, with the
    least exponent [emin] of the format (below it the spacing stays
    [2 ^ (emin - prec + 1)]: subnormal numbers). *)
Definition round_pos (prec emin : Z) (n d : Z) : Qc :=
  let e := Z.max (floor_log2 n d) emin in
  let sh := (prec - 1 - e)%Z in
  let m :=
    if (0 <=? sh)%Z then round_half_even (n * 2 ^ sh) d
    else round_half_even n (d * 2 ^ (- sh)) in
  Qcmult (Qz m) (Qc_pow2 (- sh)).

(** Rounding to the nearest number of a binary format, ties to even.
    The format has no largest number here: a value too large for it,
    which IEEE arithmetic turns into an infinity, is outside this
    model. *)
Definition round_binary (prec emin : Z) (q : Qc) : Qc :=
  match Qnum (this q) with
  | Z0 => q
  | Zpos n => round_pos prec emin (Zpos n) (Zpos (Qden (this q)))
  | Zneg n => Qcopp (round_pos prec emin (Zpos n) (Zpos (Qden (this q))))
  end.

(** IEEE binary32 (24 significant bits, least exponent -126) and
    binary64 (53 significant bits, least exponent -1022). *)
Definition round_binary32 (q : Qc) : Qc := round_binary 24 (-126) q.
Definition round_binary64 (q : Qc) : Qc := round_binary 53 (-1022) q.

(** The value a Python float keeps when it becomes a tensor entry of
    dtype [dt]. *)
Definition cast_float (dt : dtype) (q : Qc) : Qc :=
  match dt with
  | float64 => q
  | float32 => round_binary32 q
  end.

(** The Python floats that become a finite tensor entry of dtype [dt]:
    all of them under [float64]; under [float32] those below
    [2^128 - 2^103] in absolute value, from where on binary32 rounds to
    an infinity. *)
Definition castable (dt : dtype) (q : Qc) : Prop :=
  match dt with
  | float64 => True
  | float32 => (Qabs (this q) < inject_Z (2 ^ 128 - 2 ^ 103))%Q
  end.

(** [torch.tensor(<python float>)]: a 0-d tensor of the default dtype. *)
Definition tensor_of_float (default_dtype : dtype) (r : Qc) : tensor Qc :=
  mkTensor [] [cast_float default_dtype r].

(** [torch.tensor(<python int>)]: a 0-d int64 tensor. *)
Definition tensor_of_int (z : Z) : outcome (tensor Qc) :=
  if ((- 2 ^ 63 <=? z) && (z <? 2 ^ 63))%Z then Ret (mkTensor [] [Qz z])
  else Raise RuntimeError.

(** [torch.tensor(<1-d numpy array>)]. *)
Definition tensor_of_array (a : list Qc) : tensor Qc :=
  mkTensor [length a] a.

(** [float(t)] and [int(t)]: only for a tensor with one entry. *)
Definition float_of_tensor (t : tensor Qc) : outcome Qc :=
  match data t with
  | [u] => Ret u
  | _ => Raise ValueError
  end.

Definition Qc_trunc (q : Qc) : Z :=
  Z.quot (Qnum (this q)) (Zpos (Qden (this q))).

Definition int_of_tensor (t : tensor Qc) : outcome Z :=
  match data t with
  | [u] => Ret (Qc_trunc u)
  | _ => Raise ValueError
  end.

Definition Qc_eqb (a b : Qc) : bool := Qc_eq_bool a b.

Fixpoint list_eqb {T : Type} (eqb : T -> T -> bool) (l1 l2 : list T) : bool :=
  match l1, l2 with
  | [], [] => true
  | a :: l1', c :: l2' => eqb a c && list_eqb eqb l1' l2'
  | _, _ => false
  end.

(** [torch.equal(a, b)] on two tensors: same shape, same entries.  The
    entries of the model are rational numbers: a NaN, which
    [torch.equal] finds different from itself, is outside it. *)
Definition tensor_equal (a c : tensor Qc) : bool :=
  list_eqb Nat.eqb (shape a) (shape c) && list_eqb Qc_eqb (data a) (data c).

(** [torch.equal] as Python calls it: an argument that is [None] is a
    type error. *)
Definition torch_equal (a c : option (tensor Qc)) : outcome bool :=
  match a, c with
  | Some ta, Some tc => Ret (tensor_equal ta tc)
  | _, _ => Raise TypeError
  end.

(** Python's [a and b], [a or b]: the right operand is evaluated only
    when the left one does not decide. *)
Definition py_and (a c : outcome bool) : outcome bool :=
  u <- a ;; if u then c else Ret false.
Definition py_or (a c : outcome bool) : outcome bool :=
  u <- a ;; if u then Ret true else c.

Definition is_None {T : Type} (o : option T) : bool :=
  match o with
  | None => true
  | Some _ => false
  end.

Module PETSc.

(** An assembled AIJ matrix: its size and its compressed-sparse-row
    arrays, which are what [getValuesCSR] returns and [equal] compares. *)
Record Mat : Type := mkMat {
  getSize : nat * nat;
  indptr : list nat;
  indices : list nat;
  values : list Qc
}.

Definition getValuesCSR (m : Mat) : list nat * list nat * list Qc :=
  (indptr m, indices m, values m).

(** A sequential vector: its entries. *)
Definition Vec : Type := list Qc.

(** [A.equal(B)]: PETSc compares two matrices of the same size, on
    their stored arrays.  For two sizes that differ it fails with error
    60 (nonconforming object sizes), which petsc4py raises as
    [PETSc.Error], a subclass of [RuntimeError]. *)
Definition Mat_equal (m1 m2 : Mat) : outcome bool :=
  if (fst (getSize m1) =? fst (getSize m2))
     && (snd (getSize m1) =? snd (getSize m2))
  then Ret (list_eqb Nat.eqb (indptr m1) (indptr m2)
            && list_eqb Nat.eqb (indices m1) (indices m2)
            && list_eqb Qc_eqb (values m1) (values m2))
  else Raise RuntimeError.

Definition Vec_equal (v1 v2 : Vec) : bool := list_eqb Qc_eqb v1 v2.

End PETSc.

(** The Python floats [1e-8] and [1e-5], numpy's default [atol] and
    [rtol]: the binary64 numbers nearest to the decimal fractions. *)
Definition py_1e_8 : Qc := round_binary64 (Q2Qc (1 # 100000000)).
Definition py_1e_5 : Qc := round_binary64 (Q2Qc (1 # 100000)).

(** [np.isclose(a, b)] on two Python floats, with the default
    tolerances: [abs(a - b) <= atol + rtol * abs(b)], computed in
    binary64, every operation rounded.  Infinities and NaN are outside
    this model. *)
Definition np_isclose (a c : Qc) : bool :=
  Qle_bool
    (Qabs (this (round_binary64 (Qcminus a c))))
    (this (round_binary64
             (Qcplus py_1e_8
                (round_binary64 (Qcmult py_1e_5 (Q2Qc (Qabs (this c)))))))).

Module PyTorchLinearSystemTask.

Record t : Type := mk {
  params : option TaskParams;
  A : tensor Qc;
  b : tensor Qc;
  x : option (tensor Qc);
  rtol : tensor Qc;
  maxiter : tensor Qc
}.

Definition __eq__ (self other : t) : outcome bool :=
  py_and (torch_equal (Some (A self)) (Some (A other)))
    (py_and (torch_equal (Some (b self)) (Some (b other)))
       (py_and (py_or (Ret (is_None (x self) && is_None (x other)))
                      (torch_equal (x self) (x other)))
          (py_and (torch_equal (Some (rtol self)) (Some (rtol other)))
                  (torch_equal (Some (maxiter self)) (Some (maxiter other)))))).

End PyTorchLinearSystemTask.

Module PETScLinearSystemTask.

Record t : Type := mk {
  params : option TaskParams;
  A : PETSc.Mat;
  b : PETSc.Vec;
  x : option PETSc.Vec;
  rtol : Qc;
  maxiter : Z;
  problem : option py_object
}.

(** [self.x.equal(other.x)]: [None] has no method [equal]; a vector's
    [equal] does not accept [None]. *)
Definition x_equal (sx ox : option PETSc.Vec) : outcome bool :=
  match sx, ox with
  | Some v1, Some v2 => Ret (PETSc.Vec_equal v1 v2)
  | None, _ => Raise AttributeError
  | Some _, None => Raise TypeError
  end.

Definition __eq__ (self other : t) : outcome bool :=
  py_and (PETSc.Mat_equal (A self) (A other))
    (py_and (Ret (PETSc.Vec_equal (b self) (b other)))
       (py_and (py_or (Ret (is_None (x self) && is_None (x other)))
                      (x_equal (x self) (x other)))
          (py_and (Ret (np_isclose (rtol self) (rtol other)))
                  (Ret (maxiter self =? maxiter other)%Z)))).

End PETScLinearSystemTask.

(** *** Dense and compressed-sparse-row matrices *)

(** A torch tensor in the sparse CSR layout. *)
Record csr_tensor : Type := mkCsr {
  csr_shape : nat * nat;
  crow_indices : list nat;
  col_indices : list nat;
  csr_values : list Qc
}.

Definition sparse_csr_tensor (row_idx col_idx : list nat) (vals : list Qc)
    (size : nat * nat) : csr_tensor :=
  mkCsr size row_idx col_idx vals.

Definition slice {T : Type} (lo hi : nat) (l : list T) : list T :=
  firstn (hi - lo) (skipn lo l).

(** Entry [j] of a sparse row given by its column indices and values. *)
Definition row_get (cols : list nat) (vals : list Qc) (j : nat) : Qc :=
  Qcsum (map snd (filter (fun p => fst p =? j) (combine cols vals))).

(** [t.to_dense()] of a CSR tensor. *)
Definition to_dense (t : csr_tensor) : tensor Qc :=
  let (m, n) := csr_shape t in
  mkTensor [m; n]
    (flat_map
       (fun i =>
          let lo := nth i (crow_indices t) 0 in
          let hi := nth (S i) (crow_indices t) 0 in
          map (row_get (slice lo hi (col_indices t)) (slice lo hi (csr_values t)))
              (seq 0 n))
       (seq 0 m)).

(** The stored entries of a dense row: column and value of every entry
    that is not zero. *)
Definition row_nonzeros (n : nat) (row : list Qc) : list (nat * Qc) :=
  filter (fun p => negb (Qc_eqb (snd p) (Qz 0))) (combine (seq 0 n) row).

(** Row pointers: where each row starts, and the end of the last. *)
Fixpoint offsets (start : nat) (lens : list nat) : list nat :=
  match lens with
  | [] => [start]
  | k :: lens' => start :: offsets (start + k) lens'
  end.

(** [t.to_sparse_csr()] of a dense matrix, as [torch2petsc] uses it.
    A 0-d tensor has no row axis ([IndexError]); a 1-d tensor is
    refused ([RuntimeError]); a tensor with more than two axes converts
    to a batched CSR tensor, whose size of more than two entries
    [createAIJ], the next call of [torch2petsc], refuses with
    [TypeError]: nothing else happens in between, so that failure is
    recorded here. *)
Definition to_sparse_csr (t : tensor Qc) : outcome csr_tensor :=
  match shape t with
  | [m; n] =>
      let rows := map (fun i => row_nonzeros n (chunk n i (data t))) (seq 0 m) in
      Ret (mkCsr (m, n)
             (offsets 0 (map (@length (nat * Qc)) rows))
             (flat_map (map fst) rows)
             (flat_map (map snd) rows))
  | [] => Raise IndexError
  | [_] => Raise RuntimeError
  | _ => Raise TypeError
  end.

(** [a.astype("int32")] on an array of indices: two's-complement
    wrap-around.  An index that wraps to a negative number is outside
    this model. *)
Definition wrap_int32 (z : Z) : Z :=
  ((z + 2147483648) mod 4294967296 - 2147483648)%Z.

Definition astype_int32 (l : list nat) : list nat :=
  map (fun k => Z.to_nat (wrap_int32 (Z.of_nat k))) l.

(** *** The two conversions *)

Definition petsc2torch (default_dtype : dtype) (task : PETScLinearSystemTask.t)
  : outcome PyTorchLinearSystemTask.t :=
  let size := PETSc.getSize (PETScLinearSystemTask.A task) in
  let '(row_idx, col_idx, vals) :=
    PETSc.getValuesCSR (PETScLinearSystemTask.A task) in
  let A := to_dense (sparse_csr_tensor row_idx col_idx vals size) in
  maxiter <- tensor_of_int (PETScLinearSystemTask.maxiter task) ;;
  Ret (PyTorchLinearSystemTask.mk
         (PETScLinearSystemTask.params task)
         A
         (tensor_of_array (PETScLinearSystemTask.b task))
         (match PETScLinearSystemTask.x task with
          | Some gt => Some (tensor_of_array gt)
          | None => None
          end)
         (tensor_of_float default_dtype (PETScLinearSystemTask.rtol task))
         maxiter).

Definition torch2petsc (task : PyTorchLinearSystemTask.t)
  : outcome PETScLinearSystemTask.t :=
  A_sp <- to_sparse_csr (PyTorchLinearSystemTask.A task) ;;
  let A := PETSc.mkMat (csr_shape A_sp)
             (astype_int32 (crow_indices A_sp))
             (astype_int32 (col_indices A_sp))
             (csr_values A_sp) in
  let b := data (PyTorchLinearSystemTask.b task) in
  let x := match PyTorchLinearSystemTask.x task with
           | Some gt => Some (data gt)
           | None => None
           end in
  rtol <- float_of_tensor (PyTorchLinearSystemTask.rtol task) ;;
  maxiter <- int_of_tensor (PyTorchLinearSystemTask.maxiter task) ;;
  Ret (PETScLinearSystemTask.mk None A b x rtol maxiter None).

(** The dense matrix an assembled sparse matrix stands for. *)
Definition Mat_dense (m : PETSc.Mat) : tensor Qc :=
  to_dense (sparse_csr_tensor (PETSc.indptr m) (PETSc.indices m)
              (PETSc.values m) (PETSc.getSize m)).

(* ================================================================== *)
(** ** Auxiliary definitions used to state the properties *)

(** The same dictionary with another [grad_type]. *)
Definition with_grad_type (d : estimator_context) (gt : string)
  : estimator_context :=
  mkD (d_y d) (d_dvf d) (d_y_hat d) (d_dvf_hat d) (d_v d) (d_v_scale d)
      (d_Nv d) gt.


(** A tensor of small natural numbers. *)
Definition tnat (s : list nat) (l : list nat) : tensor Qc :=
  mkTensor s (map Qn l).

(** Entry [i] of a tensor. *)
Definition entry (t : tensor Qc) (i : nat) : Qc := nth i (data t) (Qz 0).

(** *** Sample inputs *)

(** Two probe replicas of a batch of two samples in dimension three;
    the base solver's output has no graph, the surrogate's has one. *)
Definition sample_x : tensor Qc := tnat [2; 3] [0; 0; 0; 0; 0; 0].
Definition sample_grad_y : tensor Qc := tnat [4; 1] [1; 1; 1; 1].
Definition sample_d (gt : string) : estimator_context :=
  mkD (mkG (tnat [4; 1] [1; 2; 3; 4]) None)
      (tnat [4; 1] [1; 2; 3; 4])
      (mkG (tnat [4; 1] [1; 2; 3; 4])
           (Some (fun _ => Ret (tnat [2; 3] [6; 6; 6; 6; 6; 6]))))
      (tnat [4; 1] [1; 1; 1; 1])
      (tnat [4; 3] [1; 2; 3; 4; 5; 6; 7; 8; 9; 10; 11; 12])
      (Qz 2) 2 gt.
Definition sample_ctx (gt : string) : ctx_t :=
  fst (register_custom_grad_fn.forward sample_x (sample_d gt)).

(** The same, with a surrogate output that autograd cannot
    differentiate. *)
Definition broken_d (gt : string) : estimator_context :=
  mkD (d_y (sample_d gt)) (d_dvf (sample_d gt))
      (mkG (tnat [4; 1] [1; 2; 3; 4]) None)
      (d_dvf_hat (sample_d gt)) (d_v (sample_d gt)) (Qz 2) 2 gt.
Definition broken_ctx (gt : string) : ctx_t :=
  fst (register_custom_grad_fn.forward sample_x (broken_d gt)).

(** The Python float [1.0e-6]: the binary64 number nearest to one
    millionth. *)
Definition py_1e_6 : Qc := Q2Qc (4722366482869645 # 4722366482869645213696).

(** The tasks of [tests/modules/test_tasks.py]. *)
Definition diag_Mat : PETSc.Mat :=
  PETSc.mkMat (3, 3) [0; 1; 2; 3] [0; 1; 2] [Qz 1; Qz 2; Qz 3].
Definition petsc_task : PETScLinearSystemTask.t :=
  PETScLinearSystemTask.mk None diag_Mat [Qz 1; Qz 2; Qz 3] None
    py_1e_6 100 None.
Definition torch_task : PyTorchLinearSystemTask.t :=
  PyTorchLinearSystemTask.mk None
    (tnat [3; 3] [1; 0; 0; 0; 2; 0; 0; 0; 3])
    (tnat [3] [1; 2; 3]) None
    (tensor_of_float float32 py_1e_6) (tnat [] [100]).

(** The same tasks with a ground truth. *)
Definition petsc_task_gt : PETScLinearSystemTask.t :=
  PETScLinearSystemTask.mk None diag_Mat [Qz 1; Qz 2; Qz 3]
    (Some [Qz 1; Qz 1; Qz 1]) py_1e_6 100 None.
Definition torch_task_gt : PyTorchLinearSystemTask.t :=
  PyTorchLinearSystemTask.mk None
    (tnat [3; 3] [1; 0; 0; 0; 2; 0; 0; 0; 3])
    (tnat [3] [1; 2; 3]) (Some (tnat [3] [1; 1; 1]))
    (tensor_of_float float32 py_1e_6) (tnat [] [100]).

(** A dense task that carries generation parameters. *)
Definition torch_task_params : PyTorchLinearSystemTask.t :=
  PyTorchLinearSystemTask.mk (Some (PyObject 1))
    (tnat [3; 3] [1; 0; 0; 0; 2; 0; 0; 0; 3])
    (tnat [3] [1; 2; 3]) None
    (tensor_of_float float32 py_1e_6) (tnat [] [100]).
Definition petsc_task_params : PETScLinearSystemTask.t :=
  PETScLinearSystemTask.mk (Some (PyObject 1)) diag_Mat [Qz 1; Qz 2; Qz 3] None
    py_1e_6 100 None.

(** [f] applied to the entries of two lists, pair by pair. *)
Definition map2 {T : Type} (f : T -> T -> T) (a c : list T) : list T :=
  map (fun p => f (fst p) (snd p)) (combine a c).

(** [x + c * v] and [x - c * v], entry by entry. *)
Definition shifted (x v : tensor Qc) (c : Qc) : tensor Qc :=
  mkTensor (shape x)
    (map2 (fun a w => Qcplus a (Qcmult c w)) (data x) (data v)).
Definition shifted_back (x v : tensor Qc) (c : Qc) : tensor Qc :=
  mkTensor (shape x)
    (map2 (fun a w => Qcminus a (Qcmult c w)) (data x) (data v)).

(** [(p - q) / c], entry by entry. *)
Definition difference_quotient (p q : tensor Qc) (c : Qc) : tensor Qc :=
  mkTensor (shape p)
    (map2 (fun a w => Qcdiv (Qcminus a w) c) (data p) (data q)).

(** The point and direction of the scenario of the specification. *)
Definition x_34 : tensor Qc := tnat [1; 2] [3; 4].
Definition v_10 : tensor Qc := tnat [1; 2] [1; 0].

(** The dot product of two rows. *)
Definition dot (a c : list Qc) : Qc := Qcsum (map2 Qcmult a c).

(** What [fwAD.make_dual(x, v)] holds. *)
Definition dual_of (x v : tensor Qc) : tensor dual :=
  mkTensor (shape x) (combine (data x) (data v)).

(** The upstream gradient dotted with a directional derivative, for
    row [i] of the replicated batch; both have [C] columns. *)
Definition upstream_dot (grad_y dv : tensor Qc) (C i : nat) : Qc :=
  dot (chunk C i (data grad_y)) (chunk C i (data dv)).

(** Entry [(b, j)] of the forward gradient: the mean, over the [Nv]
    replicas [k * bs + b] of sample [b], of the upstream dot product
    times the scaled probe direction. *)
Definition fwd_grad_entry (grad_y dv v : tensor Qc) (v_scale : Qc)
    (C D Nv bs b j : nat) : Qc :=
  Qcdiv
    (Qcsum
       (map (fun k =>
               Qcmult (upstream_dot grad_y dv C (k * bs + b))
                      (Qcmult (entry v ((k * bs + b) * D + j)) v_scale))
            (seq 0 Nv)))
    (Qn Nv).


(** The value stored for column [j] in a list of (column, value)
    pairs. *)
Definition pick (l : list (nat * Qc)) (j : nat) : Qc :=
  Qcsum (map snd (filter (fun p => fst p =? j) l)).

(** A Python int that fits in an int64 tensor. *)
Definition fits_int64 (z : Z) : Prop :=
  (- 9223372036854775808 <= z < 9223372036854775808)%Z.

(** A matrix size whose row pointers and column indices fit in int32. *)
Definition fits_int32 (size : nat * nat) : Prop :=
  (Z.of_nat (fst size * snd size) < 2147483648)%Z.

(** The sparse tasks the conversion is defined on. *)
Definition sparse_task_ok (T : PETScLinearSystemTask.t) : Prop :=
  fits_int64 (PETScLinearSystemTask.maxiter T)
  /\ fits_int32 (PETSc.getSize (PETScLinearSystemTask.A T)).

(** A 1-d tensor. *)
Definition is_vector (t : tensor Qc) : Prop := shape t = [length (data t)].

(** The dense tasks [petsc2torch] produces: a matrix small enough for
    int32 indices, vectors, a 0-d [rtol] that is a finite number of the
    default dtype [dt], a 0-d integer [maxiter]. *)
Definition dense_task_ok (dt : dtype) (D : PyTorchLinearSystemTask.t) : Prop :=
  (exists m n, shape (PyTorchLinearSystemTask.A D) = [m; n]
               /\ wf (PyTorchLinearSystemTask.A D)
               /\ fits_int32 (m, n))
  /\ is_vector (PyTorchLinearSystemTask.b D)
  /\ (forall gt, PyTorchLinearSystemTask.x D = Some gt -> is_vector gt)
  /\ (exists r, PyTorchLinearSystemTask.rtol D = mkTensor [] [r]
                /\ castable dt r /\ cast_float dt r = r)
  /\ (exists z, PyTorchLinearSystemTask.maxiter D = mkTensor [] [Qz z]
                /\ fits_int64 z).

(** Two sparse tasks with the same matrix entries, vectors and
    iteration cap. *)
Definition sparse_payload_eq (T1 T2 : PETScLinearSystemTask.t) : Prop :=
  PETSc.getSize (PETScLinearSystemTask.A T1)
  = PETSc.getSize (PETScLinearSystemTask.A T2)
  /\ Mat_dense (PETScLinearSystemTask.A T1)
     = Mat_dense (PETScLinearSystemTask.A T2)
  /\ PETScLinearSystemTask.b T1 = PETScLinearSystemTask.b T2
  /\ PETScLinearSystemTask.x T1 = PETScLinearSystemTask.x T2
  /\ PETScLinearSystemTask.maxiter T1 = PETScLinearSystemTask.maxiter T2.

(** Two dense tasks with the same numeric fields. *)
Definition dense_payload_eq (D1 D2 : PyTorchLinearSystemTask.t) : Prop :=
  PyTorchLinearSystemTask.A D1 = PyTorchLinearSystemTask.A D2
  /\ PyTorchLinearSystemTask.b D1 = PyTorchLinearSystemTask.b D2
  /\ PyTorchLinearSystemTask.x D1 = PyTorchLinearSystemTask.x D2
  /\ PyTorchLinearSystemTask.rtol D1 = PyTorchLinearSystemTask.rtol D2
  /\ PyTorchLinearSystemTask.maxiter D1 = PyTorchLinearSystemTask.maxiter D2.

(** *** Further inputs *)

(** The sparse task of the tests with another tolerance. *)
Definition tol_task (r : Qc) : PETScLinearSystemTask.t :=
  PETScLinearSystemTask.mk None diag_Mat [Qz 1; Qz 2; Qz 3] None r 100 None.

(** The same matrix as [diag_Mat] with one more stored entry, a zero at
    row 0, column 1. *)
Definition diag_Mat_stored_zero : PETSc.Mat :=
  PETSc.mkMat (3, 3) [0; 2; 3; 4] [0; 1; 1; 2] [Qz 1; Qz 0; Qz 2; Qz 3].
Definition petsc_task_stored_zero : PETScLinearSystemTask.t :=
  PETScLinearSystemTask.mk None diag_Mat_stored_zero [Qz 1; Qz 2; Qz 3] None
    py_1e_6 100 None.

(** The decimal fraction [1e-8]; numpy's absolute tolerance, the Python
    float [1e-8], lies just above it. *)
Definition np_atol : Qc := Q2Qc (1 # 100000000).

(** A non-negative number of a binary format: a significand below
    [2 ^ prec] times a power of two not below the least one. *)
Definition representable (prec emin : Z) (t : Q) : Prop :=
  exists M k : Z,
    (0 <= M < 2 ^ prec)%Z /\ (emin - prec + 1 <= k)%Z
    /\ (t == inject_Z M * 2 ^ k)%Q.

(** A stored row of a sparse matrix in canonical form: column indices
    strictly increasing within [lo, hi), no stored zero. *)
Fixpoint row_ok (lo hi : nat) (row : list (nat * Qc)) : Prop :=
  match row with
  | [] => True
  | (c, u) :: row' => lo <= c < hi /\ u <> Qz 0 /\ row_ok (S c) hi row'
  end.

(** The CSR arrays of [m] are those of the given rows of (column, value)
    pairs. *)
Definition stores_rows (m : PETSc.Mat) (rows : list (list (nat * Qc))) : Prop :=
  fst (PETSc.getSize m) = length rows
  /\ PETSc.indptr m = offsets 0 (map (@length (nat * Qc)) rows)
  /\ PETSc.indices m = flat_map (map fst) rows
  /\ PETSc.values m = flat_map (map snd) rows.

(** An assembled matrix without stored zeros: valid CSR arrays, sorted
    distinct columns in every row, every stored value non-zero. *)
Definition canonical (m : PETSc.Mat) : Prop :=
  exists rows, stores_rows m rows
               /\ Forall (row_ok 0 (snd (PETSc.getSize m))) rows.

(* ================================================================== *)
(** ** [minimize_testfunctions.py]: the Rosenbrock test functions *)

(** A bound of a Python slice on a sequence of length [d]: a negative
    bound counts from the end, and the result is clipped to the
    sequence. *)
Definition slice_bound (d : nat) (i : Z) : nat :=
  Z.to_nat
    (Z.max 0
       (Z.min (Z.of_nat d) (if (i <? 0)%Z then i + Z.of_nat d else i)%Z)).

(** Every [step]-th entry, after skipping [skip] entries. *)
Fixpoint every {T : Type} (step skip : nat) (l : list T) : list T :=
  match l with
  | [] => []
  | u :: r =>
      match skip with
      | O => u :: every step (step - 1) r
      | S k => every step k r
      end
  end.

(** [l[start:stop:step]] for a positive [step]; [None] is an omitted
    bound. *)
Definition py_slice {T : Type} (start stop : option Z) (step : nat)
    (l : list T) : list T :=
  let d := length l in
  let lo := match start with Some i => slice_bound d i | None => 0 end in
  let hi := match stop with Some i => slice_bound d i | None => d end in
  every step 0 (firstn (hi - lo) (skipn lo l)).

(** [t[..., start:stop:step]]: the slice of every row along the last
    axis; a tensor without axes cannot be indexed. *)
Definition slice_last {T : Type} (start stop : option Z) (step : nat)
    (t : tensor T) : outcome (tensor T) :=
  match rev (shape t) with
  | [] => Raise IndexError
  | d :: outer =>
      Ret (mkTensor
             (rev outer ++ [length (py_slice start stop step (seq 0 d))])
             (flat_map (fun i => py_slice start stop step (chunk d i (data t)))
                (seq 0 (numel outer))))
  end.

(** [c - t] for a Python number [c]. *)
Definition rsub (c : Qc) (t : tensor Qc) : tensor Qc :=
  tmap (fun u => Qcminus c u) t.

(** [torch.sum(100 * (x2 - x1**2) ** 2 + (1 - x1) ** 2, dim=-1,
    keepdim=True)] with [x1 = x[..., :-1]] and [x2 = x[..., 1:]]. *)
Definition rosenbrock (x : tensor Qc) : outcome (tensor Qc) :=
  x1 <- slice_last None (Some (-1)%Z) 1 x ;;
  x2 <- slice_last (Some 1%Z) None 1 x ;;
  a <- tsub x2 (tpow x1 2) ;;
  s <- tadd (smul (Qz 100) (tpow a 2)) (tpow (rsub (Qz 1) x1) 2) ;;
  Ret (sum_last_keepdim s).

(** The outcome of a function that starts with an [assert]: the
    assertion fails, or the body runs. *)
Inductive checked (A : Type) : Type :=
| AssertionError
| Checked (o : outcome A).
Arguments AssertionError {A}.
Arguments Checked {A} o.

(** [x.shape[-1]] is read first ([IndexError] on a tensor without
    axes), then the assertion "Dimension must be even." is checked;
    [x1 = x[..., ::2]] and [x2 = x[..., 1::2]]. *)
Definition rosenbrock_separate (x : tensor Qc) : checked (tensor Qc) :=
  match rev (shape x) with
  | [] => Checked (Raise IndexError)
  | d :: _ =>
      if d mod 2 =? 0 then
        Checked
          (x1 <- slice_last None None 2 x ;;
           x2 <- slice_last (Some 1%Z) None 2 x ;;
           a <- tsub x2 (tpow x1 2) ;;
           s <- tadd (tpow (rsub (Qz 1) x1) 2) (smul (Qz 100) (tpow a 2)) ;;
           Ret (sum_last_keepdim s))
      else AssertionError
  end.

(** One term of the Rosenbrock sum, for neighbours [a] and [b]. *)
Definition rosenbrock_term (a b : Qc) : Qc :=
  Qcplus (Qcmult (Qz 100) (Qcpower (Qcminus b (Qcpower a 2)) 2))
         (Qcpower (Qcminus (Qz 1) a) 2).

(** Row [b] of a matrix with [D] columns. *)
Definition row (x : tensor Qc) (D b : nat) : list Qc := chunk D b (data x).

(** All entries are 1. *)
Definition all_ones (l : list Qc) : Prop := Forall (fun u => u = Qz 1) l.

(** The sparse task of the tests with a matrix of another size: the
    same stored entries, in three rows and four columns. *)
Definition wide_Mat : PETSc.Mat :=
  PETSc.mkMat (3, 4) [0; 1; 2; 3] [0; 1; 2] [Qz 1; Qz 2; Qz 3].
Definition petsc_task_wide : PETScLinearSystemTask.t :=
  PETScLinearSystemTask.mk None wide_Mat [Qz 1; Qz 2; Qz 3] None
    py_1e_6 100 None.

(** A dense task whose right-hand side is a column, a tensor of shape
    [3, 1], and that carries generation parameters. *)
Definition torch_task_column : PyTorchLinearSystemTask.t :=
  PyTorchLinearSystemTask.mk (Some (PyObject 1))
    (tnat [3; 3] [1; 0; 0; 0; 2; 0; 0; 0; 3])
    (tnat [3; 1] [1; 2; 3]) None
    (tensor_of_float float32 py_1e_6) (tnat [] [100]).

(* ================================================================== *)
(** * Properties *)

(** ** Equality of rationals and tensors *)

Lemma Qc_ext (a c : Qc) : this a = this c -> a = c.
Proof.
  intro E. apply Qc_is_canon. rewrite E. reflexivity.
Qed.

(** ** Strings *)

Lemma eqb_neq (s1 s2 : string) : s1 <> s2 -> (s1 =? s2)%string = false.
Proof. intro N. now apply String.eqb_neq. Qed.

(** ** The forward value *)

(** C8. [forward] returns the base solver's output [y] detached: the
    same entries and shape, no autograd graph; and the returned value
    does not depend on [grad_type]. *)
Theorem forward_returns_detached_y :
  forall (x : tensor Qc) (d : estimator_context) (gt : string),
    let out := snd (register_custom_grad_fn.forward x d) in
    value out = value (d_y d)
    /\ grad_fn out = None
    /\ snd (register_custom_grad_fn.forward x (with_grad_type d gt)) = out.
Proof.
  intros x d gt. cbn. repeat split.
Qed.

(** ** Unsupported modes *)

(** [backward] after the dispatch on ["f_true"] has failed, with the
    saved tensors and the shape of [x] unpacked. *)
Lemma backward_not_f_true (ctx : ctx_t) (grad_y : tensor Qc) (bs in_dim : nat) :
  shape (fst (saved_tensors ctx)) = [bs; in_dim] ->
  d_grad_type (ctx_d ctx) <> "f_true"%string ->
  register_custom_grad_fn.backward ctx grad_y =
  let d := ctx_d ctx in
  let v := tscale (snd (saved_tensors ctx)) (d_v_scale d) in
  (f_fwd <- register_custom_grad_fn.fwd_grad grad_y (d_dvf d) v (d_Nv d) bs in_dim ;;
   if (d_grad_type d =? "f_fwd")%string then Ret (f_fwd, None)
   else
     f_hat_fwd <- register_custom_grad_fn.fwd_grad grad_y (d_dvf_hat d) v
                    (d_Nv d) bs in_dim ;;
     g_hat <- grad (d_y_hat d) grad_y ;;
     let f_hat_true := tdivs g_hat (Qn (d_Nv d)) in
     if (d_grad_type d =? "f_hat_true")%string then Ret (f_hat_true, None)
     else if (d_grad_type d =? "cv_fwd")%string then
       inner <- tsub f_hat_fwd f_hat_true ;;
       cv_fwd <- tsub f_fwd inner ;;
       Ret (cv_fwd, None)
     else Raise NotImplementedError).
Proof.
  intros Hs Hg. unfold register_custom_grad_fn.backward.
  destruct (saved_tensors ctx) as [x v]. simpl in Hs. rewrite Hs.
  rewrite (eqb_neq _ _ Hg). reflexivity.
Qed.




(** ** Failures of the exact gradients *)

Lemma zeros_like_spec (x : tensor Qc) :
  shape (zeros_like x) = shape x
  /\ wf (zeros_like x)
  /\ Forall (fun u => u = Qz 0) (data (zeros_like x)).
Proof.
  unfold zeros_like, wf; simpl. repeat split.
  - apply repeat_length.
  - apply Forall_forall. intros u Hu. now apply repeat_spec in Hu.
Qed.

(** C3, as the code has it.  Under ["f_true"] an exception of the exact
    gradient is caught and the gradient returned is zero, with the shape
    of [x].  The exact gradient of the surrogate, on the ["f_hat_true"]
    and ["cv_fwd"] paths, is computed without a handler: an exception it
    raises is what [backward] raises. *)
Theorem exact_gradient_failure_policy :
  forall (ctx : ctx_t) (grad_y : tensor Qc) (bs in_dim : nat) (e : exn),
    shape (fst (saved_tensors ctx)) = [bs; in_dim] ->
    (d_grad_type (ctx_d ctx) = "f_true"%string ->
     (exists g, register_custom_grad_fn.backward ctx grad_y = Ret (g, None))
     /\ (grad (d_y (ctx_d ctx)) grad_y = Raise e ->
         register_custom_grad_fn.backward ctx grad_y
         = Ret (zeros_like (fst (saved_tensors ctx)), None)))
    /\
    (d_grad_type (ctx_d ctx) = "f_hat_true"%string
     \/ d_grad_type (ctx_d ctx) = "cv_fwd"%string ->
     (exists a, register_custom_grad_fn.fwd_grad grad_y (d_dvf (ctx_d ctx))
                  (tscale (snd (saved_tensors ctx)) (d_v_scale (ctx_d ctx)))
                  (d_Nv (ctx_d ctx)) bs in_dim = Ret a) ->
     (exists c, register_custom_grad_fn.fwd_grad grad_y (d_dvf_hat (ctx_d ctx))
                  (tscale (snd (saved_tensors ctx)) (d_v_scale (ctx_d ctx)))
                  (d_Nv (ctx_d ctx)) bs in_dim = Ret c) ->
     grad (d_y_hat (ctx_d ctx)) grad_y = Raise e ->
     register_custom_grad_fn.backward ctx grad_y = Raise e).
Proof.
  intros ctx grad_y bs in_dim e Hs. split.
  - intros Hg. unfold register_custom_grad_fn.backward.
    destruct (saved_tensors ctx) as [x v]. simpl in *.
    rewrite Hs, Hg. simpl. split.
    + eexists. reflexivity.
    + now intros ->.
  - intros Hg [a Ha] [c Hc] He.
    rewrite (backward_not_f_true ctx grad_y bs in_dim Hs)
      by (destruct Hg as [-> | ->]; discriminate).
    cbv zeta. rewrite Ha. simpl.
    replace (d_grad_type (ctx_d ctx) =? "f_fwd")%string with false
      by (destruct Hg as [-> | ->]; reflexivity).
    rewrite Hc. simpl. now rewrite He.
Qed.

Lemma exact_gradient_failure_policy_witness :
  register_custom_grad_fn.backward (sample_ctx "f_true") sample_grad_y
  = Ret (zeros_like sample_x, None)
  /\ register_custom_grad_fn.backward (broken_ctx "cv_fwd") sample_grad_y
     = Raise RuntimeError.
Proof.
  split.
  - apply (proj2 (proj1 (exact_gradient_failure_policy (sample_ctx "f_true")
                             sample_grad_y 2 3 RuntimeError eq_refl)
                    eq_refl)).
    reflexivity.
  - apply (proj2 (exact_gradient_failure_policy (broken_ctx "cv_fwd")
                    sample_grad_y 2 3 RuntimeError eq_refl)).
    + now right.
    + eexists. vm_compute. reflexivity.
    + eexists. vm_compute. reflexivity.
    + reflexivity.
Defined.

(** C3 as the specification states it fails: with a surrogate output
    that autograd cannot differentiate, the exception of the exact
    surrogate gradient leaves [backward], under ["f_hat_true"] and under
    ["cv_fwd"]. *)
Lemma surrogate_gradient_failure_propagates :
  grad (d_y_hat (ctx_d (broken_ctx "f_hat_true"))) sample_grad_y
  = Raise RuntimeError
  /\ register_custom_grad_fn.backward (broken_ctx "f_hat_true") sample_grad_y
     = Raise RuntimeError
  /\ register_custom_grad_fn.backward (broken_ctx "cv_fwd") sample_grad_y
     = Raise RuntimeError.
Proof.
  repeat split; vm_compute; reflexivity.
Qed.

(** ** Task equality *)

(** C4, at the inputs where the code departs from it.  The two tasks
    agree on [A] and [b]; one has a ground truth, the other has none.
    The comparison does not return [False]: it raises. *)
Theorem eq_one_sided_ground_truth_raises :
  PyTorchLinearSystemTask.__eq__ torch_task_gt torch_task = Raise TypeError
  /\ PyTorchLinearSystemTask.__eq__ torch_task torch_task_gt = Raise TypeError
  /\ PETScLinearSystemTask.__eq__ petsc_task petsc_task_gt
     = Raise AttributeError
  /\ PETScLinearSystemTask.__eq__ petsc_task_gt petsc_task = Raise TypeError.
Proof.
  repeat split; vm_compute; reflexivity.
Qed.

(** ** What the conversions return *)

Lemma bind_ret_inv {A B : Type} (m : outcome A) (k : A -> outcome B) (r : B) :
  bind m k = Ret r -> exists a, m = Ret a /\ k a = Ret r.
Proof.
  destruct m as [a|e]; simpl; [|discriminate]. intro H. now exists a.
Qed.

Lemma torch2petsc_returns (task : PyTorchLinearSystemTask.t) (m n : nat)
    (r k : Qc) :
  shape (PyTorchLinearSystemTask.A task) = [m; n] ->
  data (PyTorchLinearSystemTask.rtol task) = [r] ->
  data (PyTorchLinearSystemTask.maxiter task) = [k] ->
  exists A_sp,
    to_sparse_csr (PyTorchLinearSystemTask.A task) = Ret A_sp
    /\ torch2petsc task
       = Ret (PETScLinearSystemTask.mk None
                (PETSc.mkMat (csr_shape A_sp)
                   (astype_int32 (crow_indices A_sp))
                   (astype_int32 (col_indices A_sp))
                   (csr_values A_sp))
                (data (PyTorchLinearSystemTask.b task))
                (match PyTorchLinearSystemTask.x task with
                 | Some gt => Some (data gt)
                 | None => None
                 end)
                r (Qc_trunc k) None).
Proof.
  intros HA Hr Hk. unfold torch2petsc, to_sparse_csr, float_of_tensor,
    int_of_tensor. rewrite HA, Hr, Hk. simpl. eexists. split; reflexivity.
Qed.


(** ** Lists cut into blocks *)

Section Blocks.
Context {T : Type}.

Lemma chunk_length (sz i : nat) (l : list T) :
  (S i) * sz <= length l -> length (chunk sz i l) = sz.
Proof.
  intro H. unfold chunk. rewrite length_firstn, length_skipn. lia.
Qed.

Lemma nth_chunk (sz i j : nat) (l : list T) (d : T) :
  j < sz -> nth j (chunk sz i l) d = nth (i * sz + j) l d.
Proof.
  intro H. unfold chunk. rewrite nth_firstn.
  destruct (Nat.ltb_spec j sz); [|lia]. apply nth_skipn.
Qed.

Lemma chunk_succ (sz i : nat) (l : list T) :
  chunk sz (S i) l = chunk sz i (skipn sz l).
Proof.
  unfold chunk. rewrite skipn_skipn. f_equal. f_equal. lia.
Qed.

Lemma flat_map_seq_S {B : Type} (g : nat -> list B) (n : nat) :
  flat_map g (seq 0 (S n)) = flat_map g (seq 0 n) ++ g n.
Proof.
  rewrite seq_S, flat_map_app. simpl. now rewrite app_nil_r.
Qed.

Lemma flat_map_seq_ext {B : Type} (g h : nat -> list B) (n : nat) :
  (forall i, i < n -> g i = h i) ->
  flat_map g (seq 0 n) = flat_map h (seq 0 n).
Proof.
  induction n as [|n IH]; intro E; [reflexivity|].
  rewrite !flat_map_seq_S, IH, (E n) by auto with arith. reflexivity.
Qed.

Lemma length_flat_map_uniform {B : Type} (g : nat -> list B) (n c : nat) :
  (forall i, i < n -> length (g i) = c) ->
  length (flat_map g (seq 0 n)) = n * c.
Proof.
  induction n as [|n IH]; intro E; [reflexivity|].
  rewrite flat_map_seq_S, length_app, IH, (E n) by auto with arith. lia.
Qed.

Lemma nth_flat_map_uniform {B : Type} (g : nat -> list B) (n c i j : nat)
    (d : B) :
  (forall k, k < n -> length (g k) = c) ->
  i < n -> j < c ->
  nth (i * c + j) (flat_map g (seq 0 n)) d = nth j (g i) d.
Proof.
  induction n as [|n IH]; intros E Hi Hj; [lia|].
  rewrite flat_map_seq_S.
  assert (L : length (flat_map g (seq 0 n)) = n * c)
    by (apply length_flat_map_uniform; auto with arith).
  destruct (Nat.eq_dec i n) as [->|N].
  - rewrite app_nth2 by lia. rewrite L. f_equal. lia.
  - rewrite app_nth1 by nia. apply IH; auto with arith. lia.
Qed.

Lemma chunks_concat (n d : nat) (l : list T) :
  length l = d * n -> flat_map (fun i => chunk n i l) (seq 0 d) = l.
Proof.
  revert l. induction d as [|d IH]; intros l H.
  - destruct l; [reflexivity|discriminate].
  - simpl. rewrite <- seq_shift, flat_map_concat_map, map_map,
      <- flat_map_concat_map.
    rewrite (flat_map_seq_ext _ (fun i => chunk n i (skipn n l)))
      by (intros; apply chunk_succ).
    rewrite IH by (rewrite length_skipn; lia).
    unfold chunk. simpl. apply firstn_skipn.
Qed.
End Blocks.

(** ** Elementwise operators on operands of one shape *)

Section SameShape.
Context {T : Type} (f : T -> T -> T).

Lemma skipn_combine {B : Type} (n : nat) (a : list T) (c : list B) :
  skipn n (combine a c) = combine (skipn n a) (skipn n c).
Proof.
  revert a c. induction n as [|n IH]; intros [|u a] [|w c]; simpl;
    try reflexivity.
  - now destruct (skipn n a).
  - apply IH.
Qed.

Lemma chunk_map2 (sz i : nat) (a c : list T) :
  chunk sz i (map2 f a c) = map2 f (chunk sz i a) (chunk sz i c).
Proof.
  unfold chunk, map2.
  now rewrite skipn_map, firstn_map, skipn_combine, combine_firstn.
Qed.

Lemma length_map2 (a c : list T) :
  length a = length c -> length (map2 f a c) = length a.
Proof.
  intro H. unfold map2. rewrite length_map, length_combine. lia.
Qed.


Lemma bmap2_same (s : list nat) (a c : list T) :
  length a = numel s -> length c = numel s ->
  bmap2 f s s a c = map2 f a c.
Proof.
  revert a c. induction s as [|d s IH]; intros a c Ha Hc.
  - simpl in *. destruct a as [|u [|? ?]]; try discriminate.
    destruct c as [|w [|? ?]]; try discriminate. reflexivity.
  - simpl in Ha, Hc. cbn [bmap2].
    replace (if d =? 1 then d else d) with d by now destruct (d =? 1).
    rewrite (flat_map_seq_ext _
               (fun i => chunk (numel s) i (map2 f a c))).
    + apply chunks_concat. rewrite length_map2; lia.
    + intros i Hi.
      replace (if d =? 1 then 0 else i) with i
        by (destruct (Nat.eqb_spec d 1); lia).
      rewrite chunk_map2. apply IH; apply chunk_length; nia.
Qed.

Lemma pad_shape_same_rank (s1 s2 : list nat) :
  length s1 = length s2 ->
  pad_shape (Nat.max (length s1) (length s2)) s1 = s1
  /\ pad_shape (Nat.max (length s1) (length s2)) s2 = s2.
Proof.
  intro H. unfold pad_shape. rewrite H, Nat.max_id, Nat.sub_diag.
  split; reflexivity.
Qed.

Lemma broadcast_aligned_same (s : list nat) : broadcast_aligned s s = Some s.
Proof.
  induction s as [|d s IH]; [reflexivity|].
  simpl. unfold bdim. now rewrite Nat.eqb_refl, IH.
Qed.

(** On two operands of one shape the operator works entry by entry. *)
Lemma tbin_same_shape (a c : tensor T) :
  shape a = shape c -> wf a -> wf c ->
  tbin f a c = Ret (mkTensor (shape a) (map2 f (data a) (data c))).
Proof.
  intros Hs Ha Hc. unfold tbin, broadcast_shapes. rewrite <- Hs.
  destruct (pad_shape_same_rank (shape a) (shape a) eq_refl) as [-> _].
  rewrite broadcast_aligned_same. f_equal. f_equal.
  apply bmap2_same; [exact Ha | now rewrite Hs].
Qed.

End SameShape.

(** ** Finite differences *)

Lemma map2_map_r {T : Type} (f : T -> T -> T) (g : T -> T) (a c : list T) :
  map2 f a (map g c) = map2 (fun u w => f u (g w)) a c.
Proof.
  unfold map2. revert c. induction a as [|u a IH]; intros [|w c]; simpl;
    try reflexivity.
  now rewrite IH.
Qed.

Lemma map_map2 {T : Type} (f : T -> T -> T) (g : T -> T) (a c : list T) :
  map g (map2 f a c) = map2 (fun u w => g (f u w)) a c.
Proof. unfold map2. now rewrite map_map. Qed.

Lemma tadd_shifted (x v : tensor Qc) (c : Qc) :
  shape x = shape v -> wf x -> wf v ->
  tadd x (smul c v) = Ret (shifted x v c).
Proof.
  intros Hs Hx Hv. unfold tadd.
  rewrite tbin_same_shape; trivial.
  - unfold shifted, smul, tmap. simpl. now rewrite map2_map_r.
  - unfold wf, smul, tmap in *. simpl. now rewrite length_map.
Qed.

Lemma tsub_shifted_back (x v : tensor Qc) (c : Qc) :
  shape x = shape v -> wf x -> wf v ->
  tsub x (smul c v) = Ret (shifted_back x v c).
Proof.
  intros Hs Hx Hv. unfold tsub.
  rewrite tbin_same_shape; trivial.
  - unfold shifted_back, smul, tmap. simpl. now rewrite map2_map_r.
  - unfold wf, smul, tmap in *. simpl. now rewrite length_map.
Qed.

(** C6. For a step [eps > 0] and a direction [v] of the shape of [x],
    ["forwardFD"] evaluates [f] at [x] and at [x + eps v], in this
    order, and returns [f(x)] with [(f(x + eps v) - f(x)) / eps];
    ["centralFD"] evaluates [f] at [x], at [x + eps v] and at
    [x - eps v] and returns [f(x)], from its own evaluation, with
    [(f(x + eps v) - f(x - eps v)) / (2 eps)]. *)
Theorem jvp_finite_differences :
  forall (f : torch_fn) (x v : tensor Qc) (eps : Qc),
    Qclt (Qz 0) eps ->
    shape x = shape v -> wf x -> wf v ->
    let F := f Qc Scalar_Qc in
    let x_plus := shifted x v eps in
    let x_minus := shifted_back x v eps in
    (shape (F x_plus) = shape (F x) -> wf (F x_plus) -> wf (F x) ->
     jvp f x v "forwardFD" eps
     = ([CallPlain x; CallPlain x_plus],
        Ret (F x, difference_quotient (F x_plus) (F x) eps)))
    /\
    (shape (F x_plus) = shape (F x_minus) -> wf (F x_plus) -> wf (F x_minus) ->
     jvp f x v "centralFD" eps
     = ([CallPlain x; CallPlain x_plus; CallPlain x_minus],
        Ret (F x,
             difference_quotient (F x_plus) (F x_minus) (Qcmult (Qz 2) eps)))).
Proof.
  intros f x v eps _ Hs Hx Hv F x_plus x_minus.
  pose proof (tadd_shifted x v eps Hs Hx Hv) as Ep.
  pose proof (tsub_shifted_back x v eps Hs Hx Hv) as Em.
  split; intros Hs' Hp Hq.
  - pose proof (tbin_same_shape Qcminus _ _ Hs' Hp Hq) as Ed.
    unfold jvp. simpl. unfold lift. rewrite Ep. simpl.
    fold F x_plus. unfold tsub. rewrite Ed. simpl.
    unfold difference_quotient, tdivs, tmap. simpl. now rewrite map_map2.
  - pose proof (tbin_same_shape Qcminus _ _ Hs' Hp Hq) as Ed.
    unfold jvp. simpl. unfold lift. rewrite Ep. simpl. rewrite Em. simpl.
    fold F x_plus x_minus. unfold tsub. rewrite Ed. simpl.
    unfold difference_quotient, tdivs, tmap. simpl. now rewrite map_map2.
Qed.

Lemma jvp_finite_differences_witness :
  jvp sphere x_34 v_10 "forwardFD" (Q2Qc (1 # 10))
  = ([CallPlain x_34; CallPlain (shifted x_34 v_10 (Q2Qc (1 # 10)))],
     Ret (sphere Qc Scalar_Qc x_34,
          difference_quotient
            (sphere Qc Scalar_Qc (shifted x_34 v_10 (Q2Qc (1 # 10))))
            (sphere Qc Scalar_Qc x_34) (Q2Qc (1 # 10))))
  /\ jvp sphere x_34 v_10 "centralFD" (Q2Qc (1 # 10))
     = ([CallPlain x_34; CallPlain (shifted x_34 v_10 (Q2Qc (1 # 10)));
         CallPlain (shifted_back x_34 v_10 (Q2Qc (1 # 10)))],
        Ret (sphere Qc Scalar_Qc x_34,
             difference_quotient
               (sphere Qc Scalar_Qc (shifted x_34 v_10 (Q2Qc (1 # 10))))
               (sphere Qc Scalar_Qc (shifted_back x_34 v_10 (Q2Qc (1 # 10))))
               (Qcmult (Qz 2) (Q2Qc (1 # 10))))).
Proof.
  assert (P : Qclt (Qz 0) (Q2Qc (1 # 10))) by reflexivity.
  split.
  - apply (proj1 (jvp_finite_differences sphere x_34 v_10 (Q2Qc (1 # 10))
                    P eq_refl eq_refl eq_refl)); reflexivity.
  - apply (proj2 (jvp_finite_differences sphere x_34 v_10 (Q2Qc (1 # 10))
                    P eq_refl eq_refl eq_refl)); reflexivity.
Defined.

(** ** The sphere function under forward-mode differentiation *)

Lemma Qz_0 : Qz 0 = 0%Qc.
Proof. now apply Qc_ext. Qed.

Lemma Qn_2 : Qn 2 = (1 + 1)%Qc.
Proof. now apply Qc_ext. Qed.

Lemma ssum_dual_squares (a c : list Qc) :
  length a = length c ->
  ssum (map (fun u : dual => s_pow u 2) (combine a c))
  = (dot a a, Qcmult (Qz 2) (dot a c)).
Proof.
  revert c. induction a as [|u a IH]; intros [|w c] H; try discriminate.
  - unfold dot, map2. simpl. f_equal; now apply Qc_ext.
  - injection H as H. specialize (IH c H).
    unfold dot, map2 in *. simpl in *. rewrite IH. simpl.
    replace (Qz 2) with (1 + 1)%Qc by now apply Qc_ext.
    rewrite Qn_2. f_equal; ring.
Qed.

Lemma chunk_map_combine {B C : Type} (g : Qc * B -> C) (sz i : nat)
    (a : list Qc) (c : list B) :
  chunk sz i (map g (combine a c)) = map g (combine (chunk sz i a) (chunk sz i c)).
Proof.
  unfold chunk. now rewrite skipn_map, firstn_map, skipn_combine, combine_firstn.
Qed.

Lemma sphere_dual (x v : tensor Qc) (B D : nat) :
  shape x = [B; D] -> shape v = [B; D] -> wf x -> wf v ->
  sphere dual Scalar_dual (dual_of x v)
  = mkTensor [B; 1]
      (map (fun b => (dot (chunk D b (data x)) (chunk D b (data x)),
                      Qcmult (Qz 2)
                        (dot (chunk D b (data x)) (chunk D b (data v)))))
           (seq 0 B)).
Proof.
  intros Hx Hv Wx Wv. unfold wf in *. rewrite Hx in Wx. rewrite Hv in Wv.
  simpl in Wx, Wv.
  unfold sphere, sum_last_keepdim, tpow, tmap, dual_of. simpl.
  rewrite Hx. simpl. rewrite Nat.mul_1_r. f_equal.
  apply map_ext_in. intros b Hb. apply in_seq in Hb.
  rewrite (chunk_map_combine (fun u : dual => dual_pow u 2)).
  apply ssum_dual_squares.
  rewrite !chunk_length; trivial; nia.
Qed.

(** C9. Along a direction [v] of the shape [B, D] of [x], the
    ["forwardAD"] mode of [jvp] evaluates [sphere] once, on the dual
    tensor, and returns for every row [b] the value [x_b . x_b] and the
    directional derivative [2 (x_b . v_b)].  At [x = [[3, 4]]] and
    [v = [[1, 0]]] these are [25] and [6]. *)
Theorem jvp_sphere_forwardAD :
  (forall (x v : tensor Qc) (eps : Qc) (B D : nat),
      shape x = [B; D] -> shape v = [B; D] -> wf x -> wf v ->
      jvp sphere x v "forwardAD" eps
      = ([CallDual (dual_of x v)],
         Ret (mkTensor [B; 1]
                (map (fun b => dot (chunk D b (data x)) (chunk D b (data x)))
                     (seq 0 B)),
              mkTensor [B; 1]
                (map (fun b =>
                        Qcmult (Qz 2)
                          (dot (chunk D b (data x)) (chunk D b (data v))))
                     (seq 0 B)))))
  /\
  (forall eps : Qc,
      jvp sphere x_34 v_10 "forwardAD" eps
      = ([CallDual (dual_of x_34 v_10)],
         Ret (tnat [1; 1] [25], tnat [1; 1] [6]))).
Proof.
  assert (G : forall (x v : tensor Qc) (eps : Qc) (B D : nat),
      shape x = [B; D] -> shape v = [B; D] -> wf x -> wf v ->
      jvp sphere x v "forwardAD" eps
      = ([CallDual (dual_of x v)],
         Ret (mkTensor [B; 1]
                (map (fun b => dot (chunk D b (data x)) (chunk D b (data x)))
                     (seq 0 B)),
              mkTensor [B; 1]
                (map (fun b =>
                        Qcmult (Qz 2)
                          (dot (chunk D b (data x)) (chunk D b (data v))))
                     (seq 0 B))))).
  { intros x v eps B D Hx Hv Wx Wv.
    unfold jvp. simpl. unfold lift, make_dual.
    destruct (list_eq_dec Nat.eq_dec (shape x) (shape v)) as [_|N];
      [|congruence].
    fold (dual_of x v). unfold eval_dual. simpl.
    rewrite (sphere_dual x v B D Hx Hv Wx Wv).
    unfold unpack_dual, tmap. simpl. now rewrite !map_map. }
  split; [exact G|].
  intro eps. rewrite (G x_34 v_10 eps 1 2) by reflexivity.
  reflexivity.
Qed.

Lemma jvp_sphere_forwardAD_witness :
  jvp sphere x_34 v_10 "forwardAD" (Qz 1)
  = ([CallDual (dual_of x_34 v_10)],
     Ret (mkTensor [1; 1]
            (map (fun b => dot (chunk 2 b (data x_34)) (chunk 2 b (data x_34)))
                 (seq 0 1)),
          mkTensor [1; 1]
            (map (fun b =>
                    Qcmult (Qz 2)
                      (dot (chunk 2 b (data x_34)) (chunk 2 b (data v_10))))
                 (seq 0 1)))).
Proof.
  apply (proj1 jvp_sphere_forwardAD x_34 v_10 (Qz 1) 1 2); reflexivity.
Defined.

(** ** The forward gradient *)

Lemma map_nth_seq {T : Type} (l : list T) (d : T) :
  map (fun k => nth k l d) (seq 0 (length l)) = l.
Proof.
  apply (nth_ext _ _ d d).
  - now rewrite length_map, length_seq.
  - intros n Hn. rewrite length_map, length_seq in Hn.
    rewrite (nth_indep _ d (nth 0 l d)) by now rewrite length_map, length_seq.
    rewrite (map_nth (fun k => nth k l d) (seq 0 (length l)) 0 n).
    now rewrite seq_nth.
Qed.

Lemma flat_map_singleton {A B : Type} (g : A -> B) (l : list A) :
  flat_map (fun a => [g a]) l = map g l.
Proof. induction l as [|a l IH]; simpl; now rewrite ?IH. Qed.

Lemma flat_map_by_index {A B : Type} (g : A -> list B) (l : list A) (d : A) :
  flat_map g l = flat_map (fun j => g (nth j l d)) (seq 0 (length l)).
Proof.
  rewrite <- (map_nth_seq l d) at 1.
  now rewrite flat_map_concat_map, map_map, <- flat_map_concat_map.
Qed.

Lemma chunk_1 {T : Type} (j : nat) (l : list T) (d : T) :
  j < length l -> chunk 1 j l = [nth j l d].
Proof.
  intro H. apply (nth_ext _ _ d d).
  - rewrite chunk_length; [reflexivity | lia].
  - intros n Hn. rewrite chunk_length in Hn by lia.
    replace n with 0 by lia. rewrite nth_chunk by lia. simpl. f_equal. lia.
Qed.

(** Sum over the columns of a matrix with [C] columns. *)
Lemma sum_dim1_keepdim_matrix (t : tensor Qc) (N C : nat) :
  shape t = [N; C] -> wf t ->
  sum_dim1_keepdim t
  = Ret (mkTensor [N; 1]
           (map (fun i => Qcsum (chunk C i (data t))) (seq 0 N))).
Proof.
  intros Hs W. unfold wf in W. rewrite Hs in W. simpl in W.
  unfold sum_dim1_keepdim. rewrite Hs. simpl. f_equal. f_equal.
  rewrite <- flat_map_singleton. apply flat_map_seq_ext. intros i Hi.
  unfold sum_axis0. simpl. f_equal. f_equal.
  rewrite Nat.mul_1_r.
  rewrite (map_ext _ (fun k => nth k (chunk C i (data t)) (Qz 0)))
    by (intro k; f_equal; lia).
  rewrite <- (chunk_length C i (data t)) at 1 by nia.
  apply map_nth_seq.
Qed.

(** A column [N, 1] times a matrix [N, D]: row [i] of the matrix is
    multiplied by entry [i] of the column. *)
Lemma tbin_column_broadcast {T : Type} (f : T -> T -> T) (a c : tensor T)
    (N D : nat) (d : T) :
  shape a = [N; 1] -> shape c = [N; D] -> wf a -> wf c ->
  tbin f a c
  = Ret (mkTensor [N; D]
           (flat_map (fun i => map (f (nth i (data a) d)) (chunk D i (data c)))
              (seq 0 N))).
Proof.
  intros Ha Hc Wa Wc. unfold wf in *. rewrite Ha in Wa. rewrite Hc in Wc.
  simpl in Wa, Wc. unfold tbin, broadcast_shapes. rewrite Ha, Hc.
  cbn [length Nat.max pad_shape Nat.sub repeat app broadcast_aligned].
  assert (E1 : bdim N N = Some N) by (unfold bdim; now rewrite Nat.eqb_refl).
  assert (E2 : bdim 1 D = Some D).
  { unfold bdim. destruct (Nat.eqb_spec 1 D); [now subst|reflexivity]. }
  rewrite E1, E2. f_equal. f_equal. cbn [bmap2 numel fold_right].
  replace (if N =? 1 then N else N) with N by now destruct (N =? 1).
  apply flat_map_seq_ext. intros i Hi.
  replace (if N =? 1 then 0 else i) with i
    by (destruct (Nat.eqb_spec N 1); lia).
  rewrite !Nat.mul_1_r. cbn [Nat.eqb].
  rewrite (chunk_1 i (data a) d) by lia.
  assert (L : length (chunk D i (data c)) = D) by (apply chunk_length; nia).
  rewrite <- flat_map_singleton.
  rewrite (flat_map_by_index _ (chunk D i (data c)) d), L.
  apply flat_map_seq_ext. intros j Hj.
  replace (if D =? 1 then 0 else j) with j
    by (destruct (Nat.eqb_spec D 1); lia).
  rewrite (chunk_1 j _ d) by lia. reflexivity.
Qed.

Lemma nth_map_lt {A B : Type} (g : A -> B) (l : list A) (j : nat) (d : B)
    (d' : A) :
  j < length l -> nth j (map g l) d = g (nth j l d').
Proof.
  intro H. rewrite (nth_indep _ d (g d')) by now rewrite length_map.
  apply map_nth.
Qed.

Lemma nth_map_seq {B : Type} (g : nat -> B) (n j : nat) (d : B) :
  j < n -> nth j (map g (seq 0 n)) d = g j.
Proof.
  intro H. rewrite (nth_map_lt g _ j d 0) by now rewrite length_seq.
  now rewrite seq_nth.
Qed.

(** The product [(upstream . dv) * v] before it is averaged: row [i] of
    [v] times the upstream dot product of row [i]. *)
Lemma probe_terms_spec (grad_y dv v : tensor Qc) (N C D : nat) :
  shape grad_y = [N; C] -> shape dv = [N; C] -> shape v = [N; D] ->
  wf grad_y -> wf dv -> wf v ->
  (gd <- tmul grad_y dv ;; s <- sum_dim1_keepdim gd ;; tmul s v)
  = Ret (mkTensor [N; D]
           (flat_map
              (fun i => map (Qcmult (upstream_dot grad_y dv C i))
                            (chunk D i (data v)))
              (seq 0 N))).
Proof.
  intros Hg Hd Hv Wg Wd Wv. unfold tmul.
  rewrite (tbin_same_shape Qcmult grad_y dv) by congruence. simpl.
  assert (Lg : length (data grad_y) = N * C)
    by (unfold wf in Wg; rewrite Hg in Wg; simpl in Wg; lia).
  assert (Ld : length (data dv) = N * C)
    by (unfold wf in Wd; rewrite Hd in Wd; simpl in Wd; lia).
  rewrite (sum_dim1_keepdim_matrix _ N C); simpl; trivial.
  2:{ unfold wf. simpl. rewrite Hg. simpl. rewrite length_map2; lia. }
  rewrite (tbin_column_broadcast Qcmult _ v N D (Qz 0)); simpl; trivial.
  2:{ unfold wf. simpl. rewrite length_map, length_seq. lia. }
  f_equal. f_equal. apply flat_map_seq_ext. intros i Hi.
  rewrite nth_map_seq by exact Hi. now rewrite chunk_map2.
Qed.

Lemma fwd_grad_spec (grad_y dv v : tensor Qc) (Nv bs C D : nat) :
  shape grad_y = [Nv * bs; C] -> shape dv = [Nv * bs; C] ->
  shape v = [Nv * bs; D] ->
  wf grad_y -> wf dv -> wf v ->
  register_custom_grad_fn.fwd_grad grad_y dv v Nv bs D
  = Ret (mkTensor [bs; D]
           (map (fun u => Qcdiv u (Qn Nv))
              (sum_axis0 Nv (bs * D)
                 (flat_map
                    (fun i => map (Qcmult (upstream_dot grad_y dv C i))
                                  (chunk D i (data v)))
                    (seq 0 (Nv * bs)))))).
Proof.
  intros Hg Hd Hv Wg Wd Wv.
  pose proof (probe_terms_spec grad_y dv v (Nv * bs) C D Hg Hd Hv Wg Wd Wv)
    as E.
  unfold register_custom_grad_fn.fwd_grad.
  destruct (tmul grad_y dv) as [gd|e]; simpl in *; [|discriminate].
  destruct (sum_dim1_keepdim gd) as [s|e]; simpl in *; [|discriminate].
  rewrite E. simpl. unfold reshape. simpl.
  replace (Nv * (bs * (D * 1)) =? Nv * bs * (D * 1)) with true
    by (symmetry; apply Nat.eqb_eq; lia).
  simpl. unfold mean_dim0. simpl. now rewrite Nat.mul_1_r.
Qed.

(** Entry [(i, j)] of the product before it is averaged. *)
Lemma probe_terms_entry (grad_y dv v : tensor Qc) (N C D i j : nat) :
  length (data v) = N * D -> i < N -> j < D ->
  nth (i * D + j)
      (flat_map
         (fun i => map (Qcmult (upstream_dot grad_y dv C i))
                       (chunk D i (data v)))
         (seq 0 N)) (Qz 0)
  = Qcmult (upstream_dot grad_y dv C i) (entry v (i * D + j)).
Proof.
  intros L Hi Hj.
  rewrite (nth_flat_map_uniform _ N D); trivial.
  - rewrite (nth_map_lt _ _ j _ (Qz 0)) by (rewrite chunk_length; nia).
    now rewrite nth_chunk.
  - intros k Hk. rewrite length_map. apply chunk_length. nia.
Qed.

(** Entry [(b, j)] of the forward gradient. *)
Lemma fwd_grad_entries (grad_y dv v : tensor Qc) (c : Qc)
    (Nv bs C D b j : nat) :
  length (data v) = Nv * bs * D -> b < bs -> j < D ->
  nth (b * D + j)
      (map (fun u => Qcdiv u (Qn Nv))
         (sum_axis0 Nv (bs * D)
            (flat_map
               (fun i => map (Qcmult (upstream_dot grad_y dv C i))
                             (chunk D i (data (tscale v c))))
               (seq 0 (Nv * bs))))) (Qz 0)
  = fwd_grad_entry grad_y dv v c C D Nv bs b j.
Proof.
  intros L Hb Hj. unfold fwd_grad_entry, sum_axis0.
  assert (Hbj : b * D + j < bs * D).
  { assert ((b + 1) * D <= bs * D) by (apply Nat.mul_le_mono_r; lia). lia. }
  rewrite map_map. rewrite nth_map_seq by exact Hbj.
  f_equal. f_equal. apply map_ext_in. intros k Hk. apply in_seq in Hk.
  replace (k * (bs * D) + (b * D + j)) with ((k * bs + b) * D + j) by lia.
  rewrite (probe_terms_entry grad_y dv (tscale v c) (Nv * bs) C D).
  - f_equal. unfold entry, tscale, tmap. simpl.
    apply (nth_map_lt (fun u => Qcmult u c)). nia.
  - unfold tscale, tmap. simpl. now rewrite length_map.
  - nia.
  - exact Hj.
Qed.

Lemma Qn_1 : Qn 1 = 1%Qc.
Proof. now apply Qc_ext. Qed.

Lemma length_sum_axis0 (d R : nat) (l : list Qc) :
  length (sum_axis0 d R l) = R.
Proof. unfold sum_axis0. now rewrite length_map, length_seq. Qed.

(** C1. Under ["f_fwd"], with [Nv >= 1] replicas of a batch of [bs]
    samples in dimension [D] (so [v] is [Nv * bs, D], and the upstream
    gradient and [dvf] are [Nv * bs, C]), [backward] returns a gradient
    of shape [bs, D], the shape of [x], whatever [Nv] is.  Its entry
    [(b, j)] is the mean over the [Nv] replicas of sample [b] of
    (upstream gradient . dvf) times the entry of [v * v_scale]; for
    [Nv = 1] it is that product itself. *)
Theorem backward_f_fwd_mean :
  forall (ctx : ctx_t) (grad_y : tensor Qc) (Nv bs C D : nat),
    let d := ctx_d ctx in
    let x := fst (saved_tensors ctx) in
    let v := snd (saved_tensors ctx) in
    d_grad_type d = "f_fwd"%string ->
    d_Nv d = Nv -> 1 <= Nv ->
    shape x = [bs; D] ->
    shape v = [Nv * bs; D] -> wf v ->
    shape grad_y = [Nv * bs; C] -> wf grad_y ->
    shape (d_dvf d) = [Nv * bs; C] -> wf (d_dvf d) ->
    exists g : tensor Qc,
      register_custom_grad_fn.backward ctx grad_y = Ret (g, None)
      /\ shape g = shape x
      /\ wf g
      /\ (forall b j, b < bs -> j < D ->
            entry g (b * D + j)
            = fwd_grad_entry grad_y (d_dvf d) v (d_v_scale d) C D Nv bs b j)
      /\ (Nv = 1 ->
          forall b j, b < bs -> j < D ->
            entry g (b * D + j)
            = Qcmult (upstream_dot grad_y (d_dvf d) C b)
                     (Qcmult (entry v (b * D + j)) (d_v_scale d))).
Proof.
  intros ctx grad_y Nv bs C D d x v Hgt HNv Hpos Hx Hv Wv Hg Wg Hd Wd.
  assert (Lv : length (data v) = Nv * bs * D)
    by (unfold wf in Wv; rewrite Hv in Wv; simpl in Wv; lia).
  assert (E : forall b j, b < bs -> j < D ->
            nth (b * D + j)
              (map (fun u => Qcdiv u (Qn Nv))
                 (sum_axis0 Nv (bs * D)
                    (flat_map
                       (fun i => map (Qcmult (upstream_dot grad_y (d_dvf d) C i))
                                     (chunk D i (data (tscale v (d_v_scale d)))))
                       (seq 0 (Nv * bs))))) (Qz 0)
            = fwd_grad_entry grad_y (d_dvf d) v (d_v_scale d) C D Nv bs b j)
    by (intros; now apply fwd_grad_entries).
  eexists. split; [|split; [|split; [|split]]].
  - rewrite (backward_not_f_true ctx grad_y bs D Hx)
      by (fold d; rewrite Hgt; discriminate).
    cbv zeta. fold d v. rewrite HNv.
    rewrite (fwd_grad_spec grad_y (d_dvf d) (tscale v (d_v_scale d)) Nv bs C D);
      trivial.
    + simpl. rewrite Hgt. reflexivity.
    + unfold wf, tscale, tmap in *. simpl. now rewrite length_map.
  - simpl. now rewrite Hx.
  - unfold wf. simpl. rewrite length_map, length_sum_axis0. lia.
  - exact E.
  - intros HN b j Hb Hj. etransitivity; [exact (E b j Hb Hj)|].
    unfold fwd_grad_entry. rewrite HN. simpl. rewrite Qn_1, Qz_0.
    field. discriminate.
Qed.

Lemma backward_f_fwd_mean_witness :
  exists g : tensor Qc,
    register_custom_grad_fn.backward (sample_ctx "f_fwd") sample_grad_y
    = Ret (g, None)
    /\ shape g = [2; 3]
    /\ entry g 4 = Qz 54.
Proof.
  destruct (backward_f_fwd_mean (sample_ctx "f_fwd") sample_grad_y 2 2 1 3)
    as (g & E & Hs & _ & He & _); try reflexivity; try (simpl; lia).
  exists g. split; [exact E|]. split; [exact Hs|].
  assert (H1 : 1 < 2) by lia. assert (H2 : 1 < 3) by lia.
  etransitivity; [exact (He 1 1 H1 H2)|].
  apply Qc_ext. vm_compute. reflexivity.
Defined.

(** ** The control variate *)




(** ** Dense and compressed-sparse-row matrices *)

Lemma nth_offsets (lens : list nat) (s i : nat) :
  i <= length lens ->
  nth i (offsets s lens) 0 = s + list_sum (firstn i lens).
Proof.
  revert s i. induction lens as [|k lens IH]; intros s i H; simpl in H.
  - replace i with 0 by lia. simpl. lia.
  - destruct i as [|i]; simpl; [lia|].
    rewrite IH by lia. lia.
Qed.

Lemma slice_concat {T : Type} (ls : list (list T)) (i : nat) :
  i < length ls ->
  slice (list_sum (firstn i (map (@length T) ls)))
        (list_sum (firstn (S i) (map (@length T) ls)))
        (concat ls)
  = nth i ls [].
Proof.
  revert i. induction ls as [|l ls IH]; intros i H; simpl in H; [lia|].
  destruct i as [|i].
  - unfold slice. simpl. rewrite Nat.add_0_r, Nat.sub_0_r.
    rewrite firstn_app, Nat.sub_diag, firstn_all. simpl. apply app_nil_r.
  - specialize (IH i ltac:(lia)).
    change (map (@length T) (l :: ls)) with (length l :: map (@length T) ls).
    rewrite !firstn_cons.
    change (nth (S i) (l :: ls) []) with (nth i ls []).
    change (concat (l :: ls)) with (l ++ concat ls).
    set (P := list_sum (firstn i (map (@length T) ls))) in *.
    set (Q := list_sum (firstn (S i) (map (@length T) ls))) in *.
    change (list_sum (length l :: firstn i (map (@length T) ls)))
      with (length l + P).
    change (list_sum (length l :: firstn (S i) (map (@length T) ls)))
      with (length l + Q).
    clearbody P Q. unfold slice in *.
    rewrite skipn_app, skipn_all2 by lia. cbn [app].
    rewrite <- IH. f_equal; [lia|]. f_equal. lia.
Qed.

Lemma combine_fst_snd {A B : Type} (l : list (A * B)) :
  combine (map fst l) (map snd l) = l.
Proof.
  induction l as [|[a c] l IH]; simpl; now rewrite ?IH.
Qed.

(** The rows of a CSR tensor that was built row by row. *)
Lemma csr_row_slices (rows : list (list (nat * Qc))) (i : nat) :
  i < length rows ->
  let crow := offsets 0 (map (@length (nat * Qc)) rows) in
  slice (nth i crow 0) (nth (S i) crow 0) (flat_map (map fst) rows)
  = map fst (nth i rows [])
  /\ slice (nth i crow 0) (nth (S i) crow 0) (flat_map (map snd) rows)
     = map snd (nth i rows []).
Proof.
  intros H crow. unfold crow.
  rewrite !nth_offsets by (rewrite length_map; lia). rewrite !Nat.add_0_l.
  rewrite !flat_map_concat_map. split.
  - replace (map (@length (nat * Qc)) rows)
      with (map (@length nat) (map (map fst) rows))
      by (rewrite map_map; apply map_ext; intro; apply length_map).
    rewrite slice_concat by now rewrite length_map.
    change (@nil nat) with (map (@fst nat Qc) []). apply map_nth.
  - replace (map (@length (nat * Qc)) rows)
      with (map (@length Qc) (map (map snd) rows))
      by (rewrite map_map; apply map_ext; intro; apply length_map).
    rewrite slice_concat by now rewrite length_map.
    change (@nil Qc) with (map (@snd nat Qc) []). apply map_nth.
Qed.

Lemma row_get_pick (l : list (nat * Qc)) (j : nat) :
  row_get (map fst l) (map snd l) j = pick l j.
Proof. unfold row_get, pick. now rewrite combine_fst_snd. Qed.

Lemma Qc_eqb_true (a c : Qc) : Qc_eqb a c = true -> a = c.
Proof. apply Qc_eq_bool_correct. Qed.

Lemma Qcsum_cons (u : Qc) (l : list Qc) : Qcsum (u :: l) = Qcplus u (Qcsum l).
Proof. reflexivity. Qed.

(** Dropping the zero entries does not change the value of any
    column. *)
Lemma pick_nonzeros (l : list (nat * Qc)) (j : nat) :
  pick (filter (fun p => negb (Qc_eqb (snd p) (Qz 0))) l) j = pick l j.
Proof.
  unfold pick. induction l as [|[k u] l IH]; [reflexivity|].
  cbn [filter snd fst].
  destruct (Qc_eqb u (Qz 0)) eqn:E; cbn [negb].
  - apply Qc_eqb_true in E. subst u. rewrite IH.
    destruct (k =? j); [|reflexivity].
    cbn [map snd]. rewrite Qcsum_cons, Qz_0. ring.
  - cbn [filter fst]. destruct (k =? j); [|exact IH].
    cbn [map snd]. rewrite !Qcsum_cons. f_equal. exact IH.
Qed.

Lemma pick_combine_seq (r : list Qc) (s j : nat) :
  (j < s -> pick (combine (seq s (length r)) r) j = Qz 0)
  /\ (s <= j -> pick (combine (seq s (length r)) r) j = nth (j - s) r (Qz 0)).
Proof.
  revert s. induction r as [|u r IH]; intro s.
  - split; intros _; [reflexivity | now destruct (j - s)].
  - destruct (IH (S s)) as [IH1 IH2].
    cbn [length seq combine]. unfold pick in *. cbn [filter fst].
    destruct (Nat.eqb_spec s j) as [->|N].
    + split; intro H; [lia|].
      cbn [map snd]. rewrite Qcsum_cons.
      rewrite IH1 by lia. rewrite Nat.sub_diag, Qz_0. cbn [nth]. ring.
    + split; intro H.
      * apply IH1. lia.
      * rewrite IH2 by lia.
        replace (j - s) with (S (j - S s)) by lia. reflexivity.
Qed.

(** Reading back the stored entries of a dense row gives the row. *)
Lemma row_get_nonzeros (n : nat) (r : list Qc) :
  length r = n ->
  map (row_get (map fst (row_nonzeros n r)) (map snd (row_nonzeros n r)))
      (seq 0 n)
  = r.
Proof.
  intro L. subst n.
  transitivity (map (fun j => nth j r (Qz 0)) (seq 0 (length r)));
    [| apply map_nth_seq].
  apply map_ext_in. intros j Hj.
  rewrite row_get_pick. unfold row_nonzeros. rewrite pick_nonzeros.
  destruct (pick_combine_seq r 0 j) as [_ H].
  apply in_seq in Hj. rewrite H by lia. now rewrite Nat.sub_0_r.
Qed.

(** The rows that [to_sparse_csr] stores for a dense matrix. *)
Lemma to_dense_of_rows (m n : nat) (l : list Qc) :
  length l = m * n ->
  let rows := map (fun i => row_nonzeros n (chunk n i l)) (seq 0 m) in
  to_dense (mkCsr (m, n)
              (offsets 0 (map (@length (nat * Qc)) rows))
              (flat_map (map fst) rows)
              (flat_map (map snd) rows))
  = mkTensor [m; n] l.
Proof.
  intros L rows. unfold to_dense. cbn [csr_shape crow_indices col_indices
                                        csr_values].
  f_equal.
  transitivity (flat_map (fun i => chunk n i l) (seq 0 m));
    [| now apply chunks_concat].
  apply flat_map_seq_ext. intros i Hi.
  assert (Hr : i < length rows)
    by (unfold rows; now rewrite length_map, length_seq).
  destruct (csr_row_slices rows i Hr) as [-> ->].
  unfold rows. rewrite nth_map_seq by exact Hi.
  apply row_get_nonzeros. apply chunk_length. nia.
Qed.

(** *** Index arrays as 32-bit integers *)

Lemma astype_int32_small (l : list nat) :
  Forall (fun k => (Z.of_nat k < 2147483648)%Z) l -> astype_int32 l = l.
Proof.
  intro H. unfold astype_int32. rewrite <- (map_id l) at 2.
  apply map_ext_in. intros k Hk.
  rewrite Forall_forall in H. specialize (H k Hk). unfold wrap_int32.
  rewrite Z.mod_small by lia.
  replace (Z.of_nat k + 2147483648 - 2147483648)%Z with (Z.of_nat k) by lia.
  apply Nat2Z.id.
Qed.

Lemma offsets_bound (lens : list nat) (s : nat) :
  Forall (fun k => k <= s + list_sum lens) (offsets s lens).
Proof.
  revert s. induction lens as [|k lens IH]; intro s; simpl.
  - constructor; [lia | constructor].
  - constructor; [lia|].
    eapply Forall_impl; [|apply IH]. simpl. intros; lia.
Qed.

Lemma length_row_nonzeros (n : nat) (r : list Qc) :
  length (row_nonzeros n r) <= n.
Proof.
  unfold row_nonzeros.
  etransitivity; [apply filter_length_le|].
  rewrite length_combine, length_seq. lia.
Qed.

Lemma list_sum_bounded (g : nat -> nat) (m n : nat) :
  (forall i, g i <= n) -> list_sum (map g (seq 0 m)) <= m * n.
Proof.
  intro H. induction m as [|m IH]; [simpl; lia|].
  rewrite seq_S, map_app, list_sum_app. simpl. specialize (H m). lia.
Qed.

Lemma csr_indices_small (m n : nat) (l : list Qc) :
  (Z.of_nat (m * n) < 2147483648)%Z ->
  let rows := map (fun i => row_nonzeros n (chunk n i l)) (seq 0 m) in
  Forall (fun k => (Z.of_nat k < 2147483648)%Z)
         (offsets 0 (map (@length (nat * Qc)) rows))
  /\ Forall (fun k => (Z.of_nat k < 2147483648)%Z) (flat_map (map fst) rows).
Proof.
  intros B rows. split.
  - eapply Forall_impl; [|apply offsets_bound]. simpl. intros k Hk.
    assert (list_sum (map (@length (nat * Qc)) rows) <= m * n).
    { unfold rows. rewrite map_map. apply list_sum_bounded.
      intro i. apply length_row_nonzeros. }
    lia.
  - apply Forall_forall. intros k Hk.
    apply in_flat_map in Hk as (row & Hrow & Hk). unfold rows in Hrow.
    apply in_map_iff in Hrow as (i & <- & Hi). apply in_seq in Hi.
    apply in_map_iff in Hk as ([k' u] & <- & Hp). simpl.
    unfold row_nonzeros in Hp. apply filter_In in Hp as [Hp _].
    apply in_combine_l in Hp. apply in_seq in Hp. nia.
Qed.

(** ** The round trips *)

Lemma this_Qz (z : Z) : this (Qz z) = inject_Z z.
Proof.
  unfold Qz, Q2Qc. cbn [this]. apply Qred_identity. simpl. apply Z.gcd_1_r.
Qed.

Lemma Qc_trunc_Qz (z : Z) : Qc_trunc (Qz z) = z.
Proof. unfold Qc_trunc. rewrite this_Qz. simpl. apply Z.quot_1_r. Qed.

Lemma tensor_of_int_fits (z : Z) :
  fits_int64 z -> tensor_of_int z = Ret (mkTensor [] [Qz z]).
Proof.
  unfold fits_int64, tensor_of_int. intro H.
  replace ((- 2 ^ 63 <=? z) && (z <? 2 ^ 63))%Z with true; [reflexivity|].
  symmetry. apply andb_true_iff. split; [apply Z.leb_le | apply Z.ltb_lt]; lia.
Qed.

Lemma tensor_eta {T : Type} (t : tensor T) : mkTensor (shape t) (data t) = t.
Proof. now destruct t. Qed.

Lemma wf_to_dense (c : csr_tensor) :
  shape (to_dense c) = [fst (csr_shape c); snd (csr_shape c)]
  /\ length (data (to_dense c)) = fst (csr_shape c) * snd (csr_shape c).
Proof.
  unfold to_dense. destruct (csr_shape c) as [m n]. simpl. split; trivial.
  apply length_flat_map_uniform. intros i _.
  now rewrite length_map, length_seq.
Qed.

(** A dense matrix survives the conversion to the sparse matrix that
    [torch2petsc] assembles. *)
Lemma dense_matrix_roundtrip (t : tensor Qc) (m n : nat) :
  shape t = [m; n] -> wf t -> fits_int32 (m, n) ->
  exists A_sp,
    to_sparse_csr t = Ret A_sp
    /\ csr_shape A_sp = (m, n)
    /\ Mat_dense (PETSc.mkMat (csr_shape A_sp)
                    (astype_int32 (crow_indices A_sp))
                    (astype_int32 (col_indices A_sp))
                    (csr_values A_sp))
       = t.
Proof.
  intros Hs W B. unfold wf in W. rewrite Hs in W. simpl in W.
  rewrite Nat.mul_1_r in W. unfold fits_int32 in B. simpl in B.
  unfold to_sparse_csr. rewrite Hs. eexists. split; [reflexivity|].
  split; [reflexivity|].
  cbn [csr_shape crow_indices col_indices csr_values].
  destruct (csr_indices_small m n (data t) B) as [B1 B2].
  rewrite (astype_int32_small _ B1), (astype_int32_small _ B2).
  unfold Mat_dense, sparse_csr_tensor. cbn [PETSc.getSize PETSc.indptr
    PETSc.indices PETSc.values].
  rewrite (to_dense_of_rows m n (data t) W). rewrite <- Hs.
  apply tensor_eta.
Qed.

(** ** Rounding to a binary floating-point format *)

Lemma this_Qc_pow2 (k : Z) : (this (Qc_pow2 k) == 2 ^ k)%Q.
Proof.
  destruct k as [|p|p]; unfold Qc_pow2.
  - reflexivity.
  - rewrite this_Qz. now rewrite Zpower_Qpower.
  - unfold Qcinv. cbn [this Q2Qc]. rewrite Qred_correct, this_Qz.
    rewrite Zpower_Qpower by easy.
    change (Z.neg p) with (- Z.pos p)%Z. now rewrite Qpower_opp.
Qed.

Lemma pow2_pos (k : Z) : (0 < 2 ^ k)%Q.
Proof. now apply Qpower_0_lt. Qed.

Lemma pow2_plus (j k : Z) : (2 ^ (j + k) == 2 ^ j * 2 ^ k)%Q.
Proof. now apply Qpower_plus. Qed.

Lemma pow2_Z (k : Z) : (0 <= k)%Z -> (inject_Z (2 ^ k) == 2 ^ k)%Q.
Proof. intro H. now rewrite Zpower_Qpower. Qed.

(** [round_half_even n d] is an integer nearest to [n / d]. *)
Lemma round_half_even_spec (n d : Z) :
  (0 <= n)%Z -> (0 < d)%Z ->
  let m := round_half_even n d in
  (- d <= 2 * m * d - 2 * n <= d)%Z
  /\ (forall K : Z, (n <= K * d)%Z -> (m <= K)%Z)
  /\ (forall K : Z, (K * d <= n)%Z -> (K <= m)%Z).
Proof.
  intros Hn Hd. unfold round_half_even.
  pose proof (Z.div_mod n d ltac:(lia)) as E.
  pose proof (Z.mod_pos_bound n d Hd) as B.
  set (q := (n / d)%Z) in *. set (r := (n mod d)%Z) in *. clearbody q r.
  destruct (Z.compare_spec (2 * r) d) as [C|C|C]; cbv zeta.
  - destruct (Z.even q); repeat split; intros; nia.
  - repeat split; intros; nia.
  - repeat split; intros; nia.
Qed.

Lemma log2_lower_Q (n : Z) : (0 < n)%Z -> (2 ^ Z.log2 n <= inject_Z n)%Q.
Proof.
  intro H. rewrite <- pow2_Z by apply Z.log2_nonneg.
  rewrite <- Zle_Qle. apply Z.log2_spec, H.
Qed.

Lemma log2_upper_Q (n : Z) :
  (0 < n)%Z -> (inject_Z n < 2 ^ (Z.log2 n + 1))%Q.
Proof.
  intro H. rewrite <- pow2_Z by (pose proof (Z.log2_nonneg n); lia).
  rewrite <- Zlt_Qlt. apply Z.log2_spec, H.
Qed.

(** [2 ^ floor_log2 n d <= n / d]. *)
Lemma floor_log2_lower (n d : Z) :
  (0 < n)%Z -> (0 < d)%Z ->
  (2 ^ floor_log2 n d * inject_Z d <= inject_Z n)%Q.
Proof.
  intros Hn Hd. unfold floor_log2.
  set (e := (Z.log2 n - Z.log2 d)%Z).
  assert (Below : (2 ^ (e - 1) * inject_Z d <= inject_Z n)%Q).
  { pose proof (log2_lower_Q n Hn) as L. pose proof (log2_upper_Q d Hd) as U.
    pose proof (pow2_pos (e - 1)) as P.
    apply (Qle_trans _ (2 ^ (e - 1) * 2 ^ (Z.log2 d + 1))); [nra|].
    rewrite <- pow2_plus.
    replace (e - 1 + (Z.log2 d + 1))%Z with (Z.log2 n) by (unfold e; lia).
    exact L. }
  assert (Hd' : (0 < inject_Z d)%Q) by (rewrite Zlt_Qlt in Hd; exact Hd).
  destruct (0 <=? e)%Z eqn:Se.
  - destruct (n <? d * 2 ^ e)%Z eqn:T; [exact Below|].
    apply Z.ltb_ge in T. apply Z.leb_le in Se.
    rewrite Zle_Qle, inject_Z_mult, pow2_Z in T by exact Se. lra.
  - destruct (n * 2 ^ (- e) <? d)%Z eqn:T; [exact Below|].
    apply Z.ltb_ge in T. apply Z.leb_gt in Se.
    rewrite Zle_Qle, inject_Z_mult, pow2_Z in T by lia.
    pose proof (pow2_pos e) as P.
    assert (I : (2 ^ e * 2 ^ (- e) == 1)%Q).
    { rewrite <- pow2_plus. replace (e + - e)%Z with 0%Z by lia. reflexivity. }
    set (a := (2 ^ e)%Q) in *. set (c := (2 ^ (- e))%Q) in *.
    clearbody a c.
    assert (X : (a * (inject_Z n * c) == inject_Z n)%Q)
      by (transitivity (inject_Z n * (a * c))%Q; [ring | rewrite I; ring]).
    rewrite <- X. apply Qmult_le_l; assumption.
Qed.

(** The integer that [round_half_even] returns, against the fraction
    seen as a rational number. *)
Lemma round_half_even_Q (n d : Z) (y : Q) :
  (0 <= n)%Z -> (0 < d)%Z -> (inject_Z n == y * inject_Z d)%Q ->
  let m := round_half_even n d in
  (-(1 # 2) <= inject_Z m - y <= 1 # 2)%Q
  /\ (forall K : Z, (y <= inject_Z K)%Q -> (m <= K)%Z)
  /\ (forall K : Z, (inject_Z K <= y)%Q -> (K <= m)%Z).
Proof.
  intros Hn Hd E m.
  destruct (round_half_even_spec n d Hn Hd) as (C1 & C2 & C3). fold m in C1, C2, C3.
  assert (Hd' : (0 < inject_Z d)%Q) by (rewrite Zlt_Qlt in Hd; exact Hd).
  split; [|split].
  - assert (Ca : (2 * n <= 2 * (m * d) + d)%Z) by lia.
    assert (Cb : (2 * (m * d) <= 2 * n + d)%Z) by lia.
    rewrite Zle_Qle in Ca, Cb.
    rewrite !inject_Z_plus, !inject_Z_mult in Ca, Cb.
    change (inject_Z 2) with 2%Q in *.
    set (D := inject_Z d) in *. set (M := inject_Z m) in *.
    set (N := inject_Z n) in *. clearbody D M N.
    assert (Z1 : (0 <= D * (2 * M - 2 * y + 1))%Q) by nra.
    assert (Z2 : (0 <= D * (2 * y - 2 * M + 1))%Q) by nra.
    set (u := (2 * M - 2 * y + 1)%Q) in *. set (w := (2 * y - 2 * M + 1)%Q) in *.
    assert (U : (0 <= u)%Q).
    { destruct (Qlt_le_dec u 0) as [L|L]; [|exact L]. exfalso.
      assert (D * u < 0)%Q by (clearbody u w; nra). lra. }
    assert (W : (0 <= w)%Q).
    { destruct (Qlt_le_dec w 0) as [L|L]; [|exact L]. exfalso.
      assert (D * w < 0)%Q by (clearbody u w; nra). lra. }
    unfold u, w in U, W. split; lra.
  - intros K H. apply C2. rewrite Zle_Qle, inject_Z_mult.
    set (D := inject_Z d) in *. set (N := inject_Z n) in *.
    set (k := inject_Z K) in *. clearbody D N k. nra.
  - intros K H. apply C3. rewrite Zle_Qle, inject_Z_mult.
    set (D := inject_Z d) in *. set (N := inject_Z n) in *.
    set (k := inject_Z K) in *. clearbody D N k. nra.
Qed.


Lemma pow2_cancel (k : Z) : (2 ^ k * 2 ^ (- k) == 1)%Q.
Proof.
  rewrite <- pow2_plus. replace (k + - k)%Z with 0%Z by lia. reflexivity.
Qed.

(** What [round_pos] computes: an integer significand [m] nearest to
    [x * 2 ^ sh], scaled back. *)
Lemma round_pos_struct (prec emin n d : Z) :
  (0 < n)%Z -> (0 < d)%Z ->
  let x := (inject_Z n / inject_Z d)%Q in
  let sh := (prec - 1 - Z.max (floor_log2 n d) emin)%Z in
  exists m : Z,
    round_pos prec emin n d = Qcmult (Qz m) (Qc_pow2 (- sh))
    /\ (-(1 # 2) <= inject_Z m - x * 2 ^ sh <= 1 # 2)%Q
    /\ (forall K : Z, (x * 2 ^ sh <= inject_Z K)%Q -> (m <= K)%Z)
    /\ (forall K : Z, (inject_Z K <= x * 2 ^ sh)%Q -> (K <= m)%Z).
Proof.
  intros Hn Hd x sh.
  assert (Hd' : (0 < inject_Z d)%Q) by (rewrite Zlt_Qlt in Hd; exact Hd).
  assert (Ex : (x * inject_Z d == inject_Z n)%Q)
    by (unfold x; field; lra).
  unfold round_pos. fold sh.
  destruct (0 <=? sh)%Z eqn:S.
  - apply Z.leb_le in S. eexists. split; [reflexivity|].
    apply round_half_even_Q.
    + apply Z.mul_nonneg_nonneg; [lia | apply Z.pow_nonneg; lia].
    + exact Hd.
    + rewrite inject_Z_mult, pow2_Z by exact S. rewrite <- Ex. ring.
  - apply Z.leb_gt in S. eexists. split; [reflexivity|].
    apply round_half_even_Q.
    + lia.
    + apply Z.mul_pos_pos; [exact Hd | apply Z.pow_pos_nonneg; lia].
    + rewrite inject_Z_mult, pow2_Z by lia.
      rewrite <- Ex.
      transitivity (x * inject_Z d * (2 ^ sh * 2 ^ (- sh)))%Q; [|ring].
      rewrite pow2_cancel. ring.
Qed.

Lemma this_scaled (m k : Z) :
  (this (Qcmult (Qz m) (Qc_pow2 k)) == inject_Z m * 2 ^ k)%Q.
Proof.
  unfold Qcmult. cbn [this Q2Qc]. rewrite Qred_correct, this_Qz.
  now rewrite this_Qc_pow2.
Qed.

Lemma floor_log2_lower_x (n d : Z) :
  (0 < n)%Z -> (0 < d)%Z ->
  (2 ^ floor_log2 n d <= inject_Z n / inject_Z d)%Q.
Proof.
  intros Hn Hd. pose proof (floor_log2_lower n d Hn Hd) as L.
  assert (Hd' : (0 < inject_Z d)%Q) by (rewrite Zlt_Qlt in Hd; exact Hd).
  apply Qle_shift_div_l; assumption.
Qed.

(** In the normal range the significand has its leading bit. *)
Lemma round_pos_normal (prec emin n d m : Z) :
  (1 <= prec)%Z -> (0 < n)%Z -> (0 < d)%Z ->
  (emin <= floor_log2 n d)%Z ->
  let x := (inject_Z n / inject_Z d)%Q in
  let sh := (prec - 1 - floor_log2 n d)%Z in
  (forall K : Z, (inject_Z K <= x * 2 ^ sh)%Q -> (K <= m)%Z) ->
  (2 ^ (prec - 1) <= m)%Z.
Proof.
  intros Hp Hn Hd He x sh H. apply H.
  rewrite pow2_Z by lia.
  replace (prec - 1)%Z with (floor_log2 n d + sh)%Z by (unfold sh; lia).
  rewrite pow2_plus.
  pose proof (floor_log2_lower_x n d Hn Hd) as L. fold x in L.
  pose proof (pow2_pos sh) as P.
  set (a := (2 ^ floor_log2 n d)%Q) in *. set (c := (2 ^ sh)%Q) in *.
  clearbody a c x. nra.
Qed.

Lemma representable_lt (prec emin : Z) (M k : Z) :
  (0 <= prec)%Z -> (0 <= M < 2 ^ prec)%Z ->
  (inject_Z M * 2 ^ k < 2 ^ (prec + k))%Q.
Proof.
  intros Hp [_ HM]. rewrite pow2_plus.
  rewrite Zlt_Qlt, pow2_Z in HM by exact Hp.
  pose proof (pow2_pos k) as P.
  set (a := (2 ^ prec)%Q) in *. set (c := (2 ^ k)%Q) in *.
  set (u := inject_Z M) in *. clearbody a c u. nra.
Qed.

Lemma scaled_integer (M k sh : Z) :
  (0 <= k + sh)%Z ->
  (inject_Z (M * 2 ^ (k + sh)) == inject_Z M * 2 ^ k * 2 ^ sh)%Q.
Proof.
  intro H. rewrite inject_Z_mult, pow2_Z by exact H.
  rewrite pow2_plus. ring.
Qed.

(** The properties of [round_pos] the comparisons rest on. *)
Lemma round_pos_props (prec emin n d : Z) :
  (1 <= prec)%Z -> (0 < n)%Z -> (0 < d)%Z ->
  let x := (inject_Z n / inject_Z d)%Q in
  let R := this (round_pos prec emin n d) in
  (0 <= R)%Q
  /\ (forall t, representable prec emin t -> (x <= t)%Q -> (R <= t)%Q)
  /\ (forall t, representable prec emin t -> (t <= x)%Q -> (t <= R)%Q)
  /\ (exists sh m : Z,
         (R == inject_Z m * 2 ^ (- sh))%Q
         /\ (Qabs (R - x) <= 2 ^ (- sh - 1))%Q
         /\ (sh <= prec - 1 - emin)%Z
         /\ ((2 ^ (prec - 1) <= m)%Z \/ sh = (prec - 1 - emin)%Z)).
Proof.
  intros Hp Hn Hd x R.
  destruct (round_pos_struct prec emin n d Hn Hd) as (m & E & B & Up & Lo).
  fold x in B, Up, Lo.
  set (e := Z.max (floor_log2 n d) emin) in *.
  set (sh := (prec - 1 - e)%Z) in *.
  assert (ER : (R == inject_Z m * 2 ^ (- sh))%Q)
    by (unfold R; rewrite E; apply this_scaled).
  pose proof (pow2_pos sh) as Ps. pose proof (pow2_pos (- sh)) as Pn.
  pose proof (pow2_cancel sh) as Pc.
  assert (Hx : (0 < x)%Q).
  { unfold x. apply Qlt_shift_div_l.
    - rewrite Zlt_Qlt in Hd; exact Hd.
    - rewrite Zlt_Qlt in Hn. change (inject_Z 0) with 0%Q in Hn. lra. }
  assert (Hm : (0 <= m)%Z).
  { apply Lo. change (inject_Z 0) with 0%Q.
    set (c := (2 ^ sh)%Q) in *. clearbody c x. nra. }
  assert (Normal : (emin <= floor_log2 n d)%Z -> (2 ^ (prec - 1) <= m)%Z).
  { intro He. apply (round_pos_normal prec emin n d m Hp Hn Hd He).
    replace (prec - 1 - floor_log2 n d)%Z with sh by (unfold sh, e; lia).
    exact Lo. }
  assert (Scale : forall t M k,
             (t == inject_Z M * 2 ^ k)%Q -> (0 <= k + sh)%Z ->
             (inject_Z (M * 2 ^ (k + sh)) == t * 2 ^ sh)%Q).
  { intros t M k Et Hk. rewrite (scaled_integer M k sh Hk), Et. reflexivity. }
  assert (Back : forall K : Z, (inject_Z K * 2 ^ (- sh) <= R)%Q <-> (K <= m)%Z).
  { intro K. rewrite ER, Zle_Qle.
    set (c := (2 ^ (- sh))%Q) in *. clearbody c. split; intro; nra. }
  assert (Back' : forall K : Z, (R <= inject_Z K * 2 ^ (- sh))%Q <-> (m <= K)%Z).
  { intro K. rewrite ER, Zle_Qle.
    set (c := (2 ^ (- sh))%Q) in *. clearbody c. split; intro; nra. }
  assert (Unscale : forall t, (t * 2 ^ sh * 2 ^ (- sh) == t)%Q).
  { intro t. transitivity (t * (2 ^ sh * 2 ^ (- sh)))%Q; [ring|].
    rewrite Pc. ring. }
  split; [|split; [|split]].
  - rewrite ER. rewrite Zle_Qle in Hm. change (inject_Z 0) with 0%Q in Hm.
    set (c := (2 ^ (- sh))%Q) in *. clearbody c. nra.
  - intros t (M & k & HM & Hk & Et) Hxt.
    assert (Hks : (0 <= k + sh)%Z).
    { destruct (Z.le_gt_cases (floor_log2 n d) emin) as [C|C].
      - unfold sh, e. lia.
      - assert (Hlt : (2 ^ floor_log2 n d < 2 ^ (prec + k))%Q).
        { apply (Qle_lt_trans _ x); [apply floor_log2_lower_x; trivial|].
          apply (Qle_lt_trans _ t); [exact Hxt|]. rewrite Et.
          apply (representable_lt prec emin); [lia | exact HM]. }
        apply Qpower_lt_compat_l_inv in Hlt; [|reflexivity].
        unfold sh, e. lia. }
    pose proof (Scale t M k Et Hks) as EK.
    assert (HK : (m <= M * 2 ^ (k + sh))%Z).
    { apply Up. rewrite EK. set (c := (2 ^ sh)%Q) in *. clearbody c x. nra. }
    apply Back' in HK. rewrite EK, Unscale in HK. exact HK.
  - intros t (M & k & HM & Hk & Et) Htx.
    destruct (Z.le_gt_cases 0 (k + sh)) as [Hks|Hks].
    + pose proof (Scale t M k Et Hks) as EK.
      assert (HK : (M * 2 ^ (k + sh) <= m)%Z).
      { apply Lo. rewrite EK. set (c := (2 ^ sh)%Q) in *. clearbody c x. nra. }
      apply Back in HK. rewrite EK, Unscale in HK. exact HK.
    + assert (C : (emin <= floor_log2 n d)%Z) by (unfold sh, e in Hks; lia).
      pose proof (Normal C) as HN.
      assert (Ee : e = floor_log2 n d) by (unfold e; lia).
      apply Qlt_le_weak.
      apply (Qlt_le_trans _ (2 ^ (prec + k))).
      { rewrite Et. apply (representable_lt prec emin); [lia | exact HM]. }
      apply (Qle_trans _ (2 ^ (prec - 1 + - sh))).
      { apply Qpower_le_compat_l; [lia | discriminate]. }
      rewrite pow2_plus, <- pow2_Z by lia.
      rewrite ER. rewrite Zle_Qle in HN.
      set (c := (2 ^ (- sh))%Q) in *. clearbody c. nra.
  - exists sh, m. split; [exact ER|]. split; [|split; [unfold sh, e; lia|]].
    + replace (- sh - 1)%Z with (- sh + - 1)%Z by lia.
      rewrite pow2_plus. change (2 ^ (-1))%Q with (1 # 2)%Q.
      rewrite ER. apply Qabs_Qle_condition.
      assert (Ex : (x == x * 2 ^ sh * 2 ^ (- sh))%Q) by (symmetry; apply Unscale).
      set (c := (2 ^ (- sh))%Q) in *. set (y := (x * 2 ^ sh)%Q) in *.
      clearbody c y. rewrite Ex. destruct B as [B1 B2]. split; nra.
    + destruct (Z.le_gt_cases emin (floor_log2 n d)) as [C|C].
      * left. now apply Normal.
      * right. unfold sh, e. lia.
Qed.

Lemma representable_nonneg (prec emin : Z) (t : Q) :
  representable prec emin t -> (0 <= t)%Q.
Proof.
  intros (M & k & [HM _] & _ & E). rewrite E.
  rewrite Zle_Qle in HM. change (inject_Z 0) with 0%Q in HM.
  pose proof (pow2_pos k). set (c := (2 ^ k)%Q) in *. clearbody c. nra.
Qed.

(** The three cases of [round_binary]. *)
Lemma round_binary_cases (prec emin : Z) (q : Qc) :
  (1 <= prec)%Z ->
  (this q == 0 /\ round_binary prec emin q = q)%Q
  \/ (exists n d : Z,
        (0 < n)%Z /\ (0 < d)%Z
        /\ (this q == inject_Z n / inject_Z d)%Q
        /\ round_binary prec emin q = round_pos prec emin n d)
  \/ (exists n d : Z,
        (0 < n)%Z /\ (0 < d)%Z
        /\ (this q == - (inject_Z n / inject_Z d))%Q
        /\ (this (round_binary prec emin q)
            == - this (round_pos prec emin n d))%Q).
Proof.
  intro Hp. unfold round_binary. destruct q as [[num den] Hc]. cbn [this Qnum Qden].
  destruct num as [|n|n].
  - left. split; reflexivity.
  - right. left. exists (Z.pos n), (Z.pos den).
    repeat split; try reflexivity. apply Qmake_Qdiv.
  - right. right. exists (Z.pos n), (Z.pos den).
    repeat split; try reflexivity.
    + rewrite <- Qmake_Qdiv. reflexivity.
    + unfold Qcopp. cbn [this Q2Qc]. apply Qred_correct.
Qed.

Lemma fraction_pos (n d : Z) :
  (0 < n)%Z -> (0 < d)%Z -> (0 < inject_Z n / inject_Z d)%Q.
Proof.
  intros Hn Hd. apply Qlt_shift_div_l.
  - rewrite Zlt_Qlt in Hd; exact Hd.
  - rewrite Zlt_Qlt in Hn. change (inject_Z 0) with 0%Q in Hn. lra.
Qed.

Section RoundBinary.
Variables prec emin : Z.
Hypothesis Hp : (1 <= prec)%Z.

Lemma round_binary_nonneg (q : Qc) :
  (0 <= this q)%Q -> (0 <= this (round_binary prec emin q))%Q.
Proof.
  intro H.
  destruct (round_binary_cases prec emin q Hp)
    as [[E0 E]|[(n & d & Hn & Hd & Eq & E)|(n & d & Hn & Hd & Eq & E)]].
  - now rewrite E.
  - rewrite E.
    destruct (round_pos_props prec emin n d Hp Hn Hd) as (P0 & _). exact P0.
  - pose proof (fraction_pos n d Hn Hd). lra.
Qed.

(** Rounding does not cross a number of the format. *)
Lemma round_binary_below (q : Qc) (t : Q) :
  representable prec emin t -> (Qabs (this q) <= t)%Q ->
  (Qabs (this (round_binary prec emin q)) <= t)%Q.
Proof.
  intros Ht H.
  pose proof (representable_nonneg prec emin t Ht) as T0.
  destruct (round_binary_cases prec emin q Hp)
    as [[E0 E]|[(n & d & Hn & Hd & Eq & E)|(n & d & Hn & Hd & Eq & E)]].
  - now rewrite E.
  - rewrite E.
    destruct (round_pos_props prec emin n d Hp Hn Hd) as (P0 & P1 & _).
    rewrite Qabs_pos by exact P0. apply P1; [exact Ht|].
    rewrite Eq in H. pose proof (fraction_pos n d Hn Hd).
    rewrite Qabs_pos in H by lra. exact H.
  - rewrite E.
    destruct (round_pos_props prec emin n d Hp Hn Hd) as (P0 & P1 & _).
    rewrite Qabs_opp, Qabs_pos by exact P0. apply P1; [exact Ht|].
    rewrite Eq in H. pose proof (fraction_pos n d Hn Hd).
    rewrite Qabs_opp, Qabs_pos in H by lra. exact H.
Qed.

Lemma round_binary_above (q : Qc) (t : Q) :
  representable prec emin t -> (t <= this q)%Q ->
  (t <= this (round_binary prec emin q))%Q.
Proof.
  intros Ht H.
  pose proof (representable_nonneg prec emin t Ht) as T0.
  destruct (round_binary_cases prec emin q Hp)
    as [[E0 E]|[(n & d & Hn & Hd & Eq & E)|(n & d & Hn & Hd & Eq & E)]].
  - now rewrite E.
  - rewrite E.
    destruct (round_pos_props prec emin n d Hp Hn Hd) as (_ & _ & P2 & _).
    apply P2; [exact Ht|]. now rewrite <- Eq.
  - pose proof (fraction_pos n d Hn Hd). lra.
Qed.

(** The rounding error: half a unit in the last place of the result. *)
Lemma round_binary_error (q : Qc) :
  round_binary prec emin q = q
  \/ exists sh m : Z,
       (Qabs (this (round_binary prec emin q)) == inject_Z m * 2 ^ (- sh))%Q
       /\ (Qabs (this (round_binary prec emin q) - this q)
           <= 2 ^ (- sh - 1))%Q
       /\ (sh <= prec - 1 - emin)%Z
       /\ ((2 ^ (prec - 1) <= m)%Z \/ sh = (prec - 1 - emin)%Z).
Proof.
  destruct (round_binary_cases prec emin q Hp)
    as [[E0 E]|[(n & d & Hn & Hd & Eq & E)|(n & d & Hn & Hd & Eq & E)]].
  - now left.
  - right. rewrite E.
    destruct (round_pos_props prec emin n d Hp Hn Hd)
      as (P0 & _ & _ & sh & m & ER & Err & C).
    exists sh, m. split; [|split; [|exact C]].
    + now rewrite Qabs_pos.
    + now rewrite Eq.
  - right.
    destruct (round_pos_props prec emin n d Hp Hn Hd)
      as (P0 & _ & _ & sh & m & ER & Err & C).
    exists sh, m. split; [|split; [|exact C]].
    + now rewrite E, Qabs_opp, Qabs_pos.
    + rewrite E, Eq.
      setoid_replace (- this (round_pos prec emin n d)
                      - - (inject_Z n / inject_Z d))%Q
        with (- (this (round_pos prec emin n d) - inject_Z n / inject_Z d))%Q
        by ring.
      now rewrite Qabs_opp.
Qed.

End RoundBinary.

(** ** [np.isclose] in binary64 *)

Lemma this_Qcminus (a c : Qc) : (this (Qcminus a c) == this a - this c)%Q.
Proof.
  unfold Qcminus, Qcplus, Qcopp, Q2Qc. cbn [this].
  rewrite !Qred_correct. reflexivity.
Qed.

Lemma this_Qcplus (a c : Qc) : (this (Qcplus a c) == this a + this c)%Q.
Proof. unfold Qcplus. cbn [this Q2Qc]. apply Qred_correct. Qed.

Lemma this_Qcmult (a c : Qc) : (this (Qcmult a c) == this a * this c)%Q.
Proof. unfold Qcmult. cbn [this Q2Qc]. apply Qred_correct. Qed.

Lemma this_Qcabs (c : Qc) : (this (Q2Qc (Qabs (this c))) == Qabs (this c))%Q.
Proof. cbn [this Q2Qc]. apply Qred_correct. Qed.

Lemma py_1e_8_representable : representable 53 (-1022) (this py_1e_8).
Proof.
  exists 6044629098073146%Z, (-79)%Z.
  split; [split; [lia | reflexivity]|]. split; [lia|].
  vm_compute. reflexivity.
Qed.

Lemma py_1e_5_pos : (0 <= this py_1e_5)%Q.
Proof. vm_compute. discriminate. Qed.

Lemma pow2_representable (k : Z) :
  (-1074 <= k)%Z -> representable 53 (-1022) (2 ^ k).
Proof.
  intro H. exists 1%Z, k. split; [split; [lia | reflexivity]|].
  split; [lia|]. change (inject_Z 1) with 1%Q. ring.
Qed.

(** The right-hand side of the test, [atol + rtol * abs(c)] as numpy
    computes it. *)
Lemma isclose_bound_nonneg (c : Qc) :
  (0 <= this (round_binary64 (Qcmult py_1e_5 (Q2Qc (Qabs (this c))))))%Q.
Proof.
  apply round_binary_nonneg; [lia|].
  rewrite this_Qcmult, this_Qcabs.
  apply Qmult_le_0_compat; [apply py_1e_5_pos | apply Qabs_nonneg].
Qed.

Lemma isclose_bound_atol (c : Qc) (t : Q) :
  representable 53 (-1022) t -> (t <= this py_1e_8)%Q ->
  (t <= this (round_binary64
                (Qcplus py_1e_8
                   (round_binary64
                      (Qcmult py_1e_5 (Q2Qc (Qabs (this c))))))))%Q.
Proof.
  intros Ht H. apply round_binary_above; [lia | exact Ht|].
  rewrite this_Qcplus. pose proof (isclose_bound_nonneg c). lra.
Qed.

Lemma isclose_bound_rtol (c : Qc) (t : Q) :
  representable 53 (-1022) t -> (t <= this py_1e_5 * Qabs (this c))%Q ->
  (t <= this (round_binary64
                (Qcplus py_1e_8
                   (round_binary64
                      (Qcmult py_1e_5 (Q2Qc (Qabs (this c))))))))%Q.
Proof.
  intros Ht H. apply round_binary_above; [lia | exact Ht|].
  rewrite this_Qcplus.
  assert (I : (t <= this (round_binary64
                            (Qcmult py_1e_5 (Q2Qc (Qabs (this c))))))%Q).
  { apply round_binary_above; [lia | exact Ht|].
    now rewrite this_Qcmult, this_Qcabs. }
  assert (A0 : (0 <= this py_1e_8)%Q) by (vm_compute; discriminate).
  lra.
Qed.

Lemma np_isclose_refl (r : Qc) : np_isclose r r = true.
Proof.
  unfold np_isclose. apply Qle_bool_iff.
  replace (Qcminus r r) with (Q2Qc 0) by (symmetry; apply Qcplus_opp_r).
  change (Qabs (this (round_binary64 (Q2Qc 0)))) with 0%Q.
  apply (isclose_bound_atol r 0).
  - exists 0%Z, 0%Z. split; [split; [lia | reflexivity]|]. split; [lia|].
    reflexivity.
  - vm_compute. discriminate.
Qed.

Lemma np_isclose_below_atol (a c : Qc) :
  Qcle (Qz 0) a -> Qcle a np_atol -> Qcle (Qz 0) c -> Qcle c np_atol ->
  np_isclose a c = true.
Proof.
  unfold Qcle. cbn [this Qz np_atol Q2Qc]. rewrite !Qred_correct.
  intros H1 H2 H3 H4. unfold np_isclose. apply Qle_bool_iff.
  apply (Qle_trans _ (this py_1e_8)).
  - apply round_binary_below; [lia | apply py_1e_8_representable|].
    rewrite this_Qcminus.
    assert (A : (1 # 100000000 <= this py_1e_8)%Q) by (vm_compute; discriminate).
    apply Qabs_Qle_condition. unfold inject_Z in *. split; lra.
  - apply isclose_bound_atol; [apply py_1e_8_representable | apply Qle_refl].
Qed.

(** A Python float and its rounding to binary32 are close for
    [np.isclose]: the rounding error is at most half a unit in the last
    place, [2^-24] of the value or [2^-150], far below the
    tolerances. *)
Lemma np_isclose_rounded (r : Qc) : np_isclose r (round_binary32 r) = true.
Proof.
  unfold round_binary32.
  destruct (round_binary_error 24 (-126) ltac:(lia) r)
    as [E|(sh & m & Em & Err & Hsh & C)].
  - rewrite E. apply np_isclose_refl.
  - unfold np_isclose. apply Qle_bool_iff.
    set (r' := round_binary 24 (-126) r) in *.
    assert (Ht : representable 53 (-1022) (2 ^ (- sh - 1)))
      by (apply pow2_representable; lia).
    apply (Qle_trans _ (2 ^ (- sh - 1))).
    + apply round_binary_below; [lia | exact Ht|].
      rewrite this_Qcminus.
      setoid_replace (this r - this r')%Q with (- (this r' - this r))%Q by ring.
      now rewrite Qabs_opp.
    + destruct C as [C|C].
      * apply isclose_bound_rtol; [exact Ht|].
        rewrite Em.
        replace (- sh - 1)%Z with (- sh + - 1)%Z by lia.
        rewrite pow2_plus. change (2 ^ (-1))%Q with (1 # 2)%Q.
        assert (F : (1 # 2 <= this py_1e_5 * inject_Z (2 ^ (24 - 1)))%Q)
          by (vm_compute; discriminate).
        rewrite Zle_Qle in C.
        pose proof (pow2_pos (- sh)) as P. pose proof py_1e_5_pos as P5.
        set (u := this py_1e_5) in *. set (w := (2 ^ (- sh))%Q) in *.
        set (k := inject_Z (2 ^ (24 - 1))) in *. set (mm := inject_Z m) in *.
        clearbody u w k mm.
        apply (Qle_trans _ (u * k * w)); [nra|].
        assert (0 <= u * w)%Q by nra. nra.
      * apply isclose_bound_atol; [exact Ht|]. subst sh.
        vm_compute. discriminate.
Qed.

Lemma sparse_roundtrip (dt : dtype) (T : PETScLinearSystemTask.t) :
  sparse_task_ok T ->
  exists (D : PyTorchLinearSystemTask.t) (T2 : PETScLinearSystemTask.t),
    petsc2torch dt T = Ret D
    /\ torch2petsc D = Ret T2
    /\ sparse_payload_eq T2 T
    /\ PETScLinearSystemTask.rtol T2
       = cast_float dt (PETScLinearSystemTask.rtol T).
Proof.
  intros [Hi Hs]. destruct T as [p A b x r k pr]. cbn [PETScLinearSystemTask.A
    PETScLinearSystemTask.maxiter] in Hi, Hs.
  unfold petsc2torch. cbn [PETScLinearSystemTask.A PETScLinearSystemTask.b
    PETScLinearSystemTask.x PETScLinearSystemTask.rtol
    PETScLinearSystemTask.maxiter PETScLinearSystemTask.params
    PETSc.getValuesCSR].
  rewrite (tensor_of_int_fits k Hi). cbn [bind].
  fold (Mat_dense A).
  destruct (wf_to_dense (sparse_csr_tensor (PETSc.indptr A) (PETSc.indices A)
                           (PETSc.values A) (PETSc.getSize A))) as [Sd Ld].
  fold (Mat_dense A) in Sd, Ld. cbn [sparse_csr_tensor csr_shape] in Sd, Ld.
  destruct (PETSc.getSize A) as [m n] eqn:Esz. cbn [fst snd] in Sd, Ld.
  destruct (dense_matrix_roundtrip (Mat_dense A) m n Sd) as (A_sp & E1 & E2 & E3).
  { unfold wf. rewrite Sd, Ld. simpl. lia. }
  { exact Hs. }
  eexists. eexists. split; [reflexivity|].
  unfold torch2petsc. cbn [PyTorchLinearSystemTask.A PyTorchLinearSystemTask.b
    PyTorchLinearSystemTask.x PyTorchLinearSystemTask.rtol
    PyTorchLinearSystemTask.maxiter].
  rewrite E1. cbn [bind tensor_of_float float_of_tensor int_of_tensor data].
  rewrite Qc_trunc_Qz. split; [reflexivity|].
  split; [|reflexivity].
  unfold sparse_payload_eq. cbn [PETScLinearSystemTask.A PETScLinearSystemTask.b
    PETScLinearSystemTask.x PETScLinearSystemTask.maxiter PETSc.getSize
    tensor_of_array data].
  repeat split.
  - now rewrite E2.
  - exact E3.
  - now destruct x.
Qed.

Lemma dense_roundtrip (dt : dtype) (D : PyTorchLinearSystemTask.t) :
  dense_task_ok dt D ->
  exists (T : PETScLinearSystemTask.t) (D2 : PyTorchLinearSystemTask.t),
    torch2petsc D = Ret T
    /\ petsc2torch dt T = Ret D2
    /\ dense_payload_eq D2 D.
Proof.
  intros ((m & n & SA & WA & BA) & Hb & Hx & (r & Er & _ & Hr) & (z & Ez & Hz)).
  destruct D as [p A b x rt mi]. cbn [PyTorchLinearSystemTask.A
    PyTorchLinearSystemTask.b PyTorchLinearSystemTask.x
    PyTorchLinearSystemTask.rtol PyTorchLinearSystemTask.maxiter] in *.
  subst rt mi.
  destruct (dense_matrix_roundtrip A m n SA WA BA) as (A_sp & E1 & E2 & E3).
  unfold torch2petsc. cbn [PyTorchLinearSystemTask.A PyTorchLinearSystemTask.b
    PyTorchLinearSystemTask.x PyTorchLinearSystemTask.rtol
    PyTorchLinearSystemTask.maxiter].
  rewrite E1. cbn [bind float_of_tensor int_of_tensor data].
  rewrite Qc_trunc_Qz.
  eexists. eexists. split; [reflexivity|].
  unfold petsc2torch. cbn [PETScLinearSystemTask.A PETScLinearSystemTask.b
    PETScLinearSystemTask.x PETScLinearSystemTask.rtol
    PETScLinearSystemTask.maxiter PETScLinearSystemTask.params
    PETSc.getValuesCSR].
  rewrite (tensor_of_int_fits z Hz). cbn [bind].
  split; [reflexivity|].
  unfold dense_payload_eq. cbn [PyTorchLinearSystemTask.A
    PyTorchLinearSystemTask.b PyTorchLinearSystemTask.x
    PyTorchLinearSystemTask.rtol PyTorchLinearSystemTask.maxiter].
  repeat split.
  - exact E3.
  - unfold tensor_of_array. unfold is_vector in Hb. rewrite <- Hb.
    apply tensor_eta.
  - destruct x as [gt|]; [|reflexivity].
    specialize (Hx gt eq_refl). unfold tensor_of_array, is_vector in *.
    rewrite <- Hx. now rewrite tensor_eta.
  - unfold tensor_of_float. now rewrite Hr.
Qed.


(** ** Task equality where the ground truths are both present or both
    absent *)

Lemma list_eqb_iff {T : Type} (eqb : T -> T -> bool) :
  (forall a c, eqb a c = true <-> a = c) ->
  forall l1 l2, list_eqb eqb l1 l2 = true <-> l1 = l2.
Proof.
  intros H l1. induction l1 as [|a l1 IH]; intros [|c l2]; simpl;
    try (split; [discriminate | discriminate]); [tauto|].
  rewrite andb_true_iff, H, IH. split.
  - now intros [-> ->].
  - intro E. now injection E.
Qed.

Lemma Qc_eqb_iff (a c : Qc) : Qc_eqb a c = true <-> a = c.
Proof.
  split; [apply Qc_eqb_true|]. intros ->. unfold Qc_eqb, Qc_eq_bool.
  now destruct (Qc_eq_dec c c).
Qed.

Lemma tensor_equal_iff (a c : tensor Qc) : tensor_equal a c = true <-> a = c.
Proof.
  unfold tensor_equal.
  rewrite andb_true_iff, (list_eqb_iff Nat.eqb Nat.eqb_eq),
    (list_eqb_iff Qc_eqb Qc_eqb_iff).
  destruct a, c; simpl. split.
  - now intros [-> ->].
  - intro E. now injection E.
Qed.

(** Between two dense tasks that both have, or both lack, a ground
    truth, [__eq__] returns a boolean, and it is [True] exactly when
    [A], [b], [x], [rtol] and [maxiter] are equal entry by entry.  This
    is about tensors of numbers, as all tensors of the model are: with
    a NaN entry [torch.equal] is [False] whatever the other side. *)
Lemma dense_eq_spec (self other : PyTorchLinearSystemTask.t) :
  is_None (PyTorchLinearSystemTask.x self)
  = is_None (PyTorchLinearSystemTask.x other) ->
  exists r : bool,
    PyTorchLinearSystemTask.__eq__ self other = Ret r
    /\ (r = true <-> dense_payload_eq self other).
Proof.
  destruct self as [p A b x rt mi], other as [p' A' b' x' rt' mi'].
  unfold PyTorchLinearSystemTask.__eq__, dense_payload_eq, torch_equal,
    py_and, py_or. simpl.
  pose proof (tensor_equal_iff A A') as HA.
  pose proof (tensor_equal_iff b b') as Hb.
  pose proof (tensor_equal_iff rt rt') as Hr.
  pose proof (tensor_equal_iff mi mi') as Hm.
  intro Hx.
  destruct (tensor_equal A A');
    [| eexists; split; [reflexivity|]; split; [discriminate|];
       intros (E & _); apply HA in E; discriminate ].
  destruct (tensor_equal b b');
    [| eexists; split; [reflexivity|]; split; [discriminate|];
       intros (_ & E & _); apply Hb in E; discriminate ].
  destruct x as [gt|], x' as [gt'|]; try discriminate; simpl.
  - pose proof (tensor_equal_iff gt gt') as Hg.
    destruct (tensor_equal gt gt');
      [| eexists; split; [reflexivity|]; split; [discriminate|];
         intros (_ & _ & E & _); injection E as E; apply Hg in E;
         discriminate ].
    destruct (tensor_equal rt rt');
      [| eexists; split; [reflexivity|]; split; [discriminate|];
         intros (_ & _ & _ & E & _); apply Hr in E; discriminate ].
    eexists. split; [reflexivity|]. rewrite Hm.
    split; [intro E | tauto].
    repeat split; try tauto. f_equal. tauto.
  - destruct (tensor_equal rt rt');
      [| eexists; split; [reflexivity|]; split; [discriminate|];
         intros (_ & _ & _ & E & _); apply Hr in E; discriminate ].
    eexists. split; [reflexivity|]. rewrite Hm.
    split; [intro E | tauto].
    repeat split; tauto.
Qed.

(** *** Sparse tasks *)

Lemma Mat_equal_sizes (m1 m2 : PETSc.Mat) :
  PETSc.getSize m1 <> PETSc.getSize m2 ->
  PETSc.Mat_equal m1 m2 = Raise RuntimeError.
Proof.
  intro N. unfold PETSc.Mat_equal.
  destruct (PETSc.getSize m1) as [r1 c1], (PETSc.getSize m2) as [r2 c2].
  cbn [fst snd].
  destruct (Nat.eqb_spec r1 r2) as [->|]; [|reflexivity].
  destruct (Nat.eqb_spec c1 c2) as [->|]; [|reflexivity].
  now contradiction N.
Qed.

Lemma Mat_equal_returns (m1 m2 : PETSc.Mat) :
  PETSc.getSize m1 = PETSc.getSize m2 ->
  exists r : bool,
    PETSc.Mat_equal m1 m2 = Ret r /\ (r = true <-> m1 = m2).
Proof.
  destruct m1 as [sz1 p1 i1 v1], m2 as [sz2 p2 i2 v2].
  cbn [PETSc.getSize]. intros <-. unfold PETSc.Mat_equal.
  cbn [PETSc.getSize PETSc.indptr PETSc.indices PETSc.values].
  rewrite !Nat.eqb_refl. cbn [andb]. eexists. split; [reflexivity|].
  pose proof (list_eqb_iff Nat.eqb Nat.eqb_eq p1 p2) as Hp.
  pose proof (list_eqb_iff Nat.eqb Nat.eqb_eq i1 i2) as Hi.
  pose proof (list_eqb_iff Qc_eqb Qc_eqb_iff v1 v2) as Hv.
  split.
  - intro E. apply andb_prop in E as [E Ev]. apply andb_prop in E as [Ep Ei].
    f_equal; tauto.
  - intro E. injection E as Ep Ei Ev.
    apply andb_true_intro. split; [apply andb_true_intro; split|]; tauto.
Qed.

(** Between two sparse tasks, [__eq__] starts with [Mat.equal], which
    raises when the two matrices differ in size: the comparison does not
    return [False] then.  For matrices of the same size, and ground
    truths both present or both absent, it returns a boolean; that
    boolean is [True] only when matrix (stored CSR arrays), [b], [x] and
    [maxiter] are equal, and it is [True] when, besides, the two [rtol]
    are the same number. *)
Theorem sparse_eq_spec :
  forall self other : PETScLinearSystemTask.t,
    (PETSc.getSize (PETScLinearSystemTask.A self)
     <> PETSc.getSize (PETScLinearSystemTask.A other) ->
     PETScLinearSystemTask.__eq__ self other = Raise RuntimeError)
    /\
    (PETSc.getSize (PETScLinearSystemTask.A self)
     = PETSc.getSize (PETScLinearSystemTask.A other) ->
     is_None (PETScLinearSystemTask.x self)
     = is_None (PETScLinearSystemTask.x other) ->
     exists r : bool,
       PETScLinearSystemTask.__eq__ self other = Ret r
       /\ (r = true ->
           PETScLinearSystemTask.A self = PETScLinearSystemTask.A other
           /\ PETScLinearSystemTask.b self = PETScLinearSystemTask.b other
           /\ PETScLinearSystemTask.x self = PETScLinearSystemTask.x other
           /\ PETScLinearSystemTask.maxiter self
              = PETScLinearSystemTask.maxiter other)
       /\ (PETScLinearSystemTask.A self = PETScLinearSystemTask.A other ->
           PETScLinearSystemTask.b self = PETScLinearSystemTask.b other ->
           PETScLinearSystemTask.x self = PETScLinearSystemTask.x other ->
           PETScLinearSystemTask.rtol self = PETScLinearSystemTask.rtol other ->
           PETScLinearSystemTask.maxiter self
           = PETScLinearSystemTask.maxiter other ->
           r = true)).
Proof.
  intros self other. split.
  - intro N. unfold PETScLinearSystemTask.__eq__, py_and.
    now rewrite (Mat_equal_sizes _ _ N).
  - destruct self as [p A b x rt mi pr], other as [p' A' b' x' rt' mi' pr'].
    cbn [PETScLinearSystemTask.A PETScLinearSystemTask.b
         PETScLinearSystemTask.x PETScLinearSystemTask.rtol
         PETScLinearSystemTask.maxiter].
    intros Hsz Hx.
    destruct (Mat_equal_returns A A' Hsz) as (rA & EA & HA).
    unfold PETScLinearSystemTask.__eq__, PETScLinearSystemTask.x_equal,
      PETSc.Vec_equal, py_and, py_or.
    cbn [PETScLinearSystemTask.A PETScLinearSystemTask.b
         PETScLinearSystemTask.x PETScLinearSystemTask.rtol
         PETScLinearSystemTask.maxiter].
    rewrite EA. cbn [bind].
    pose proof (list_eqb_iff Qc_eqb Qc_eqb_iff b b') as Hb.
    pose proof (Z.eqb_eq mi mi') as Hm.
    destruct rA;
      [| eexists; split; [reflexivity|]; split; [discriminate|];
         intros E; apply HA in E; discriminate ].
    destruct (list_eqb Qc_eqb b b');
      [| eexists; split; [reflexivity|]; split; [discriminate|];
         intros _ E; apply Hb in E; discriminate ].
    cbn [bind].
    assert (EA' : A = A') by now apply HA.
    assert (Eb : b = b') by now apply Hb.
    destruct x as [gt|], x' as [gt'|]; try discriminate;
      cbn [is_None andb bind].
    + pose proof (list_eqb_iff Qc_eqb Qc_eqb_iff gt gt') as Hg.
      destruct (list_eqb Qc_eqb gt gt');
        [| eexists; split; [reflexivity|]; split; [discriminate|];
           intros _ _ E; injection E as E; apply Hg in E; discriminate ].
      cbn [bind].
      destruct (np_isclose rt rt') eqn:Er; cbn [bind];
        (eexists; split; [reflexivity|]); split.
      * intro E. apply Hm in E. repeat split; trivial. f_equal. now apply Hg.
      * intros _ _ _ _ E. now apply Hm.
      * discriminate.
      * intros _ _ _ E _. rewrite E, np_isclose_refl in Er. discriminate.
    + destruct (np_isclose rt rt') eqn:Er; cbn [bind];
        (eexists; split; [reflexivity|]); split.
      * intro E. apply Hm in E. repeat split; trivial.
      * intros _ _ _ _ E. now apply Hm.
      * discriminate.
      * intros _ _ _ E _. rewrite E, np_isclose_refl in Er. discriminate.
Qed.

(** * Further properties of the task module *)

(** ** Equality is reflexive *)

Lemma list_eqb_refl {T : Type} (eqb : T -> T -> bool) (l : list T) :
  (forall a, eqb a a = true) -> list_eqb eqb l l = true.
Proof.
  intro H. induction l as [|a l IH]; simpl; [reflexivity|].
  now rewrite H, IH.
Qed.

Lemma Qc_eqb_refl (a : Qc) : Qc_eqb a a = true.
Proof. now apply Qc_eqb_iff. Qed.

Lemma tensor_equal_refl (a : tensor Qc) : tensor_equal a a = true.
Proof. now apply tensor_equal_iff. Qed.

Lemma Mat_equal_refl (m : PETSc.Mat) : PETSc.Mat_equal m m = Ret true.
Proof.
  unfold PETSc.Mat_equal.
  rewrite !Nat.eqb_refl, !(list_eqb_refl Nat.eqb _ Nat.eqb_refl),
    (list_eqb_refl Qc_eqb _ Qc_eqb_refl).
  reflexivity.
Qed.

(** Every task of numbers, dense or sparse, with or without a ground
    truth, compares equal to itself.  (A task that holds a NaN, which
    the model does not have, is not equal to itself.) *)
Theorem task_eq_reflexive :
  (forall D : PyTorchLinearSystemTask.t,
      PyTorchLinearSystemTask.__eq__ D D = Ret true)
  /\ (forall T : PETScLinearSystemTask.t,
         PETScLinearSystemTask.__eq__ T T = Ret true).
Proof.
  split.
  - intros [p A b x rt mi].
    unfold PyTorchLinearSystemTask.__eq__, torch_equal, py_and, py_or. simpl.
    rewrite !tensor_equal_refl. simpl.
    destruct x as [gt|]; simpl; now rewrite ?tensor_equal_refl.
  - intros [p A b x rt mi pr].
    unfold PETScLinearSystemTask.__eq__, PETScLinearSystemTask.x_equal,
      PETSc.Vec_equal, py_and, py_or. simpl.
    rewrite Mat_equal_refl. simpl.
    rewrite (list_eqb_refl Qc_eqb _ Qc_eqb_refl). simpl.
    destruct x as [gt|]; simpl;
      rewrite ?(list_eqb_refl Qc_eqb _ Qc_eqb_refl), np_isclose_refl,
        Z.eqb_refl; reflexivity.
Qed.

(** ** What [np.isclose] does to the comparison of sparse tasks *)

(** Two sparse tasks that differ at most in [rtol] and [params]. *)
Lemma sparse_eq_same_but_rtol (T1 T2 : PETScLinearSystemTask.t) :
  PETScLinearSystemTask.A T1 = PETScLinearSystemTask.A T2 ->
  PETScLinearSystemTask.b T1 = PETScLinearSystemTask.b T2 ->
  PETScLinearSystemTask.x T1 = PETScLinearSystemTask.x T2 ->
  PETScLinearSystemTask.maxiter T1 = PETScLinearSystemTask.maxiter T2 ->
  PETScLinearSystemTask.__eq__ T1 T2
  = Ret (np_isclose (PETScLinearSystemTask.rtol T1)
                    (PETScLinearSystemTask.rtol T2)).
Proof.
  destruct T1 as [p A b x r k pr], T2 as [p' A' b' x' r' k' pr'].
  cbn [PETScLinearSystemTask.A PETScLinearSystemTask.b PETScLinearSystemTask.x
       PETScLinearSystemTask.maxiter PETScLinearSystemTask.rtol].
  intros <- <- <- <-.
  unfold PETScLinearSystemTask.__eq__, PETScLinearSystemTask.x_equal,
    PETSc.Vec_equal, py_and, py_or.
  cbn [PETScLinearSystemTask.A PETScLinearSystemTask.b PETScLinearSystemTask.x
       PETScLinearSystemTask.maxiter PETScLinearSystemTask.rtol bind].
  rewrite Mat_equal_refl, (list_eqb_refl Qc_eqb _ Qc_eqb_refl), Z.eqb_refl.
  destruct x as [gt|]; cbn [is_None andb bind];
    rewrite ?(list_eqb_refl Qc_eqb _ Qc_eqb_refl);
    now destruct (np_isclose r r').
Qed.

(** Two sparse tasks with the same matrix, vectors and iteration cap
    compare equal as soon as their tolerances both lie between 0 and
    numpy's absolute tolerance [1e-8], whatever these tolerances are. *)
Theorem sparse_eq_merges_small_rtol :
  forall T1 T2 : PETScLinearSystemTask.t,
    PETScLinearSystemTask.A T1 = PETScLinearSystemTask.A T2 ->
    PETScLinearSystemTask.b T1 = PETScLinearSystemTask.b T2 ->
    PETScLinearSystemTask.x T1 = PETScLinearSystemTask.x T2 ->
    PETScLinearSystemTask.maxiter T1 = PETScLinearSystemTask.maxiter T2 ->
    Qcle (Qz 0) (PETScLinearSystemTask.rtol T1) ->
    Qcle (PETScLinearSystemTask.rtol T1) np_atol ->
    Qcle (Qz 0) (PETScLinearSystemTask.rtol T2) ->
    Qcle (PETScLinearSystemTask.rtol T2) np_atol ->
    PETScLinearSystemTask.__eq__ T1 T2 = Ret true.
Proof.
  intros T1 T2 HA Hb Hx Hk H1 H2 H3 H4.
  rewrite (sparse_eq_same_but_rtol T1 T2 HA Hb Hx Hk).
  now rewrite np_isclose_below_atol.
Qed.

Lemma sparse_eq_merges_small_rtol_witness :
  PETScLinearSystemTask.rtol (tol_task (Q2Qc (1 # 1000000000)))
  <> PETScLinearSystemTask.rtol (tol_task (Q2Qc (1 # 1000000000000)))
  /\ PETScLinearSystemTask.__eq__ (tol_task (Q2Qc (1 # 1000000000)))
       (tol_task (Q2Qc (1 # 1000000000000))) = Ret true.
Proof.
  split.
  - intro H. apply (f_equal this) in H. vm_compute in H. discriminate.
  - apply sparse_eq_merges_small_rtol; try reflexivity;
      unfold Qcle; vm_compute; discriminate.
Defined.

(** The comparison of sparse tasks is not symmetric: [np.isclose]
    scales its relative tolerance by its second argument only. *)
Theorem sparse_eq_not_symmetric :
  exists T1 T2 : PETScLinearSystemTask.t,
    PETScLinearSystemTask.__eq__ T1 T2 = Ret true
    /\ PETScLinearSystemTask.__eq__ T2 T1 = Ret false.
Proof.
  exists (tol_task (Qz 1)),
         (tol_task (Q2Qc (100001001005 # 100000000000))).
  split; vm_compute; reflexivity.
Qed.

Lemma dense_eq_spec_witness :
  exists r : bool,
    PyTorchLinearSystemTask.__eq__ torch_task torch_task_params = Ret r
    /\ (r = true <-> dense_payload_eq torch_task torch_task_params).
Proof.
  apply (dense_eq_spec torch_task torch_task_params). reflexivity.
Defined.

Lemma sparse_eq_spec_witness :
  PETScLinearSystemTask.__eq__ petsc_task petsc_task_wide = Raise RuntimeError
  /\ exists r : bool,
       PETScLinearSystemTask.__eq__ petsc_task petsc_task_params = Ret r
       /\ r = true.
Proof.
  split.
  - apply (proj1 (sparse_eq_spec petsc_task petsc_task_wide)). discriminate.
  - destruct (proj2 (sparse_eq_spec petsc_task petsc_task_params)
                eq_refl eq_refl) as (r & E & _ & H).
    exists r. split; [exact E | apply H; reflexivity].
Defined.

(** ** Where the conversions are defined *)

(** [torch2petsc] returns a task exactly on the dense tasks whose [A] is
    a matrix and whose [rtol] and [maxiter] hold one entry each; the
    shapes of [b] and [x] do not matter. *)
Theorem torch2petsc_domain :
  forall D : PyTorchLinearSystemTask.t,
    (exists T, torch2petsc D = Ret T)
    <-> ((exists m n, shape (PyTorchLinearSystemTask.A D) = [m; n])
         /\ (exists r, data (PyTorchLinearSystemTask.rtol D) = [r])
         /\ (exists k, data (PyTorchLinearSystemTask.maxiter D) = [k])).
Proof.
  intro D. split.
  - intros [T H]. unfold torch2petsc in H.
    apply bind_ret_inv in H as (A_sp & HA & H).
    apply bind_ret_inv in H as (r & Hr & H).
    apply bind_ret_inv in H as (k & Hk & _).
    repeat split.
    + unfold to_sparse_csr in HA.
      destruct (shape (PyTorchLinearSystemTask.A D)) as [|m [|n [|? ?]]];
        try discriminate.
      now exists m, n.
    + unfold float_of_tensor in Hr.
      destruct (data (PyTorchLinearSystemTask.rtol D)) as [|u [|? ?]];
        try discriminate.
      now exists u.
    + unfold int_of_tensor in Hk.
      destruct (data (PyTorchLinearSystemTask.maxiter D)) as [|u [|? ?]];
        try discriminate.
      now exists u.
  - intros ((m & n & HA) & (r & Hr) & (k & Hk)).
    destruct (torch2petsc_returns D m n r k HA Hr Hk) as (A_sp & _ & E).
    eexists. exact E.
Qed.

(** Whatever sparse task [petsc2torch] converts, [torch2petsc] accepts
    the dense task it produced. *)
Theorem torch2petsc_accepts_petsc2torch :
  forall (dt : dtype) (T : PETScLinearSystemTask.t)
         (D : PyTorchLinearSystemTask.t),
    petsc2torch dt T = Ret D ->
    exists T2, torch2petsc D = Ret T2.
Proof.
  intros dt T D H. unfold petsc2torch in H. simpl in H.
  apply bind_ret_inv in H as (mi & Hm & H). injection H as <-.
  unfold tensor_of_int in Hm.
  destruct ((- 2 ^ 63 <=? PETScLinearSystemTask.maxiter T)
            && (PETScLinearSystemTask.maxiter T <? 2 ^ 63))%Z;
    [|discriminate].
  injection Hm as <-.
  destruct (wf_to_dense
              (sparse_csr_tensor (PETSc.indptr (PETScLinearSystemTask.A T))
                 (PETSc.indices (PETScLinearSystemTask.A T))
                 (PETSc.values (PETScLinearSystemTask.A T))
                 (PETSc.getSize (PETScLinearSystemTask.A T)))) as [S _].
  match goal with
  | |- exists _, torch2petsc ?D = _ =>
      destruct (torch2petsc_returns D _ _ _ _ S eq_refl eq_refl)
        as (A_sp & _ & E)
  end.
  eexists. exact E.
Qed.

Lemma torch2petsc_accepts_petsc2torch_witness :
  exists D T2, petsc2torch float32 petsc_task_gt = Ret D
               /\ torch2petsc D = Ret T2.
Proof.
  eexists.
  destruct (torch2petsc_accepts_petsc2torch float32 petsc_task_gt _ eq_refl)
    as [T2 E].
  exists T2. split; [reflexivity | exact E].
Defined.

(** ** Stored zeros *)

Lemma to_sparse_csr_values_nonzero (t : tensor Qc) (A_sp : csr_tensor) :
  to_sparse_csr t = Ret A_sp -> ~ In (Qz 0) (csr_values A_sp).
Proof.
  unfold to_sparse_csr.
  destruct (shape t) as [|m [|n [|? ?]]]; try discriminate.
  intro H. injection H as <-. cbn [csr_values]. intro Hin.
  apply in_flat_map in Hin as (row & Hrow & Hin).
  apply in_map_iff in Hrow as (i & <- & _).
  apply in_map_iff in Hin as ([c u] & Hu & Hp). simpl in Hu. subst u.
  unfold row_nonzeros in Hp. apply filter_In in Hp as [_ Hp].
  cbn [snd] in Hp. now rewrite (Qc_eqb_refl (Qz 0)) in Hp.
Qed.

Lemma Mat_equal_values (m1 m2 : PETSc.Mat) :
  PETSc.getSize m1 = PETSc.getSize m2 ->
  PETSc.values m1 <> PETSc.values m2 -> PETSc.Mat_equal m1 m2 = Ret false.
Proof.
  intros S N. destruct (Mat_equal_returns m1 m2 S) as (r & E & H).
  rewrite E. destruct r; [|reflexivity].
  contradiction N. now rewrite (proj1 H eq_refl).
Qed.

(** A sparse matrix that stores an explicit zero does not survive the
    round trip as far as [__eq__] is concerned: [to_sparse_csr] keeps
    the entries that are not zero only, so the matrix that comes back
    has other CSR arrays, and the comparison with the original returns
    [False], in both directions. *)
Theorem stored_zero_breaks_equality :
  forall (dt : dtype) (T T2 : PETScLinearSystemTask.t)
         (D : PyTorchLinearSystemTask.t),
    petsc2torch dt T = Ret D ->
    torch2petsc D = Ret T2 ->
    In (Qz 0) (PETSc.values (PETScLinearSystemTask.A T)) ->
    PETScLinearSystemTask.__eq__ T T2 = Ret false
    /\ PETScLinearSystemTask.__eq__ T2 T = Ret false.
Proof.
  intros dt T T2 D H1 H2 Hz.
  unfold petsc2torch in H1. simpl in H1.
  apply bind_ret_inv in H1 as (mi & _ & H1). injection H1 as <-.
  unfold torch2petsc in H2. cbn [PyTorchLinearSystemTask.A] in H2.
  apply bind_ret_inv in H2 as (A_sp & HA & H2).
  apply bind_ret_inv in H2 as (r & _ & H2).
  apply bind_ret_inv in H2 as (k & _ & H2).
  injection H2 as <-.
  pose proof (to_sparse_csr_values_nonzero _ _ HA) as Hnz.
  assert (Hsz : csr_shape A_sp = PETSc.getSize (PETScLinearSystemTask.A T)).
  { destruct (wf_to_dense
                (sparse_csr_tensor (PETSc.indptr (PETScLinearSystemTask.A T))
                   (PETSc.indices (PETScLinearSystemTask.A T))
                   (PETSc.values (PETScLinearSystemTask.A T))
                   (PETSc.getSize (PETScLinearSystemTask.A T)))) as [Sd _].
    cbn [sparse_csr_tensor csr_shape] in Sd.
    unfold to_sparse_csr in HA. rewrite Sd in HA. injection HA as <-.
    cbn [csr_shape]. now destruct (PETSc.getSize (PETScLinearSystemTask.A T)). }
  unfold PETScLinearSystemTask.__eq__, py_and.
  cbn [PETScLinearSystemTask.A].
  rewrite !Mat_equal_values; [split; reflexivity | | | |];
    cbn [PETSc.values PETSc.getSize]; congruence.
Qed.

Lemma stored_zero_breaks_equality_witness :
  exists (D : PyTorchLinearSystemTask.t) (T2 : PETScLinearSystemTask.t),
    petsc2torch float64 petsc_task_stored_zero = Ret D
    /\ torch2petsc D = Ret T2
    /\ Mat_dense (PETScLinearSystemTask.A T2) = Mat_dense diag_Mat_stored_zero
    /\ PETScLinearSystemTask.__eq__ petsc_task_stored_zero T2 = Ret false.
Proof.
  eexists. eexists. split; [reflexivity|]. split; [reflexivity|].
  split; [reflexivity|].
  eapply (stored_zero_breaks_equality float64 petsc_task_stored_zero);
    [reflexivity | reflexivity | simpl; tauto].
Defined.

(** ** Matrices in canonical form *)

Lemma pick_cons (c : nat) (u : Qc) (row : list (nat * Qc)) (j : nat) :
  pick ((c, u) :: row) j
  = if c =? j then Qcplus u (pick row j) else pick row j.
Proof. unfold pick. cbn [filter fst]. now destruct (c =? j). Qed.

Lemma pick_below (lo hi j : nat) (row : list (nat * Qc)) :
  row_ok lo hi row -> j < lo -> pick row j = Qz 0.
Proof.
  revert lo. induction row as [|[c u] row IH]; intros lo H Hj;
    [reflexivity|].
  simpl in H. destruct H as (H1 & _ & H3). rewrite pick_cons.
  destruct (Nat.eqb_spec c j); [lia|]. apply (IH (S c)); trivial. lia.
Qed.

(** Reading a canonical row into a dense row and extracting the
    non-zero entries gives the row back. *)
Lemma nonzeros_of_picked (n s : nat) (row : list (nat * Qc)) :
  row_ok s (s + n) row ->
  filter (fun p => negb (Qc_eqb (snd p) (Qz 0)))
         (combine (seq s n) (map (pick row) (seq s n)))
  = row.
Proof.
  revert s row. induction n as [|n IH]; intros s row H.
  - destruct row as [|[c u] row]; [reflexivity|]. simpl in H. lia.
  - cbn [seq map combine filter snd].
    destruct row as [|[c u] row].
    + change (pick [] s) with (Qz 0). rewrite Qc_eqb_refl. cbn [negb].
      apply IH. exact I.
    + simpl in H. destruct H as (H1 & H2 & H3).
      destruct (Nat.eq_dec c s) as [->|N].
      * rewrite pick_cons, Nat.eqb_refl.
        rewrite (pick_below (S s) (s + S n) s row H3) by lia.
        replace (Qcplus u (Qz 0)) with u by (rewrite Qz_0; ring).
        destruct (Qc_eqb u (Qz 0)) eqn:E;
          [apply Qc_eqb_true in E; contradiction|].
        cbn [negb]. f_equal.
        rewrite (map_ext_in (pick ((s, u) :: row)) (pick row)).
        -- apply IH. now replace (S s + n) with (s + S n) by lia.
        -- intros j Hj. apply in_seq in Hj. rewrite pick_cons.
           destruct (Nat.eqb_spec s j); [lia | reflexivity].
      * assert (R : row_ok (S s) (S s + n) ((c, u) :: row)).
        { simpl. replace (S (s + n)) with (s + S n) by lia.
          repeat split; trivial; lia. }
        rewrite (pick_below (S s) (S s + n) s _ R) by lia.
        rewrite Qc_eqb_refl. cbn [negb]. now apply IH.
Qed.

Lemma row_nonzeros_of_picked (n : nat) (row : list (nat * Qc)) :
  row_ok 0 n row -> row_nonzeros n (map (pick row) (seq 0 n)) = row.
Proof. intro H. unfold row_nonzeros. now apply nonzeros_of_picked. Qed.

Lemma chunk_flat_map_uniform {B : Type} (g : nat -> list B) (n c i : nat) :
  (forall k, k < n -> length (g k) = c) -> i < n ->
  chunk c i (flat_map g (seq 0 n)) = g i.
Proof.
  intros E Hi.
  assert (L : length (flat_map g (seq 0 n)) = n * c)
    by now apply length_flat_map_uniform.
  destruct (g i) as [|d0 gi] eqn:G.
  - assert (c = 0) by (rewrite <- (E i Hi), G; reflexivity). subst c.
    reflexivity.
  - rewrite <- G. apply (nth_ext _ _ d0 d0).
    + rewrite chunk_length, (E i Hi); [reflexivity | nia].
    + intros j Hj. rewrite chunk_length in Hj by nia.
      rewrite nth_chunk by exact Hj.
      now apply nth_flat_map_uniform.
Qed.

Lemma Mat_dense_of_rows (m : PETSc.Mat) (rows : list (list (nat * Qc))) :
  stores_rows m rows ->
  Mat_dense m
  = mkTensor [fst (PETSc.getSize m); snd (PETSc.getSize m)]
      (flat_map (fun i => map (pick (nth i rows []))
                              (seq 0 (snd (PETSc.getSize m))))
                (seq 0 (fst (PETSc.getSize m)))).
Proof.
  intros (Hr & Hp & Hi & Hv). unfold Mat_dense, to_dense, sparse_csr_tensor.
  cbn [csr_shape crow_indices col_indices csr_values].
  destruct (PETSc.getSize m) as [r n]. cbn [fst snd] in *.
  f_equal. apply flat_map_seq_ext. intros i Hlt.
  rewrite Hp, Hi, Hv.
  destruct (csr_row_slices rows i ltac:(lia)) as [-> ->].
  apply map_ext. intro j. apply row_get_pick.
Qed.

(** The dense form of a canonical matrix converts back to the very CSR
    arrays the matrix stores. *)
Lemma canonical_to_sparse_csr (m : PETSc.Mat) :
  canonical m ->
  to_sparse_csr (Mat_dense m)
  = Ret (mkCsr (PETSc.getSize m) (PETSc.indptr m) (PETSc.indices m)
           (PETSc.values m)).
Proof.
  intros (rows & S & Hok).
  rewrite (Mat_dense_of_rows m rows S).
  destruct S as (Hr & Hp & Hi & Hv).
  destruct (PETSc.getSize m) as [r n]. cbn [fst snd] in *.
  unfold to_sparse_csr. cbn [shape data].
  assert (E : map (fun i =>
                     row_nonzeros n
                       (chunk n i
                          (flat_map (fun i0 => map (pick (nth i0 rows []))
                                                   (seq 0 n)) (seq 0 r))))
                  (seq 0 r) = rows).
  { transitivity (map (fun i => nth i rows []) (seq 0 r));
      [| rewrite Hr; apply map_nth_seq ].
    apply map_ext_in. intros i Hlt. apply in_seq in Hlt.
    rewrite chunk_flat_map_uniform;
      [| intros; now rewrite length_map, length_seq | lia ].
    apply row_nonzeros_of_picked.
    rewrite Forall_forall in Hok. apply Hok. apply nth_In. lia. }
  rewrite E. now rewrite Hp, Hi, Hv.
Qed.

Lemma canonical_indices_small (m : PETSc.Mat) :
  canonical m -> fits_int32 (PETSc.getSize m) ->
  astype_int32 (PETSc.indptr m) = PETSc.indptr m
  /\ astype_int32 (PETSc.indices m) = PETSc.indices m.
Proof.
  intros C B.
  pose proof (canonical_to_sparse_csr m C) as E.
  destruct (wf_to_dense (sparse_csr_tensor (PETSc.indptr m) (PETSc.indices m)
                           (PETSc.values m) (PETSc.getSize m))) as [Sd Ld].
  fold (Mat_dense m) in Sd, Ld. cbn [sparse_csr_tensor csr_shape] in Sd, Ld.
  unfold fits_int32 in B.
  destruct (PETSc.getSize m) as [r n]. cbn [fst snd] in *.
  unfold to_sparse_csr in E. rewrite Sd in E. injection E as E1 E2 _.
  destruct (csr_indices_small r n (data (Mat_dense m)) B) as [B1 B2].
  rewrite E1 in B1. rewrite E2 in B2.
  split; now apply astype_int32_small.
Qed.

Lemma Mat_eta (m : PETSc.Mat) :
  PETSc.mkMat (PETSc.getSize m) (PETSc.indptr m) (PETSc.indices m)
    (PETSc.values m) = m.
Proof. now destruct m. Qed.


Lemma canonical_diag_Mat : canonical diag_Mat.
Proof.
  exists [[(0, Qz 1)]; [(1, Qz 2)]; [(2, Qz 3)]]. split.
  - repeat split.
  - repeat constructor; try (simpl; lia);
      intro H; apply (f_equal this) in H; vm_compute in H; discriminate.
Defined.


(** ** The round trips, with the comparisons *)

Lemma np_isclose_cast (dt : dtype) (r : Qc) :
  np_isclose r (cast_float dt r) = true.
Proof.
  destruct dt; cbn [cast_float];
    [apply np_isclose_rounded | apply np_isclose_refl].
Qed.

(** The task that comes back from the round trip of a sparse task with
    a matrix in canonical form. *)
Lemma canonical_roundtrip_task (dt : dtype) (T : PETScLinearSystemTask.t) :
  sparse_task_ok T -> canonical (PETScLinearSystemTask.A T) ->
  exists D : PyTorchLinearSystemTask.t,
    petsc2torch dt T = Ret D
    /\ torch2petsc D
       = Ret (PETScLinearSystemTask.mk None
                (PETScLinearSystemTask.A T) (PETScLinearSystemTask.b T)
                (PETScLinearSystemTask.x T)
                (cast_float dt (PETScLinearSystemTask.rtol T))
                (PETScLinearSystemTask.maxiter T) None).
Proof.
  intros [Hi Hs] C. destruct T as [p A b x r k pr].
  cbn [PETScLinearSystemTask.A PETScLinearSystemTask.b PETScLinearSystemTask.x
       PETScLinearSystemTask.rtol PETScLinearSystemTask.maxiter] in *.
  destruct (canonical_indices_small A C Hs) as [I1 I2].
  unfold petsc2torch. cbn [PETScLinearSystemTask.A PETScLinearSystemTask.b
    PETScLinearSystemTask.x PETScLinearSystemTask.rtol
    PETScLinearSystemTask.maxiter PETScLinearSystemTask.params
    PETSc.getValuesCSR].
  rewrite (tensor_of_int_fits k Hi). cbn [bind]. fold (Mat_dense A).
  eexists. split; [reflexivity|].
  unfold torch2petsc. cbn [PyTorchLinearSystemTask.A PyTorchLinearSystemTask.b
    PyTorchLinearSystemTask.x PyTorchLinearSystemTask.rtol
    PyTorchLinearSystemTask.maxiter].
  rewrite (canonical_to_sparse_csr A C).
  cbn [bind tensor_of_float float_of_tensor int_of_tensor data csr_shape
       crow_indices col_indices csr_values tensor_of_array].
  rewrite Qc_trunc_Qz, I1, I2, Mat_eta.
  now destruct x.
Qed.

(** Two dense tasks with the same numeric fields compare equal. *)
Lemma dense_eq_of_payload (D D2 : PyTorchLinearSystemTask.t) :
  dense_payload_eq D2 D -> PyTorchLinearSystemTask.__eq__ D D2 = Ret true.
Proof.
  destruct D as [p A b x rt mi], D2 as [p' A' b' x' rt' mi'].
  unfold dense_payload_eq. cbn [PyTorchLinearSystemTask.A
    PyTorchLinearSystemTask.b PyTorchLinearSystemTask.x
    PyTorchLinearSystemTask.rtol PyTorchLinearSystemTask.maxiter].
  intros (-> & -> & -> & -> & ->).
  unfold PyTorchLinearSystemTask.__eq__, torch_equal, py_and, py_or.
  cbn [PyTorchLinearSystemTask.A PyTorchLinearSystemTask.b
       PyTorchLinearSystemTask.x PyTorchLinearSystemTask.rtol
       PyTorchLinearSystemTask.maxiter].
  rewrite !tensor_equal_refl. cbn [bind].
  destruct x as [gt|]; cbn [is_None andb bind];
    now rewrite ?tensor_equal_refl.
Qed.

(** C5, as the code has it.  From a sparse task [T] (iteration cap
    within int64, matrix with fewer than [2^31] entries so that the
    int32 cast of its CSR indices loses nothing, [rtol] a finite number
    of the default tensor dtype [dt] once rounded) the round trip
    [torch2petsc (petsc2torch T)] returns a task [T2] with the same
    matrix entries, the same vectors [b] and [x] and the same
    [maxiter]; its [rtol] is the [rtol] of [T] rounded to [dt], hence
    [rtol] itself under [float64] or when [dt] represents it, and in
    every case a number that [np.isclose], the comparison [__eq__]
    applies to [rtol], accepts; when the matrix is in canonical form,
    [T == T2] is [True].  From a dense task [D] of the form
    [petsc2torch] produces (matrix with fewer than [2^31] entries,
    vectors, a 0-d [rtol] that is a finite number of [dt], a 0-d integer
    [maxiter] within int64), [petsc2torch (torch2petsc D)] returns a
    task with the same [A], [b], [x], [rtol] and [maxiter], and
    [D == D2] is [True]. *)
Theorem roundtrip_payload :
  forall dt : dtype,
    (forall T : PETScLinearSystemTask.t,
        sparse_task_ok T ->
        castable dt (PETScLinearSystemTask.rtol T) ->
        exists (D : PyTorchLinearSystemTask.t) (T2 : PETScLinearSystemTask.t),
          petsc2torch dt T = Ret D
          /\ torch2petsc D = Ret T2
          /\ sparse_payload_eq T2 T
          /\ PETScLinearSystemTask.rtol T2
             = cast_float dt (PETScLinearSystemTask.rtol T)
          /\ (cast_float dt (PETScLinearSystemTask.rtol T)
              = PETScLinearSystemTask.rtol T ->
              PETScLinearSystemTask.rtol T2 = PETScLinearSystemTask.rtol T)
          /\ np_isclose (PETScLinearSystemTask.rtol T)
                        (PETScLinearSystemTask.rtol T2) = true
          /\ (canonical (PETScLinearSystemTask.A T) ->
              PETScLinearSystemTask.__eq__ T T2 = Ret true))
    /\
    (forall D : PyTorchLinearSystemTask.t,
        dense_task_ok dt D ->
        exists (T : PETScLinearSystemTask.t) (D2 : PyTorchLinearSystemTask.t),
          torch2petsc D = Ret T
          /\ petsc2torch dt T = Ret D2
          /\ dense_payload_eq D2 D
          /\ PyTorchLinearSystemTask.__eq__ D D2 = Ret true).
Proof.
  intro dt. split.
  - intros T H _.
    destruct (sparse_roundtrip dt T H) as (D & T2 & E1 & E2 & P & R).
    exists D, T2. split; [exact E1|]. split; [exact E2|]. split; [exact P|].
    split; [exact R|]. split; [intro E; now rewrite R|].
    split; [rewrite R; apply np_isclose_cast|].
    intro C. destruct (canonical_roundtrip_task dt T H C) as (D' & E1' & E2').
    rewrite E1 in E1'. injection E1' as <-.
    rewrite E2 in E2'. injection E2' as ->.
    rewrite sparse_eq_same_but_rtol by reflexivity.
    cbn [PETScLinearSystemTask.rtol]. now rewrite np_isclose_cast.
  - intros D H. destruct (dense_roundtrip dt D H) as (T & D2 & E1 & E2 & P).
    exists T, D2. split; [exact E1|]. split; [exact E2|]. split; [exact P|].
    now apply dense_eq_of_payload.
Qed.

Lemma roundtrip_payload_witness :
  (exists (D : PyTorchLinearSystemTask.t) (T2 : PETScLinearSystemTask.t),
      petsc2torch float32 petsc_task_gt = Ret D
      /\ torch2petsc D = Ret T2
      /\ sparse_payload_eq T2 petsc_task_gt
      /\ PETScLinearSystemTask.rtol T2 = cast_float float32 py_1e_6
      /\ PETScLinearSystemTask.__eq__ petsc_task_gt T2 = Ret true)
  /\
  (exists (T : PETScLinearSystemTask.t) (D2 : PyTorchLinearSystemTask.t),
      torch2petsc torch_task_gt = Ret T
      /\ petsc2torch float32 T = Ret D2
      /\ dense_payload_eq D2 torch_task_gt
      /\ PyTorchLinearSystemTask.__eq__ torch_task_gt D2 = Ret true).
Proof.
  split.
  - destruct (proj1 (roundtrip_payload float32) petsc_task_gt)
      as (D & T2 & E1 & E2 & P & R & _ & _ & Q).
    + split; [unfold fits_int64; simpl; lia | reflexivity].
    + vm_compute. reflexivity.
    + exists D, T2. repeat split; trivial; try apply P.
      apply Q. exact canonical_diag_Mat.
  - apply (proj2 (roundtrip_payload float32) torch_task_gt).
    split; [|split; [|split; [|split]]].
    + exists 3, 3. repeat split.
    + reflexivity.
    + intros gt E. injection E as <-. reflexivity.
    + exists (cast_float float32 py_1e_6). split; [reflexivity|]. split.
      * vm_compute. reflexivity.
      * apply Qc_ext. vm_compute. reflexivity.
    + exists 100%Z. split; [reflexivity | unfold fits_int64; lia].
Defined.

(** C5 as the specification states it fails on [rtol]: with torch's
    initial default dtype, [float32], the sparse task of the test suite
    ([rtol = 1.0e-6]) comes back from the round trip with another
    [rtol], the binary32 number nearest to it. *)
Lemma rtol_roundtrip_inexact :
  exists (D : PyTorchLinearSystemTask.t) (T2 : PETScLinearSystemTask.t),
    petsc2torch float32 petsc_task = Ret D
    /\ torch2petsc D = Ret T2
    /\ PETScLinearSystemTask.rtol T2 <> PETScLinearSystemTask.rtol petsc_task
    /\ this (PETScLinearSystemTask.rtol T2) = (8796093 # 8796093022208)%Q
    /\ this (PETScLinearSystemTask.rtol petsc_task)
       = (4722366482869645 # 4722366482869645213696)%Q.
Proof.
  eexists. eexists. split; [reflexivity|]. split; [reflexivity|].
  split; [|split; vm_compute; reflexivity].
  intro H. apply (f_equal this) in H. vm_compute in H. discriminate.
Qed.

(** The comparison of sparse tasks does not see that difference: it
    compares [rtol] with [np.isclose], and the test of the round trip
    passes. *)
Lemma roundtrip_equal_up_to_isclose :
  (D <- petsc2torch float32 petsc_task ;;
   T2 <- torch2petsc D ;;
   PETScLinearSystemTask.__eq__ petsc_task T2) = Ret true
  /\ (T <- torch2petsc torch_task ;;
      PETScLinearSystemTask.__eq__ petsc_task T) = Ret true
  /\ (D <- petsc2torch float32 petsc_task ;;
      PyTorchLinearSystemTask.__eq__ torch_task D) = Ret true.
Proof.
  repeat split; vm_compute; reflexivity.
Qed.

(** ** The [params] field across the conversions *)

(** C10, as the code has it.  [torch2petsc] builds the sparse task
    without [params]: whatever the dense task carried, the result has
    [None] (and it does return a result on a dense task with a matrix
    [A] and one-entry [rtol] and [maxiter]).  [petsc2torch] copies
    [params].  So the dense task that comes back from [torch2petsc]
    followed by [petsc2torch] has lost its [params]; its numeric fields
    are those of the input when the input has the form [petsc2torch]
    produces (matrix with fewer than [2^31] entries, vectors, a 0-d
    [rtol] that is a finite number of the default dtype, a 0-d integer
    [maxiter] within int64). *)
Theorem torch2petsc_drops_params :
  (forall (task : PyTorchLinearSystemTask.t) (m n : nat) (r k : Qc),
      shape (PyTorchLinearSystemTask.A task) = [m; n] ->
      data (PyTorchLinearSystemTask.rtol task) = [r] ->
      data (PyTorchLinearSystemTask.maxiter task) = [k] ->
      exists out, torch2petsc task = Ret out
                  /\ PETScLinearSystemTask.params out = None)
  /\
  (forall (task : PyTorchLinearSystemTask.t) (out : PETScLinearSystemTask.t),
      torch2petsc task = Ret out -> PETScLinearSystemTask.params out = None)
  /\
  (forall (dt : dtype) (task : PETScLinearSystemTask.t)
          (out : PyTorchLinearSystemTask.t),
      petsc2torch dt task = Ret out ->
      PyTorchLinearSystemTask.params out = PETScLinearSystemTask.params task)
  /\
  (forall (dt : dtype) (task back : PyTorchLinearSystemTask.t)
          (out : PETScLinearSystemTask.t),
      torch2petsc task = Ret out ->
      petsc2torch dt out = Ret back ->
      PyTorchLinearSystemTask.params back = None)
  /\
  (forall (dt : dtype) (task : PyTorchLinearSystemTask.t),
      dense_task_ok dt task ->
      exists (out : PETScLinearSystemTask.t) (back : PyTorchLinearSystemTask.t),
        torch2petsc task = Ret out
        /\ petsc2torch dt out = Ret back
        /\ PyTorchLinearSystemTask.params back = None
        /\ dense_payload_eq back task).
Proof.
  assert (H2 : forall task out, torch2petsc task = Ret out ->
                                PETScLinearSystemTask.params out = None).
  { intros task out H. unfold torch2petsc in H.
    apply bind_ret_inv in H as (A_sp & _ & H).
    apply bind_ret_inv in H as (r & _ & H).
    apply bind_ret_inv in H as (k & _ & H).
    injection H as <-. reflexivity. }
  assert (H3 : forall dt task out, petsc2torch dt task = Ret out ->
             PyTorchLinearSystemTask.params out
             = PETScLinearSystemTask.params task).
  { intros dt task out H. unfold petsc2torch in H. simpl in H.
    apply bind_ret_inv in H as (mi & _ & H).
    injection H as <-. reflexivity. }
  split; [|split; [|split; [|split]]].
  - intros task m n r k HA Hr Hk.
    destruct (torch2petsc_returns task m n r k HA Hr Hk) as (A_sp & _ & E).
    eexists. split; [exact E | reflexivity].
  - exact H2.
  - exact H3.
  - intros dt task back out E1 E2.
    rewrite (H3 _ _ _ E2). exact (H2 _ _ E1).
  - intros dt task H.
    destruct (dense_roundtrip dt task H) as (out & back & E1 & E2 & P).
    exists out, back. split; [exact E1|]. split; [exact E2|].
    split; [|exact P]. rewrite (H3 _ _ _ E2). exact (H2 _ _ E1).
Qed.

Lemma torch2petsc_drops_params_witness :
  PyTorchLinearSystemTask.params torch_task_params = Some (PyObject 1)
  /\ (exists out, torch2petsc torch_task_params = Ret out
                  /\ PETScLinearSystemTask.params out = None)
  /\ (exists out, petsc2torch float32 petsc_task_params = Ret out
                  /\ PyTorchLinearSystemTask.params out = Some (PyObject 1))
  /\ (exists (out : PETScLinearSystemTask.t)
             (back : PyTorchLinearSystemTask.t),
         torch2petsc torch_task_params = Ret out
         /\ petsc2torch float32 out = Ret back
         /\ PyTorchLinearSystemTask.params back = None
         /\ dense_payload_eq back torch_task_params).
Proof.
  split; [reflexivity|]. split; [|split].
  - apply (proj1 torch2petsc_drops_params torch_task_params 3 3
             (cast_float float32 py_1e_6) (Qn 100)); reflexivity.
  - eexists. split; [reflexivity|].
    apply (proj1 (proj2 (proj2 torch2petsc_drops_params)) float32
             petsc_task_params).
    reflexivity.
  - apply (proj2 (proj2 (proj2 (proj2 torch2petsc_drops_params))) float32
             torch_task_params).
    split; [|split; [|split; [|split]]].
    + exists 3, 3. repeat split.
    + reflexivity.
    + intros gt E. discriminate E.
    + exists (cast_float float32 py_1e_6). split; [reflexivity|]. split.
      * vm_compute. reflexivity.
      * apply Qc_ext. vm_compute. reflexivity.
    + exists 100%Z. split; [reflexivity | unfold fits_int64; lia].
Defined.

(** C10 as the specification states it fails on the numeric fields of a
    dense task that does not have that form.  A right-hand side [b] of
    shape [3, 1] goes into a PETSc vector, which has one axis, and
    comes back with shape [3]: the task that comes back is not equal to
    the input, [params] apart. *)
Lemma roundtrip_flattens_column_b :
  exists (out : PETScLinearSystemTask.t) (back : PyTorchLinearSystemTask.t),
    torch2petsc torch_task_column = Ret out
    /\ petsc2torch float32 out = Ret back
    /\ shape (PyTorchLinearSystemTask.b torch_task_column) = [3; 1]
    /\ shape (PyTorchLinearSystemTask.b back) = [3]
    /\ ~ dense_payload_eq back torch_task_column
    /\ PyTorchLinearSystemTask.__eq__ torch_task_column back = Ret false.
Proof.
  eexists. eexists. split; [reflexivity|]. split; [reflexivity|].
  split; [reflexivity|]. split; [reflexivity|]. split.
  - intros (_ & E & _). apply (f_equal shape) in E. discriminate E.
  - vm_compute. reflexivity.
Qed.

(** * Further properties of the gradient-estimation layer *)

(** ** Shapes that [jvp] and [backward] reject *)

Lemma shape_smul (c : Qc) (v : tensor Qc) : shape (smul c v) = shape v.
Proof. reflexivity. Qed.

(** ["forwardAD"] needs a direction of exactly the shape of [x] and
    fails before [f] is evaluated otherwise.  The finite-difference
    modes evaluate [f] at [x] first and fail afterwards, when the shapes
    of [x] and [v] cannot be broadcast together. *)
Theorem jvp_shape_errors :
  forall (f : torch_fn) (x v : tensor Qc) (eps : Qc),
    (shape x <> shape v ->
     jvp f x v "forwardAD" eps = ([], Raise RuntimeError))
    /\
    (broadcast_shapes (shape x) (shape v) = None ->
     jvp f x v "forwardFD" eps = ([CallPlain x], Raise RuntimeError)
     /\ jvp f x v "centralFD" eps = ([CallPlain x], Raise RuntimeError)).
Proof.
  intros f x v eps. split.
  - intro N. unfold jvp. simpl. unfold lift, make_dual.
    destruct (list_eq_dec Nat.eq_dec (shape x) (shape v)); [contradiction|].
    reflexivity.
  - intro E.
    assert (Ea : tadd x (smul eps v) = Raise RuntimeError).
    { unfold tadd, tbin. rewrite shape_smul, E. reflexivity. }
    unfold jvp. simpl. unfold lift. rewrite Ea. split; reflexivity.
Qed.

Lemma jvp_shape_errors_witness :
  jvp sphere x_34 (tnat [2] [1; 0]) "forwardAD" (Qz 1)
  = ([], Raise RuntimeError)
  /\ jvp sphere x_34 (tnat [3] [1; 0; 0]) "centralFD" (Qz 1)
     = ([CallPlain x_34], Raise RuntimeError).
Proof.
  split.
  - apply (proj1 (jvp_shape_errors sphere x_34 (tnat [2] [1; 0]) (Qz 1))).
    discriminate.
  - apply (proj2 (jvp_shape_errors sphere x_34 (tnat [3] [1; 0; 0]) (Qz 1))).
    reflexivity.
Defined.

(** [backward] unpacks [x.shape] into two names before it looks at
    [grad_type]: with an input that is not 2-dimensional it raises
    [ValueError] under every mode, supported or not. *)
Theorem backward_needs_matrix_input :
  forall (ctx : ctx_t) (grad_y : tensor Qc),
    length (shape (fst (saved_tensors ctx))) <> 2 ->
    register_custom_grad_fn.backward ctx grad_y = Raise ValueError.
Proof.
  intros ctx grad_y H. unfold register_custom_grad_fn.backward.
  destruct (saved_tensors ctx) as [x v]. simpl in H.
  destruct (shape x) as [|bs [|in_dim [|? ?]]]; try reflexivity.
  simpl in H. contradiction.
Qed.

Lemma backward_needs_matrix_input_witness :
  register_custom_grad_fn.backward
    (fst (register_custom_grad_fn.forward (tnat [6] [0; 0; 0; 0; 0; 0])
            (sample_d "f_true")))
    sample_grad_y
  = Raise ValueError.
Proof.
  apply backward_needs_matrix_input. simpl. discriminate.
Defined.

(** ** The estimator modes of [backward] *)

Lemma wf_tscale (v : tensor Qc) (c : Qc) : wf v -> wf (tscale v c).
Proof. unfold wf, tscale, tmap. simpl. now rewrite length_map. Qed.

(** [d["Nv"]] has to be the number of replicas that [v] really holds:
    when the [N] rows of [v] are not [Nv] copies of the batch of [x],
    the reshape of line 74 fails, under every mode but ["f_true"], also
    under ["f_hat_true"], whose result does not use the forward
    gradient. *)
Theorem backward_replication_mismatch :
  forall (ctx : ctx_t) (grad_y : tensor Qc) (N bs C D : nat),
    let d := ctx_d ctx in
    let x := fst (saved_tensors ctx) in
    let v := snd (saved_tensors ctx) in
    d_grad_type d <> "f_true"%string ->
    shape x = [bs; D] ->
    shape v = [N; D] -> wf v ->
    shape grad_y = [N; C] -> wf grad_y ->
    shape (d_dvf d) = [N; C] -> wf (d_dvf d) ->
    N * D <> d_Nv d * bs * D ->
    register_custom_grad_fn.backward ctx grad_y = Raise RuntimeError.
Proof.
  intros ctx grad_y N bs C D d x v Hgt Hx Hv Wv Hg Wg Hd Wd Hne.
  rewrite (backward_not_f_true ctx grad_y bs D Hx Hgt). cbv zeta.
  fold d v.
  assert (F : register_custom_grad_fn.fwd_grad grad_y (d_dvf d)
                (tscale v (d_v_scale d)) (d_Nv d) bs D = Raise RuntimeError).
  { pose proof (probe_terms_spec grad_y (d_dvf d) (tscale v (d_v_scale d))
                  N C D Hg Hd Hv Wg Wd (wf_tscale v _ Wv)) as E.
    unfold register_custom_grad_fn.fwd_grad.
    destruct (tmul grad_y (d_dvf d)) as [gd|e]; simpl in *; [|discriminate].
    destruct (sum_dim1_keepdim gd) as [s|e]; simpl in *; [|discriminate].
    rewrite E. simpl. unfold reshape. simpl.
    destruct (Nat.eqb_spec (d_Nv d * (bs * (D * 1))) (N * (D * 1))) as [Q|Q];
      [exfalso; apply Hne; lia | reflexivity]. }
  rewrite F. reflexivity.
Qed.

Lemma backward_replication_mismatch_witness :
  register_custom_grad_fn.backward
    (fst (register_custom_grad_fn.forward
            (tnat [3; 3] [0; 0; 0; 0; 0; 0; 0; 0; 0]) (sample_d "f_hat_true")))
    sample_grad_y
  = Raise RuntimeError.
Proof.
  apply (backward_replication_mismatch _ sample_grad_y 4 3 1 3);
    try reflexivity; simpl; try discriminate; lia.
Defined.

(** ** The Rosenbrock test functions *)

(** *** Order facts on [Qc] *)

Ltac Qc_to_Q :=
  unfold Qcle, Qcminus, Qz in *;
  cbn [this Q2Qc Qcpower Qcmult Qcplus Qcopp] in *;
  rewrite ?Qred_correct in *;
  change (inject_Z 0) with 0%Q in *;
  change (inject_Z 100) with 100%Q in *.

Lemma Qc_square_nonneg (a : Qc) : Qcle (Qz 0) (Qcpower a 2).
Proof. Qc_to_Q. nra. Qed.

Lemma Qc_sum_nonneg (a c : Qc) :
  Qcle (Qz 0) a -> Qcle (Qz 0) c -> Qcle (Qz 0) (Qcplus a c).
Proof. Qc_to_Q. intros. lra. Qed.

Lemma Qc_sum_zero (a c : Qc) :
  Qcle (Qz 0) a -> Qcle (Qz 0) c -> Qcplus a c = Qz 0 ->
  a = Qz 0 /\ c = Qz 0.
Proof.
  intros Ha Hc H.
  apply (f_equal (fun u : Qc => this u)) in H.
  assert (E : (this a + this c == 0)%Q).
  { rewrite <- (Qred_correct (this a + this c)).
    change (Qred (this a + this c)) with (this (Qcplus a c)).
    rewrite H. reflexivity. }
  Qc_to_Q. split; apply Qc_is_canon; cbn [this Q2Qc];
    rewrite ?Qred_correct; change (inject_Z 0) with 0%Q; lra.
Qed.

Lemma Qc_scale_nonneg (a : Qc) :
  Qcle (Qz 0) a -> Qcle (Qz 0) (Qcmult (Qz 100) a).
Proof. Qc_to_Q. intros. lra. Qed.

Lemma rosenbrock_term_nonneg (a b : Qc) : Qcle (Qz 0) (rosenbrock_term a b).
Proof.
  unfold rosenbrock_term. apply Qc_sum_nonneg.
  - apply Qc_scale_nonneg, Qc_square_nonneg.
  - apply Qc_square_nonneg.
Qed.

Lemma Qc_square_zero (a : Qc) : Qcpower a 2 = Qz 0 -> a = Qz 0.
Proof.
  rewrite Qz_0. simpl. intro H.
  destruct (Qcmult_integral _ _ H) as [E|E]; trivial.
  destruct (Qcmult_integral _ _ E) as [E'|E']; trivial. discriminate.
Qed.

Lemma rosenbrock_term_zero (a b : Qc) :
  rosenbrock_term a b = Qz 0 <-> a = Qz 1 /\ b = Qz 1.
Proof.
  split.
  - intro H. unfold rosenbrock_term in H.
    apply Qc_sum_zero in H as [H1 H2];
      [| apply Qc_scale_nonneg, Qc_square_nonneg | apply Qc_square_nonneg ].
    apply Qc_square_zero in H2.
    assert (Ea : a = Qz 1).
    { replace a with (Qcminus (Qz 1) (Qcminus (Qz 1) a)) by ring.
      rewrite H2, Qz_0. ring. }
    split; [exact Ea|].
    rewrite Qz_0 in H1. destruct (Qcmult_integral _ _ H1) as [E|E];
      [discriminate|].
    fold (Qz 0) in E. rewrite <- Qz_0 in E. apply Qc_square_zero in E.
    replace b with (Qcplus (Qcminus b (Qcpower a 2)) (Qcpower a 2)) by ring.
    rewrite E, Ea, Qz_0. apply Qc_ext. reflexivity.
  - intros [-> ->]. apply Qc_ext. reflexivity.
Qed.

Lemma wf_rows_tensor (B : nat) (g : nat -> Qc) :
  wf (mkTensor [B; 1] (map g (seq 0 B))).
Proof. unfold wf. simpl. rewrite length_map, length_seq. lia. Qed.

(** *** Slices of a row *)

Lemma every_1 {T : Type} (l : list T) : every 1 0 l = l.
Proof. induction l as [|u l IH]; simpl; [|rewrite IH]; reflexivity. Qed.

Lemma every_length_eq {A B : Type} (step skip : nat) (l : list A)
    (l' : list B) :
  length l = length l' ->
  length (every step skip l) = length (every step skip l').
Proof.
  revert skip l'. induction l as [|u l IH]; intros skip [|w l'] H;
    try discriminate; trivial.
  simpl in H. destruct skip; simpl; [f_equal|]; apply IH; lia.
Qed.

Lemma py_slice_length_eq {A B : Type} (start stop : option Z) (step : nat)
    (l : list A) (l' : list B) :
  length l = length l' ->
  length (py_slice start stop step l) = length (py_slice start stop step l').
Proof.
  intro H. unfold py_slice. rewrite H. apply every_length_eq.
  rewrite !length_firstn, !length_skipn. lia.
Qed.

Lemma slice_bound_last (d : nat) : slice_bound d (-1) = d - 1.
Proof. unfold slice_bound. change (-1 <? 0)%Z with true. cbv iota. lia. Qed.

Lemma slice_bound_1 (d : nat) : slice_bound (S d) 1 = 1.
Proof. unfold slice_bound. change (1 <? 0)%Z with false. cbv iota. lia. Qed.

Lemma py_slice_but_last {T : Type} (l : list T) :
  py_slice None (Some (-1)%Z) 1 l = removelast l.
Proof.
  unfold py_slice. rewrite slice_bound_last, every_1, Nat.sub_0_r.
  simpl skipn. rewrite removelast_firstn_len. f_equal. lia.
Qed.

Lemma py_slice_from_1 {T : Type} (step : nat) (l : list T) :
  py_slice (Some 1%Z) None step l = every step 0 (tl l).
Proof.
  destruct l as [|u l]; [reflexivity|].
  unfold py_slice. change (length (u :: l)) with (S (length l)).
  rewrite slice_bound_1. f_equal.
  simpl. rewrite Nat.sub_0_r. apply firstn_all.
Qed.

Lemma py_slice_all {T : Type} (step : nat) (l : list T) :
  py_slice None None step l = every step 0 l.
Proof.
  unfold py_slice. simpl skipn. now rewrite Nat.sub_0_r, firstn_all.
Qed.

Lemma every_2_1 {T : Type} (l : list T) : every 2 1 l = every 2 0 (tl l).
Proof. destruct l; reflexivity. Qed.

(** *** From the tensor to its rows *)

Lemma slice_last_matrix {T : Type} (start stop : option Z) (step : nat)
    (x : tensor T) (B D : nat) :
  shape x = [B; D] ->
  slice_last start stop step x
  = Ret (mkTensor [B; length (py_slice start stop step (seq 0 D))]
           (flat_map (fun i => py_slice start stop step (chunk D i (data x)))
              (seq 0 B))).
Proof.
  intro H. unfold slice_last. rewrite H. simpl. now rewrite Nat.mul_1_r.
Qed.

Lemma row_length (x : tensor Qc) (B D b : nat) :
  shape x = [B; D] -> wf x -> b < B -> length (row x D b) = D.
Proof.
  intros H W Hb. unfold row. apply chunk_length.
  unfold wf in W. rewrite H in W. simpl in W. rewrite W.
  rewrite Nat.mul_1_r. apply Nat.mul_le_mono_r. lia.
Qed.

Lemma sum_last_keepdim_matrix (B c : nat) (l : list Qc) :
  sum_last_keepdim (mkTensor [B; c] l)
  = mkTensor [B; 1] (map (fun i => Qcsum (chunk c i l)) (seq 0 B)).
Proof. unfold sum_last_keepdim. simpl. now rewrite Nat.mul_1_r. Qed.

Lemma length_but_last {T : Type} (l : list T) :
  length (py_slice None (Some (-1)%Z) 1 l) = length l - 1.
Proof.
  rewrite py_slice_but_last, removelast_firstn_len, length_firstn. lia.
Qed.

Lemma length_from_1 {T : Type} (l : list T) :
  length (py_slice (Some 1%Z) None 1 l) = length l - 1.
Proof.
  rewrite py_slice_from_1, every_1. destruct l; simpl; lia.
Qed.

Lemma length_every_2 {T : Type} (K : nat) (l : list T) :
  length l = 2 * K ->
  length (every 2 0 l) = K /\ length (every 2 1 l) = K.
Proof.
  revert l. induction K as [|K IH]; intros l H.
  - destruct l; [now split | discriminate].
  - destruct l as [|a [|b l]]; try (simpl in H; lia).
    destruct (IH l) as [E0 E1]; [simpl in H; lia|].
    split; simpl; f_equal; trivial.
Qed.

Lemma terms_pointwise (x1 x2 : list Qc) :
  map2 Qcplus
    (map (fun u => Qcmult (Qz 100) u)
       (map (fun u : Qc => s_pow u 2)
          (map2 Qcminus x2 (map (fun u : Qc => s_pow u 2) x1))))
    (map (fun u : Qc => s_pow u 2) (map (fun u => Qcminus (Qz 1) u) x1))
  = map2 rosenbrock_term x1 x2.
Proof.
  revert x2. induction x1 as [|u x1 IH]; intros [|w x2]; trivial.
  specialize (IH x2). unfold map2 in *. simpl in *. now rewrite IH.
Qed.

Lemma terms_pointwise_swapped (x1 x2 : list Qc) :
  map2 Qcplus
    (map (fun u : Qc => s_pow u 2) (map (fun u => Qcminus (Qz 1) u) x1))
    (map (fun u => Qcmult (Qz 100) u)
       (map (fun u : Qc => s_pow u 2)
          (map2 Qcminus x2 (map (fun u : Qc => s_pow u 2) x1))))
  = map2 rosenbrock_term x1 x2.
Proof.
  revert x2. induction x1 as [|u x1 IH]; intros [|w x2]; trivial.
  specialize (IH x2). unfold map2 in *. simpl in *. rewrite IH.
  f_equal. unfold rosenbrock_term. simpl. ring.
Qed.

Ltac solve_wf :=
  unfold wf; cbn [data shape smul tpow rsub tmap numel fold_right];
  rewrite ?length_map;
  rewrite ?length_map2 by (rewrite ?length_map; lia);
  rewrite ?length_map; lia.

Lemma rosenbrock_body (X1 X2 : list Qc) (B c : nat) :
  length X1 = B * c -> length X2 = B * c ->
  (a <- tsub (mkTensor [B; c] X2) (tpow (mkTensor [B; c] X1) 2) ;;
   s <- tadd (smul (Qz 100) (tpow a 2))
          (tpow (rsub (Qz 1) (mkTensor [B; c] X1)) 2) ;;
   Ret (sum_last_keepdim s))
  = Ret (mkTensor [B; 1]
           (map (fun i => Qcsum (map2 rosenbrock_term (chunk c i X1)
                                   (chunk c i X2)))
              (seq 0 B))).
Proof.
  intros L1 L2. unfold tsub, tadd.
  rewrite (tbin_same_shape Qcminus);
    [| reflexivity | solve_wf | solve_wf ].
  cbn [bind].
  rewrite (tbin_same_shape Qcplus);
    [| reflexivity | solve_wf | solve_wf ].
  cbn [bind smul tpow rsub tmap data shape].
  rewrite terms_pointwise, sum_last_keepdim_matrix.
  do 2 f_equal. apply map_ext. intro i.
  now rewrite (chunk_map2 rosenbrock_term).
Qed.

Lemma rosenbrock_separate_body (X1 X2 : list Qc) (B c : nat) :
  length X1 = B * c -> length X2 = B * c ->
  (a <- tsub (mkTensor [B; c] X2) (tpow (mkTensor [B; c] X1) 2) ;;
   s <- tadd (tpow (rsub (Qz 1) (mkTensor [B; c] X1)) 2)
          (smul (Qz 100) (tpow a 2)) ;;
   Ret (sum_last_keepdim s))
  = Ret (mkTensor [B; 1]
           (map (fun i => Qcsum (map2 rosenbrock_term (chunk c i X1)
                                   (chunk c i X2)))
              (seq 0 B))).
Proof.
  intros L1 L2. unfold tsub, tadd.
  rewrite (tbin_same_shape Qcminus);
    [| reflexivity | solve_wf | solve_wf ].
  cbn [bind].
  rewrite (tbin_same_shape Qcplus);
    [| reflexivity | solve_wf | solve_wf ].
  cbn [bind smul tpow rsub tmap data shape].
  rewrite terms_pointwise_swapped, sum_last_keepdim_matrix.
  do 2 f_equal. apply map_ext. intro i.
  now rewrite (chunk_map2 rosenbrock_term).
Qed.

(** *** The value of a row *)

Lemma terms_sum_nonneg (l m : list Qc) :
  Qcle (Qz 0) (Qcsum (map2 rosenbrock_term l m)).
Proof.
  revert m. induction l as [|a l IH]; intros [|b m];
    try apply Qcle_refl.
  change (map2 rosenbrock_term (a :: l) (b :: m))
    with (rosenbrock_term a b :: map2 rosenbrock_term l m).
  rewrite Qcsum_cons. apply Qc_sum_nonneg; [apply rosenbrock_term_nonneg|].
  apply IH.
Qed.

Lemma terms_sum_zero (l m : list Qc) :
  Qcsum (map2 rosenbrock_term l m) = Qz 0
  <-> Forall (fun p => fst p = Qz 1 /\ snd p = Qz 1) (combine l m).
Proof.
  revert m. induction l as [|a l IH]; intros [|b m];
    try (split; [constructor | reflexivity]).
  change (map2 rosenbrock_term (a :: l) (b :: m))
    with (rosenbrock_term a b :: map2 rosenbrock_term l m).
  rewrite Qcsum_cons. simpl combine. split.
  - intro H. apply Qc_sum_zero in H as [H1 H2];
      [| apply rosenbrock_term_nonneg | apply terms_sum_nonneg ].
    constructor; [now apply rosenbrock_term_zero | now apply IH].
  - intro H. inversion H as [|p q Hp Hq]; subst. simpl in Hp.
    apply rosenbrock_term_zero in Hp. apply IH in Hq.
    rewrite Hp, Hq, Qz_0. ring.
Qed.

Lemma chained_pairs_ones (r : list Qc) (a b : Qc) :
  Forall (fun p => fst p = Qz 1 /\ snd p = Qz 1)
    (combine (removelast (a :: b :: r)) (tl (a :: b :: r)))
  <-> all_ones (a :: b :: r).
Proof.
  unfold all_ones. revert a b. induction r as [|c r IH]; intros a b.
  - simpl. split; intro H.
    + inversion H as [|p q [Ha Hb] _]; subst. simpl in *.
      repeat constructor; trivial.
    + inversion H as [|? ? Ha H']; subst. inversion H' as [|? ? Hb _]; subst.
      repeat constructor; trivial.
  - change (removelast (a :: b :: c :: r))
      with (a :: removelast (b :: c :: r)).
    change (tl (a :: b :: c :: r)) with (b :: tl (b :: c :: r)).
    simpl combine. split; intro H.
    + inversion H as [|p q [Ha Hb] Hq]; subst. simpl in Ha.
      constructor; [exact Ha | now apply IH].
    + inversion H as [|? ? Ha H']; subst.
      constructor; [| now apply IH].
      inversion H' as [|? ? Hb _]; subst. now split.
Qed.

Lemma separate_pairs_ones (K : nat) (r : list Qc) :
  length r = 2 * K ->
  Forall (fun p => fst p = Qz 1 /\ snd p = Qz 1)
    (combine (every 2 0 r) (every 2 0 (tl r)))
  <-> all_ones r.
Proof.
  unfold all_ones. revert r. induction K as [|K IH]; intros r H.
  - destruct r; [|discriminate]. split; constructor.
  - destruct r as [|a [|b r]]; try (simpl in H; lia).
    assert (E : combine (every 2 0 (a :: b :: r))
                  (every 2 0 (tl (a :: b :: r)))
                = (a, b) :: combine (every 2 0 r) (every 2 0 (tl r))).
    { simpl. now rewrite every_2_1. }
    rewrite E. specialize (IH r). split; intro F.
    + inversion F as [|p q [Ha Hb] Hq]; subst. simpl in Ha, Hb.
      constructor; [exact Ha|]. constructor; [exact Hb|].
      apply IH; [simpl in H; lia | exact Hq].
    + inversion F as [|? ? Ha F']; subst.
      inversion F' as [|? ? Hb F'']; subst.
      constructor; [now split|]. apply IH; [simpl in H; lia | exact F''].
Qed.

(** *** The two functions on a batch of points *)

Lemma rosenbrock_eval (x : tensor Qc) (B D : nat) :
  shape x = [B; D] -> wf x ->
  rosenbrock x
  = Ret (mkTensor [B; 1]
           (map (fun b => Qcsum (map2 rosenbrock_term
                                   (removelast (row x D b))
                                   (tl (row x D b))))
              (seq 0 B))).
Proof.
  intros H W. unfold rosenbrock.
  rewrite !(slice_last_matrix _ _ _ x B D H). cbn [bind].
  rewrite length_but_last, length_from_1, length_seq.
  rewrite rosenbrock_body.
  - do 2 f_equal. apply map_ext_in. intros b Hb. apply in_seq in Hb.
    rewrite !chunk_flat_map_uniform; try lia.
    + fold (row x D b). now rewrite py_slice_but_last, py_slice_from_1, every_1.
    + intros k Hk. fold (row x D k).
      now rewrite length_from_1, (row_length x B D k).
    + intros k Hk. fold (row x D k).
      now rewrite length_but_last, (row_length x B D k).
  - apply length_flat_map_uniform. intros k Hk. fold (row x D k).
    now rewrite length_but_last, (row_length x B D k).
  - apply length_flat_map_uniform. intros k Hk. fold (row x D k).
    now rewrite length_from_1, (row_length x B D k).
Qed.

Lemma length_evens (K : nat) {T : Type} (l : list T) :
  length l = 2 * K -> length (py_slice None None 2 l) = K.
Proof. intro H. rewrite py_slice_all. now apply length_every_2. Qed.

Lemma length_odds (K : nat) {T : Type} (l : list T) :
  length l = 2 * K -> length (py_slice (Some 1%Z) None 2 l) = K.
Proof.
  intro H. rewrite py_slice_from_1, <- every_2_1. now apply length_every_2.
Qed.

Lemma rosenbrock_separate_eval (x : tensor Qc) (B K : nat) :
  shape x = [B; 2 * K] -> wf x ->
  rosenbrock_separate x
  = Checked
      (Ret (mkTensor [B; 1]
              (map (fun b => Qcsum (map2 rosenbrock_term
                                      (every 2 0 (row x (2 * K) b))
                                      (every 2 0 (tl (row x (2 * K) b)))))
                 (seq 0 B)))).
Proof.
  intros H W. unfold rosenbrock_separate. rewrite H.
  cbn [rev app].
  replace (2 * K mod 2 =? 0) with true
    by (symmetry; apply Nat.eqb_eq; rewrite Nat.mul_comm;
        apply Nat.Div0.mod_mul).
  f_equal.
  rewrite !(slice_last_matrix _ _ _ x B (2 * K) H). cbn [bind].
  rewrite (length_evens K), (length_odds K) by now rewrite length_seq.
  rewrite rosenbrock_separate_body.
  - do 2 f_equal. apply map_ext_in. intros b Hb. apply in_seq in Hb.
    rewrite !chunk_flat_map_uniform; try lia.
    + fold (row x (2 * K) b). now rewrite py_slice_all, py_slice_from_1.
    + intros k Hk. fold (row x (2 * K) k).
      apply length_odds. now apply (row_length x B).
    + intros k Hk. fold (row x (2 * K) k).
      apply length_evens. now apply (row_length x B).
  - apply length_flat_map_uniform. intros k Hk. fold (row x (2 * K) k).
    apply length_evens. now apply (row_length x B).
  - apply length_flat_map_uniform. intros k Hk. fold (row x (2 * K) k).
    apply length_odds. now apply (row_length x B).
Qed.

(** The chained Rosenbrock function on a batch of [B] points of
    dimension [D]: one value per point, never negative; in dimension 2
    and above it vanishes exactly at the point whose coordinates are all
    1; in dimension 0 and 1 both slices are empty and the value is 0
    everywhere. *)
Theorem rosenbrock_minimum :
  forall (x : tensor Qc) (B D : nat),
    shape x = [B; D] -> wf x ->
    exists y : tensor Qc,
      rosenbrock x = Ret y
      /\ shape y = [B; 1] /\ wf y
      /\ forall b, b < B ->
           Qcle (Qz 0) (entry y b)
           /\ (2 <= D -> (entry y b = Qz 0 <-> all_ones (row x D b)))
           /\ (D <= 1 -> entry y b = Qz 0).
Proof.
  intros x B D H W. rewrite (rosenbrock_eval x B D H W).
  eexists. split; [reflexivity|]. split; [reflexivity|].
  split; [apply wf_rows_tensor|].
  intros b Hb. unfold entry. cbn [data]. rewrite nth_map_seq by exact Hb.
  pose proof (row_length x B D b H W Hb) as L.
  split; [apply terms_sum_nonneg|]. split.
  - intro HD. rewrite terms_sum_zero.
    destruct (row x D b) as [|a [|c r]]; try (simpl in L; lia).
    apply chained_pairs_ones.
  - intro HD. destruct (row x D b) as [|a [|c r]]; try reflexivity.
    simpl in L. lia.
Qed.

Lemma rosenbrock_minimum_witness :
  exists y : tensor Qc,
    rosenbrock (tnat [2; 3] [1; 1; 1; 0; 1; 2]) = Ret y
    /\ shape y = [2; 1] /\ wf y
    /\ forall b, b < 2 ->
         Qcle (Qz 0) (entry y b)
         /\ (2 <= 3 ->
             (entry y b = Qz 0
              <-> all_ones (row (tnat [2; 3] [1; 1; 1; 0; 1; 2]) 3 b)))
         /\ (3 <= 1 -> entry y b = Qz 0).
Proof.
  apply (rosenbrock_minimum (tnat [2; 3] [1; 1; 1; 0; 1; 2]) 2 3);
    reflexivity.
Defined.

(** The separable Rosenbrock function refuses an odd dimension with an
    assertion error; in an even dimension it returns one value per
    point, never negative, that vanishes exactly at the point whose
    coordinates are all 1. *)
Theorem rosenbrock_separate_minimum :
  forall (x : tensor Qc) (B D : nat),
    shape x = [B; D] -> wf x ->
    (D mod 2 <> 0 -> rosenbrock_separate x = AssertionError)
    /\
    (D mod 2 = 0 ->
     exists y : tensor Qc,
       rosenbrock_separate x = Checked (Ret y)
       /\ shape y = [B; 1] /\ wf y
       /\ forall b, b < B ->
            Qcle (Qz 0) (entry y b)
            /\ (entry y b = Qz 0 <-> all_ones (row x D b))).
Proof.
  intros x B D H W. split.
  - intro Hodd. unfold rosenbrock_separate. rewrite H. cbn [rev app].
    destruct (Nat.eqb_spec (D mod 2) 0); [contradiction | reflexivity].
  - intro Heven. apply Nat.Div0.div_exact in Heven.
    set (K := D / 2) in Heven. clearbody K. subst D.
    rewrite (rosenbrock_separate_eval x B K H W).
    eexists. split; [reflexivity|]. split; [reflexivity|].
    split; [apply wf_rows_tensor|].
    intros b Hb. unfold entry. cbn [data]. rewrite nth_map_seq by exact Hb.
    split; [apply terms_sum_nonneg|].
    rewrite terms_sum_zero. apply (separate_pairs_ones K).
    now apply (row_length x B).
Qed.

Lemma rosenbrock_separate_minimum_witness :
  rosenbrock_separate (tnat [1; 3] [1; 1; 1]) = AssertionError
  /\ exists y : tensor Qc,
       rosenbrock_separate (tnat [1; 4] [1; 1; 0; 2]) = Checked (Ret y)
       /\ shape y = [1; 1] /\ wf y
       /\ forall b, b < 1 ->
            Qcle (Qz 0) (entry y b)
            /\ (entry y b = Qz 0
                <-> all_ones (row (tnat [1; 4] [1; 1; 0; 2]) 4 b)).
Proof.
  split.
  - apply (proj1 (rosenbrock_separate_minimum (tnat [1; 3] [1; 1; 1]) 1 3
                    eq_refl eq_refl)).
    discriminate.
  - apply (proj2 (rosenbrock_separate_minimum (tnat [1; 4] [1; 1; 0; 2]) 1 4
                    eq_refl eq_refl)).
    reflexivity.
Defined.

(** In dimension 2 the chained and the separable function are the same
    function. *)
Theorem rosenbrock_separate_dim2 :
  forall (x : tensor Qc) (B : nat),
    shape x = [B; 2] -> wf x ->
    rosenbrock_separate x = Checked (rosenbrock x).
Proof.
  intros x B H W.
  rewrite (rosenbrock_separate_eval x B 1 H W), (rosenbrock_eval x B 2 H W).
  do 3 f_equal. apply map_ext_in. intros b Hb. apply in_seq in Hb.
  pose proof (row_length x B 2 b H W) as L.
  change (2 * 1) with 2.
  destruct (row x 2 b) as [|a [|c [|e r]]]; try (simpl in L; lia).
  reflexivity.
Qed.

Lemma rosenbrock_separate_dim2_witness :
  rosenbrock_separate (tnat [2; 2] [1; 1; 0; 3])
  = Checked (rosenbrock (tnat [2; 2] [1; 1; 0; 3])).
Proof.
  apply (rosenbrock_separate_dim2 (tnat [2; 2] [1; 1; 0; 3]) 2); reflexivity.
Defined.
